(** * IA.py: static evaluation, single-ply ranking, minimax and alpha-beta

    A shallow embedding of [src/IA.py].  The rules module that the file
    imports ([from chess import *]) is not part of the sources, so everything
    it provides is gathered in the class [Rules]; the functions of [IA.py]
    are written over an arbitrary instance of that class.

    Conventions of the embedding:
    - a Python call that may raise lives in [res] (pure code) or in [M]
      (code that also draws from the random generator);
    - [random.choice] reads a tape of naturals: the drawn index is the head
      of the tape modulo the length of the sequence, so every outcome the
      generator can produce is reached by some tape;
    - the recursion depth of [minimax] and [alpha_beta] is a Python integer
      that the code only tests with [depth == 1]; the embedding recurses on
      a separate [fuel] and raises [OutOfFuel] when it is exhausted;
    - a Python [str] is the list of its code points;
    - the text that [verbose] prints is not modelled.  The tracing of
      [alpha_beta] only formats scores and legal moves through functions
      of the rules module and cannot change what the call does, so it is
      left out; the tracing of [get_AI_move] subscripts [move] and calls
      [evaluate_game], which can raise, and is kept as
      [found_move_trace]. *)

From Stdlib Require Import ZArith List Bool Lia String Ascii.
Import ListNotations.
Open Scope Z_scope.

(* ================================================================= *)
(** ** Python values, exceptions, and the two monads                  *)
(* ================================================================= *)

Inductive exn : Type :=
| IndexError
| TypeError
| UnboundLocalError
| FileNotFoundError
| OutOfFuel.

Inductive res (A : Type) : Type :=
| Ok (a : A)
| Raise (e : exn).
Arguments Ok {A} a.
Arguments Raise {A} e.

Definition res_bind {A B} (c : res A) (k : A -> res B) : res B :=
  match c with
  | Ok a => k a
  | Raise e => Raise e
  end.

(** The state of the pseudo-random generator: an infinite tape. *)
Definition Rng : Type := nat -> nat.

Definition M (A : Type) : Type := Rng -> res (A * Rng).

Definition ret {A} (a : A) : M A := fun rng => Ok (a, rng).

Definition bind {A B} (c : M A) (k : A -> M B) : M B :=
  fun rng =>
    match c rng with
    | Ok (a, rng') => k a rng'
    | Raise e => Raise e
    end.

Definition raise {A} (e : exn) : M A := fun _ => Raise e.

Definition lift {A} (c : res A) : M A :=
  fun rng =>
    match c with
    | Ok a => Ok (a, rng)
    | Raise e => Raise e
    end.

Declare Scope py_scope.
Delimit Scope py_scope with py.
Notation "x <- c ;; k" := (bind c (fun x => k))
  (at level 61, c at next level, right associativity) : py_scope.
Notation "' pat <- c ;; k" := (bind c (fun x => match x with pat => k end))
  (at level 61, pat pattern, c at next level, right associativity) : py_scope.
Notation "x <-- c ;; k" := (res_bind c (fun x => k))
  (at level 61, c at next level, right associativity) : py_scope.
Open Scope py_scope.

(** [random.choice(seq)]: [IndexError] on an empty sequence. *)
Definition choice {A} (seq : list A) : M A :=
  fun rng =>
    match seq with
    | [] => Raise IndexError
    | x :: _ => Ok (nth (Nat.modulo (rng 0%nat) (List.length seq)) seq x,
                    fun n => rng (S n))
    end.

(** Scores as Python sees them: [None] (a function fell off its end), an
    integer, or one of the two float infinities used as the default window
    of [alpha_beta]. *)
Inductive pyval : Type :=
| PNone
| PInt (z : Z)
| PNegInf
| PPosInf.

(** [a == b]: never raises. *)
Definition py_eq (a b : pyval) : bool :=
  match a, b with
  | PNone, PNone => true
  | PInt x, PInt y => x =? y
  | PNegInf, PNegInf => true
  | PPosInf, PPosInf => true
  | _, _ => false
  end.

(** [a > b]: [TypeError] as soon as [None] is compared. *)
Definition py_gt (a b : pyval) : res bool :=
  match a, b with
  | PNone, _ | _, PNone => Raise TypeError
  | PInt x, PInt y => Ok (x >? y)
  | PPosInf, PPosInf => Ok false
  | PPosInf, _ => Ok true
  | _, PPosInf => Ok false
  | PNegInf, _ => Ok false
  | PInt _, PNegInf => Ok true
  end.

(** [a < b]. *)
Definition py_lt (a b : pyval) : res bool := py_gt b a.

(** Control flow of a [for] body: fall through to the next iteration,
    [break], or [return]. *)
Inductive flow (R S : Type) : Type :=
| Next (s : S)
| Broke (s : S)
| Returned (r : R).
Arguments Next {R S} s.
Arguments Broke {R S} s.
Arguments Returned {R S} r.

(** [for x in xs: body], threading the loop-carried variables [s]; the
    result is either the value of a [return] inside the loop ([inl]) or the
    variables when the loop is left normally or by [break] ([inr]). *)
Fixpoint for_each {X R S} (body : S -> X -> M (flow R S))
         (xs : list X) (s : S) : M (R + S) :=
  match xs with
  | [] => ret (inr s)
  | x :: rest =>
      c <- body s x ;;
      match c with
      | Next s' => for_each body rest s'
      | Broke s' => ret (inr s')
      | Returned r => ret (inl r)
      end
  end.

(** The same loop for a body that cannot draw random numbers, [break] or
    [return]. *)
Fixpoint for_range {S} (body : S -> nat -> res S) (xs : list nat) (s : S)
  : res S :=
  match xs with
  | [] => Ok s
  | x :: rest => s' <-- body s x ;; for_range body rest s'
  end.

(* ================================================================= *)
(** ** Python strings                                                 *)
(* ================================================================= *)

(** The part of Python's [str] that the book lookup uses.  A string is
    the list of its code points. *)
Module PyStr.

Definition str : Type := list N.

(** A literal, character by character. *)
Definition of_string (s : string) : str :=
  map N_of_ascii (list_ascii_of_string s).

(** [str.isspace] of one character, which is also what [lstrip()] and
    [rstrip()] remove: tab to carriage return, the separators U+001C to
    U+001F, the space, U+0085, U+00A0, U+1680, U+2000 to U+200A, U+2028,
    U+2029, U+202F, U+205F and U+3000. *)
Definition is_space (c : N) : bool :=
  ((9 <=? c) && (c <=? 13) || (28 <=? c) && (c <=? 32)
   || (c =? 0x85) || (c =? 0xA0) || (c =? 0x1680)
   || (0x2000 <=? c) && (c <=? 0x200A)
   || (c =? 0x2028) || (c =? 0x2029) || (c =? 0x202F)
   || (c =? 0x205F) || (c =? 0x3000))%N.

Fixpoint lstrip (s : str) : str :=
  match s with
  | [] => []
  | c :: s' => if is_space c then lstrip s' else s
  end.

Fixpoint rstrip (s : str) : str :=
  match s with
  | [] => []
  | c :: s' =>
      match rstrip s' with
      | [] => if is_space c then [] else [c]
      | t => c :: t
      end
  end.

(** [a == b]. *)
Fixpoint eqb (a b : str) : bool :=
  match a, b with
  | [], [] => true
  | x :: a', y :: b' => (x =? y)%N && eqb a' b'
  | _, _ => false
  end.

Fixpoint prefix (p s : str) : bool :=
  match p, s with
  | [], _ => true
  | _ :: _, [] => false
  | x :: p', y :: s' => (x =? y)%N && prefix p' s'
  end.

Definition startswith (s p : str) : bool := prefix p s.

(** The order of strings: lexicographic on code points. *)
Fixpoint compare (a b : str) : comparison :=
  match a, b with
  | [], [] => Eq
  | [], _ :: _ => Lt
  | _ :: _, [] => Gt
  | x :: a', y :: b' =>
      match (x ?= y)%N with
      | Eq => compare a' b'
      | c => c
      end
  end.

(** [a > b]. *)
Definition gt (a b : str) : bool :=
  match compare a b with
  | Gt => true
  | _ => false
  end.

(** [s.replace(old, '')] for a non-empty [old]: scan left to right,
    dropping each occurrence whole ([skip] counts the characters of the
    current occurrence still to drop). *)
Fixpoint remove_from (old s : str) (skip : nat) : str :=
  match s with
  | [] => []
  | c :: s' =>
      match skip with
      | S k => remove_from old s' k
      | O => if prefix old s
             then remove_from old s' (List.length old - 1)
             else c :: remove_from old s' 0
      end
  end.

(** [s.replace(old, '')]; replacing the empty string by itself changes
    nothing. *)
Definition remove (s old : str) : str :=
  match old with
  | [] => s
  | _ :: _ => remove_from old s 0
  end.

(** [s.split(' ')[0]]: everything before the first space, U+0020. *)
Fixpoint first_field (s : str) : str :=
  match s with
  | [] => []
  | c :: s' => if (c =? 32)%N then [] else c :: first_field s'
  end.

(** [s[:2]] and [s[-2:]]. *)
Definition first_two (s : str) : str := firstn 2 s.
Definition last_two (s : str) : str := skipn (List.length s - 2) s.

End PyStr.

(* ================================================================= *)
(** ** The rules module                                               *)
(* ================================================================= *)

Inductive Color : Type := WHITE | BLACK.

(** Modelled from the spec: [opposing_color] of the absent rules module,
    the total involution on the two colours. *)
Definition opposing_color (color : Color) : Color :=
  match color with
  | WHITE => BLACK
  | BLACK => WHITE
  end.

(** [move = [ leaving_position, arriving_position ]], two bitboards. *)
Definition Move : Type := (Z * Z)%type.

(** [board = [ a1, b1, ..., g8, h8 ]]. *)
Definition Board : Type := list Z.

(** Everything [IA.py] takes from [chess]: the fields of a game, the rule
    predicates, and the constants and tables of the evaluator. *)
Class Rules (Game : Type) : Type := {
  (* fields and methods of a game object *)
  board : Game -> Board;
  to_move : Game -> Color;
  position_history : Game -> list PyStr.str;
  get_move_list : Game -> PyStr.str;
  (* rules *)
  legal_moves : Game -> Color -> list Move;
  count_legal_moves : Game -> Color -> Z;
  make_move : Game -> Move -> Game;
  game_ended : Game -> bool;
  is_checkmate : Game -> Color -> bool;
  is_stalemate : Game -> bool;
  has_insufficient_material : Game -> bool;
  is_under_75_move_rule : Game -> bool;
  (* board helpers *)
  material_sum : Board -> Color -> Z;
  flip_board_v : Board -> Board;
  is_open_file : Z -> Board -> bool;
  is_semi_open_file : Z -> Board -> bool;
  is_endgame : Board -> bool;
  str2bb : PyStr.str -> Z;
  (* piece encoding, 0bCPPP *)
  color_code : Color -> Z;
  EMPTY : Z;
  COLOR_MASK : Z;
  PIECE_MASK : Z;
  PAWN : Z;
  KNIGHT : Z;
  BISHOP : Z;
  ROOK : Z;
  KING : Z;
  (* values and bonuses *)
  PIECE_VALUES : Z -> Z;
  PAWN_BONUS : nat -> Z;
  KNIGHT_BONUS : nat -> Z;
  BISHOP_BONUS : nat -> Z;
  KING_BONUS : nat -> Z;
  KING_ENDGAME_BONUS : nat -> Z;
  ROOK_OPEN_FILE_BONUS : Z;
  ROOK_SEMI_OPEN_FILE_BONUS : Z;
  ROOK_ON_SEVENTH_BONUS : Z;
  RANK_7 : Z;
  (* opening book *)
  INITIAL_FEN : PyStr.str;
  book_txt : option (list PyStr.str);
  (* the tracing switch *)
  verbose : bool
}.

(** The same rules with another [count_legal_moves]. *)
Definition with_count_legal_moves {Game : Type} (R : Rules Game)
           (count : Game -> Color -> Z) : Rules Game :=
  {| board := board;
     to_move := to_move;
     position_history := position_history;
     get_move_list := get_move_list;
     legal_moves := legal_moves;
     count_legal_moves := count;
     make_move := make_move;
     game_ended := game_ended;
     is_checkmate := is_checkmate;
     is_stalemate := is_stalemate;
     has_insufficient_material := has_insufficient_material;
     is_under_75_move_rule := is_under_75_move_rule;
     material_sum := material_sum;
     flip_board_v := flip_board_v;
     is_open_file := is_open_file;
     is_semi_open_file := is_semi_open_file;
     is_endgame := is_endgame;
     str2bb := str2bb;
     color_code := color_code;
     EMPTY := EMPTY;
     COLOR_MASK := COLOR_MASK;
     PIECE_MASK := PIECE_MASK;
     PAWN := PAWN;
     KNIGHT := KNIGHT;
     BISHOP := BISHOP;
     ROOK := ROOK;
     KING := KING;
     PIECE_VALUES := PIECE_VALUES;
     PAWN_BONUS := PAWN_BONUS;
     KNIGHT_BONUS := KNIGHT_BONUS;
     BISHOP_BONUS := BISHOP_BONUS;
     KING_BONUS := KING_BONUS;
     KING_ENDGAME_BONUS := KING_ENDGAME_BONUS;
     ROOK_OPEN_FILE_BONUS := ROOK_OPEN_FILE_BONUS;
     ROOK_SEMI_OPEN_FILE_BONUS := ROOK_SEMI_OPEN_FILE_BONUS;
     ROOK_ON_SEVENTH_BONUS := ROOK_ON_SEVENTH_BONUS;
     RANK_7 := RANK_7;
     INITIAL_FEN := INITIAL_FEN;
     book_txt := book_txt;
     verbose := verbose |}.

(* ================================================================= *)
(** ** Static evaluation                                              *)
(* ================================================================= *)

Section Evaluation.
Context {Game : Type} {R : Rules Game}.

Definition material_balance (b : Board) : Z :=
  material_sum b WHITE - material_sum b BLACK.

Definition mobility_balance (game : Game) : Z :=
  count_legal_moves game WHITE - count_legal_moves game BLACK.

(** The board [positional_bonus] scans: the game's own for White, its
    vertical mirror for Black. *)
Definition oriented_board (game : Game) (color : Color) : Board :=
  match color with
  | WHITE => board game
  | BLACK => flip_board_v (board game)
  end.

(** One iteration of [for index in range(64)]. *)
Definition positional_bonus_body (b : Board) (color : Color)
           (bonus : Z) (index : nat) : res Z :=
  match nth_error b index with
  | None => Raise IndexError
  | Some piece =>
      if negb (piece =? EMPTY)
         && (Z.land piece COLOR_MASK =? color_code color)
      then
        let piece_type := Z.land piece PIECE_MASK in
        if piece_type =? PAWN then Ok (bonus + PAWN_BONUS index)
        else if piece_type =? KNIGHT then Ok (bonus + KNIGHT_BONUS index)
        else if piece_type =? BISHOP then Ok (bonus + BISHOP_BONUS index)
        else if piece_type =? ROOK then
          let position := Z.shiftl 1 (Z.of_nat index) in
          let bonus :=
            if is_open_file position b
            then bonus + ROOK_OPEN_FILE_BONUS
            else if is_semi_open_file position b
                 then bonus + ROOK_SEMI_OPEN_FILE_BONUS
                 else bonus in
          let bonus :=
            if negb (Z.land position RANK_7 =? 0)
            then bonus + ROOK_ON_SEVENTH_BONUS
            else bonus in
          Ok bonus
        else if piece_type =? KING then
          if is_endgame b then Ok (bonus + KING_ENDGAME_BONUS index)
          else Ok (bonus + KING_BONUS index)
        else Ok bonus
      else Ok bonus
  end.

Definition positional_bonus (game : Game) (color : Color) : res Z :=
  let b := oriented_board game color in
  for_range (positional_bonus_body b color) (seq 0 64) 0.

Definition positional_balance (game : Game) : res Z :=
  w <-- positional_bonus game WHITE ;;
  b <-- positional_bonus game BLACK ;;
  Ok (w - b).

Definition win_score (color : Color) : pyval :=
  match color with
  | WHITE => PInt (-10 * PIECE_VALUES KING)
  | BLACK => PInt (10 * PIECE_VALUES KING)
  end.

(** Falls off its end, returning [None], when no test succeeds. *)
Definition evaluate_end_node (game : Game) : pyval :=
  if is_checkmate game (to_move game) then win_score (to_move game)
  else if is_stalemate game
          || has_insufficient_material game
          || is_under_75_move_rule game
       then PInt 0
       else PNone.

Definition evaluate_game (game : Game) : res pyval :=
  if game_ended game then Ok (evaluate_end_node game)
  else
    p <-- positional_balance game ;;
    Ok (PInt (material_balance (board game) + p)).

End Evaluation.

(* ================================================================= *)
(** ** Single-ply ranking, minimax and alpha-beta                     *)
(* ================================================================= *)

Section Search.
Context {Game : Type} {R : Rules Game}.

(** [(color == WHITE and evaluation > best_score) or
     (color == BLACK and evaluation < best_score)]; only the comparison
    of the actual colour is evaluated. *)
Definition improves (color : Color) (evaluation best_score : pyval)
  : res bool :=
  match color with
  | WHITE => py_gt evaluation best_score
  | BLACK => py_lt evaluation best_score
  end.

(** The tail of the loop body shared by [evaluated_move] and [minimax]:
    a strict improvement resets the tie list, an exact tie extends it. *)
Definition track_best {X} (color : Color) (move : Move)
           (evaluation best_score : pyval) (best_moves : list Move)
  : M (flow X (pyval * list Move)) :=
  better <- lift (improves color evaluation best_score) ;;
  if better then ret (Next (evaluation, [move]))
  else if py_eq evaluation best_score
       then ret (Next (best_score, best_moves ++ [move]))
       else ret (Next (best_score, best_moves)).

Definition evaluated_move_body (game : Game) (color : Color)
           (st : pyval * list Move) (move : Move)
  : M (flow (Move * pyval) (pyval * list Move)) :=
  let '(best_score, best_moves) := st in
  evaluation <- lift (evaluate_game (make_move game move)) ;;
  if is_checkmate (make_move game move) (opposing_color (to_move game))
  then ret (Returned (move, evaluation))
  else track_best color move evaluation best_score best_moves.

Definition evaluated_move (game : Game) (color : Color)
  : M (Move * pyval) :=
  let best_score := win_score color in
  let best_moves := [] in
  out <- for_each (evaluated_move_body game color)
                  (legal_moves game color) (best_score, best_moves) ;;
  match out with
  | inl r => ret r
  | inr (best_score, best_moves) =>
      move <- choice best_moves ;;
      ret (move, best_score)
  end.

Definition random_move (game : Game) (color : Color) : M Move :=
  choice (legal_moves game color).

(** The body of the loop of [minimax]; [rec] is the recursive call. *)
Definition minimax_body
           (rec : Game -> Color -> Z -> M (option Move * pyval))
           (game : Game) (color : Color) (depth : Z)
           (st : pyval * list Move) (move : Move)
  : M (flow (option Move * pyval) (pyval * list Move)) :=
  let '(best_score, best_moves) := st in
  let his_game := make_move game move in
  if is_checkmate his_game (to_move his_game)
  then ret (Returned (Some move, win_score (to_move his_game)))
  else
    '(_, evaluation) <- rec his_game (opposing_color color) (depth - 1) ;;
    if py_eq evaluation (win_score (opposing_color color))
    then ret (Returned (Some move, evaluation))
    else track_best color move evaluation best_score best_moves.

Fixpoint minimax (fuel : nat) (game : Game) (color : Color) (depth : Z)
  : M (option Move * pyval) :=
  match fuel with
  | O => raise OutOfFuel
  | S fuel' =>
      if game_ended game then
        e <- lift (evaluate_game game) ;;
        ret (None, e)
      else
        '(simple_move, simple_evaluation) <- evaluated_move game color ;;
        if (depth =? 1)
           || py_eq simple_evaluation (win_score (opposing_color color))
        then ret (Some simple_move, simple_evaluation)
        else
          let best_score := win_score color in
          let best_moves := [] in
          out <- for_each (minimax_body (minimax fuel') game color depth)
                          (legal_moves game color)
                          (best_score, best_moves) ;;
          match out with
          | inl r => ret r
          | inr (best_score, best_moves) =>
              move <- choice best_moves ;;
              ret (Some move, best_score)
          end
  end.

(** The body of the White loop of [alpha_beta]; the loop carries [alpha]
    and [best_moves], [beta] is fixed. *)
Definition alpha_beta_white_body
           (rec : Game -> Color -> Z -> pyval -> pyval
                  -> M (option Move * pyval))
           (game : Game) (color : Color) (depth : Z) (beta : pyval)
           (st : pyval * list Move) (move : Move)
  : M (flow (option Move * pyval) (pyval * list Move)) :=
  let '(alpha, best_moves) := st in
  let new_game := make_move game move in
  '(_, score) <- rec new_game (opposing_color color) (depth - 1)
                     alpha beta ;;
  if py_eq score (win_score (opposing_color color))
  then ret (Returned (Some move, score))
  else
    let best_moves :=
      if py_eq score alpha then best_moves ++ [move] else best_moves in
    higher <- lift (py_gt score alpha) ;;
    if higher then
      let alpha := score in
      let best_moves := [move] in
      cutoff <- lift (py_gt alpha beta) ;;
      if cutoff then ret (Broke (alpha, best_moves))
      else ret (Next (alpha, best_moves))
    else ret (Next (alpha, best_moves)).

(** The body of the Black loop; the loop carries [beta] and
    [best_moves], [alpha] is fixed. *)
Definition alpha_beta_black_body
           (rec : Game -> Color -> Z -> pyval -> pyval
                  -> M (option Move * pyval))
           (game : Game) (color : Color) (depth : Z) (alpha : pyval)
           (st : pyval * list Move) (move : Move)
  : M (flow (option Move * pyval) (pyval * list Move)) :=
  let '(beta, best_moves) := st in
  let new_game := make_move game move in
  '(_, score) <- rec new_game (opposing_color color) (depth - 1)
                     alpha beta ;;
  if py_eq score (win_score (opposing_color color))
  then ret (Returned (Some move, score))
  else
    let best_moves :=
      if py_eq score beta then best_moves ++ [move] else best_moves in
    lower <- lift (py_lt score beta) ;;
    if lower then
      let beta := score in
      let best_moves := [move] in
      cutoff <- lift (py_gt alpha beta) ;;
      if cutoff then ret (Broke (beta, best_moves))
      else ret (Next (beta, best_moves))
    else ret (Next (beta, best_moves)).

(** [if best_moves: return [choice(best_moves), bound]
     else: return [None, bound]]. *)
Definition alpha_beta_result (bound : pyval) (best_moves : list Move)
  : M (option Move * pyval) :=
  match best_moves with
  | [] => ret (None, bound)
  | _ :: _ => move <- choice best_moves ;; ret (Some move, bound)
  end.

Fixpoint alpha_beta (fuel : nat) (game : Game) (color : Color) (depth : Z)
         (alpha beta : pyval) : M (option Move * pyval) :=
  match fuel with
  | O => raise OutOfFuel
  | S fuel' =>
      if game_ended game then
        e <- lift (evaluate_game game) ;;
        ret (None, e)
      else
        '(simple_move, simple_evaluation) <- evaluated_move game color ;;
        if (depth =? 1)
           || py_eq simple_evaluation (win_score (opposing_color color))
        then ret (Some simple_move, simple_evaluation)
        else
          let best_moves := [] in
          match color with
          | WHITE =>
              out <- for_each
                       (alpha_beta_white_body (alpha_beta fuel')
                                              game color depth beta)
                       (legal_moves game color) (alpha, best_moves) ;;
              match out with
              | inl r => ret r
              | inr (alpha, best_moves) =>
                  alpha_beta_result alpha best_moves
              end
          | BLACK =>
              out <- for_each
                       (alpha_beta_black_body (alpha_beta fuel')
                                              game color depth alpha)
                       (legal_moves game color) (beta, best_moves) ;;
              match out with
              | inl r => ret r
              | inr (beta, best_moves) =>
                  alpha_beta_result beta best_moves
              end
          end
  end.

End Search.

(* ================================================================= *)
(** ** Opening book and move-selection driver                         *)
(* ================================================================= *)

(** What [find_in_book] returns: [False] or the list [openings]. *)
Inductive book_result : Type :=
| BookFalse
| BookOpenings (openings : list PyStr.str).

(** Truth value of that result in [if find_in_book(game):]. *)
Definition truthy (b : book_result) : bool :=
  match b with
  | BookFalse => false
  | BookOpenings [] => false
  | BookOpenings (_ :: _) => true
  end.

Section Driver.
Context {Game : Type} {R : Rules Game}.

(** [for line in book_file], collecting the stripped matching lines. *)
Fixpoint scan_book (move_list : PyStr.str) (lines : list PyStr.str)
         (openings : list PyStr.str) : list PyStr.str :=
  match lines with
  | [] => openings
  | line :: rest =>
      if PyStr.startswith line move_list
         && PyStr.gt (PyStr.rstrip line) move_list
      then scan_book move_list rest (openings ++ [PyStr.rstrip line])
      else scan_book move_list rest openings
  end.

Definition find_in_book (game : Game) : res book_result :=
  match position_history game with
  | [] => Raise IndexError
  | first :: _ =>
      if negb (PyStr.eqb first INITIAL_FEN) then Ok BookFalse
      else
        match book_txt with
        | None => Raise FileNotFoundError
        | Some lines =>
            Ok (BookOpenings (scan_book (get_move_list game) lines []))
        end
  end.

Definition get_book_move (game : Game) : M Move :=
  found <- lift (find_in_book game) ;;
  match found with
  | BookFalse => raise TypeError
  | BookOpenings openings =>
      chosen_opening <- choice openings ;;
      let next_moves :=
        PyStr.lstrip (PyStr.remove chosen_opening (get_move_list game)) in
      let move_str := PyStr.first_field next_moves in
      ret (str2bb (PyStr.first_two move_str),
           str2bb (PyStr.last_two move_str))
  end.

(** What evaluating the text of the last [print] of [get_AI_move] can
    raise: [move[0]] on [None] is a [TypeError], and [evaluate_game] is
    called on the game and on the game after the move.  The other calls
    of the text ([get_piece], [PIECE_CODES], [bb2str], [make_move])
    belong to the rules module and are taken to return. *)
Definition found_move_trace (game : Game) (move : option Move) : res unit :=
  match move with
  | None => Raise TypeError
  | Some m =>
      res_bind (evaluate_game game) (fun _ =>
      res_bind (evaluate_game (make_move game m)) (fun _ =>
      Ok tt))
  end.

(** [if verbose: print(...)]. *)
Definition trace (game : Game) (move : option Move) : res unit :=
  if verbose then found_move_trace game move else Ok tt.

(** The local variable [move] is [None] here while it is unbound;
    reading it then raises [UnboundLocalError]. *)
Definition get_AI_move (fuel : nat) (game : Game) (depth : Z)
           (use_book : bool) : M (option Move) :=
  move <-
    (if use_book then
       found <- lift (find_in_book game) ;;
       if truthy found then
         m <- get_book_move game ;;
         ret (Some (Some m))
       else ret None
     else
       '(m, _) <- alpha_beta fuel game (to_move game) depth
                             PNegInf PPosInf ;;
       ret (Some m)) ;;
  match move with
  | Some m =>
      _ <- lift (trace game m) ;;
      ret m
  | None => raise UnboundLocalError
  end.

End Driver.

(* ================================================================= *)
(** ** A small rules module: the subtraction game                     *)
(* ================================================================= *)

(** An instance of [Rules] on which the functions above can be run: a pile
    of stones from which the side to move takes one or two; the side that
    finds the pile empty is checkmated.  A position shows one of two fixed
    chess boards, by the parity of the pile, to the static evaluator. *)
Module Toy.

Record Game : Type := mkGame { turn : Color; stones : nat }.

Definition sq (color piece : Z) : Z := Z.lor color piece.

(** White: king e1, rook a7, pawn b2.  Black: king e8, rook h2, pawn g7. *)
Definition board_even : Board :=
  [0;0;0;0;6;0;0;0;   0;1;0;0;0;0;0;12;   0;0;0;0;0;0;0;0;  0;0;0;0;0;0;0;0;
   0;0;0;0;0;0;0;0;   0;0;0;0;0;0;0;0;    4;0;0;0;0;0;9;0;  0;0;0;0;14;0;0;0].

(** White: king g1, knight c3.  Black: king g8, bishop f8, pawn a7. *)
Definition board_odd : Board :=
  [0;0;0;0;0;0;6;0;   0;0;0;0;0;0;0;0;    0;0;2;0;0;0;0;0;  0;0;0;0;0;0;0;0;
   0;0;0;0;0;0;0;0;   0;0;0;0;0;0;0;0;    9;0;0;0;0;0;0;0;  0;0;0;0;0;11;14;0].

Definition piece_value (piece_type : Z) : Z :=
  match piece_type with
  | 1 => 100 | 2 => 300 | 3 => 300 | 4 => 500 | 5 => 900 | 6 => 42000
  | _ => 0
  end.

Definition color_bits (color : Color) : Z :=
  match color with WHITE => 0 | BLACK => 8 end.

Definition material (b : Board) (color : Color) : Z :=
  fold_left
    (fun acc piece =>
       if negb (piece =? 0) && (Z.land piece 8 =? color_bits color)
       then acc + piece_value (Z.land piece 7) else acc)
    b 0.

(** Rank [r] and rank [7 - r] change places. *)
Definition flip (b : Board) : Board :=
  map (fun i => nth (Nat.lxor i 56) b 0) (seq 0 64).

Definition file_of (position : Z) : nat := Nat.modulo (Z.to_nat (Z.log2 position)) 8.

Definition pawns_on_file (b : Board) (file : nat) (color : option Z) : nat :=
  List.length
    (filter
       (fun i =>
          let piece := nth i b 0 in
          (Nat.modulo i 8 =? file)%nat && (Z.land piece 7 =? 1)
          && match color with
             | None => true
             | Some c => Z.land piece 8 =? c
             end)
       (seq 0 64)).

Definition open_file (position : Z) (b : Board) : bool :=
  (pawns_on_file b (file_of position) None =? 0)%nat.

Definition semi_open_file (position : Z) (b : Board) : bool :=
  let own := Z.land (nth (Z.to_nat (Z.log2 position)) b 0) 8 in
  (pawns_on_file b (file_of position) (Some own) =? 0)%nat.

Definition square_of_name (s : PyStr.str) : Z :=
  match s with
  | f :: r :: _ => Z.shiftl 1 (Z.of_N ((r - 49) * 8 + (f - 97)))
  | _ => 0
  end.

Definition moves (g : Game) : list Move :=
  match stones g with
  | 0%nat | 5%nat => []
  | 1%nat => [(1, 0)]
  | _ => [(1, 0); (2, 0)]
  end.

Definition play (g : Game) (m : Move) : Game :=
  mkGame (opposing_color (turn g)) (stones g - Z.to_nat (fst m)).

Definition color_eqb (a b : Color) : bool :=
  match a, b with
  | WHITE, WHITE | BLACK, BLACK => true
  | _, _ => false
  end.

Definition start_fen : PyStr.str :=
  PyStr.of_string "rnbqkbnr/pppppppp/8/8/8/8/PPPPPPPP/RNBQKBNR w KQkq - 0 1".

#[export] Instance rules : Rules Game := {|
  board := fun g => if Nat.even (stones g) then board_even else board_odd;
  to_move := turn;
  position_history := fun g =>
    if Nat.even (stones g) then [start_fen]
    else [PyStr.of_string "8/8/8/8/8/8/8/8 w - - 0 1"];
  get_move_list := fun g =>
    if (stones g =? 8)%nat then PyStr.of_string "e2e4"
    else PyStr.of_string "a2a3";
  legal_moves := fun g _ => moves g;
  count_legal_moves := fun g _ => Z.of_nat (List.length (moves g));
  make_move := play;
  game_ended := fun g => (stones g =? 0)%nat || (stones g =? 5)%nat;
  is_checkmate := fun g c => (stones g =? 0)%nat && color_eqb c (turn g);
  is_stalemate := fun g => (stones g =? 5)%nat;
  has_insufficient_material := fun _ => false;
  is_under_75_move_rule := fun _ => false;
  material_sum := material;
  flip_board_v := flip;
  is_open_file := open_file;
  is_semi_open_file := semi_open_file;
  is_endgame := fun b => material b WHITE + material b BLACK <? 2 * 42000 + 1300;
  str2bb := square_of_name;
  color_code := color_bits;
  EMPTY := 0;
  COLOR_MASK := 8;
  PIECE_MASK := 7;
  PAWN := 1;
  KNIGHT := 2;
  BISHOP := 3;
  ROOK := 4;
  KING := 6;
  PIECE_VALUES := piece_value;
  PAWN_BONUS := fun i => Z.of_nat (i / 8) * 5;
  KNIGHT_BONUS := fun i => if (i <? 8)%nat then -10 else 10;
  BISHOP_BONUS := fun i => if (i <? 8)%nat then -10 else 5;
  KING_BONUS := fun i => if (i <? 8)%nat then 20 else -20;
  KING_ENDGAME_BONUS := fun i => if (i <? 8)%nat then -30 else 0;
  ROOK_OPEN_FILE_BONUS := 10;
  ROOK_SEMI_OPEN_FILE_BONUS := 5;
  ROOK_ON_SEVENTH_BONUS := 20;
  RANK_7 := 0x00FF000000000000;
  INITIAL_FEN := start_fen;
  book_txt := Some [PyStr.of_string "e2e4 e7e5 g1f3
"; PyStr.of_string "d2d4 d7d5
"];
  verbose := false
|}.

(** The all-zero tape. *)
Definition tape0 : Rng := fun _ => 0%nat.

(** The positions a search from the side to move visits: the searching
    colour is the side to move. *)
Definition on_turn (g : Game) (c : Color) : Prop := c = turn g.

End Toy.

(* ================================================================= *)
(** ** Definitions used to state the properties                       *)
(* ================================================================= *)

Section Statements.
Context {Game : Type} {R : Rules Game}.

(** The forced-win magnitude, ten times the value of the king. *)
Definition sentinel : Z := 10 * PIECE_VALUES KING.

(** What one square adds to the running bonus: the loop body run from a
    bonus of zero. *)
Definition square_bonus (b : Board) (color : Color) (index : nat) : Z :=
  match positional_bonus_body b color 0 index with
  | Ok z => z
  | Raise _ => 0
  end.

(** A piece of kind [kind] and colour [color], as the loop body tests
    it. *)
Definition is_piece (piece : Z) (color : Color) (kind : Z) : Prop :=
  piece <> EMPTY
  /\ Z.land piece COLOR_MASK = color_code color
  /\ Z.land piece PIECE_MASK = kind.

(** [move] mates: after it the opponent of the side to move is
    checkmated.  This is the test of [evaluated_move]. *)
Definition mates (game : Game) (move : Move) : bool :=
  is_checkmate (make_move game move) (opposing_color (to_move game)).

(** [a] is at least as good as [b] for [color]. *)
Definition at_least (color : Color) (a b : Z) : Prop :=
  match color with
  | WHITE => b <= a
  | BLACK => a <= b
  end.

Definition legal_tie_list (game : Game) (color : Color)
           (st : pyval * list Move) : Prop :=
  forall m, In m (snd st) -> In m (legal_moves game color).

Definition legal_or_none (game : Game) (color : Color)
           (r : option Move * pyval) : Prop :=
  forall m, fst r = Some m -> In m (legal_moves game color).

(** *** Scores as integers

    Under the contract every score in play is an integer between
    [- sentinel] and [sentinel]; the definitions below name those
    integers. *)

(** The evaluation of a game, as an integer. *)
Definition ev (game : Game) : Z :=
  match evaluate_game game with
  | Ok (PInt z) => z
  | _ => 0
  end.

(** [win_score color] and [win_score (opposing_color color)]. *)
Definition wown (color : Color) : Z :=
  match color with
  | WHITE => - sentinel
  | BLACK => sentinel
  end.

Definition wopp (color : Color) : Z := wown (opposing_color color).

(** The better of two scores for [color]. *)
Definition better (color : Color) (a b : Z) : Z :=
  match color with
  | WHITE => Z.max a b
  | BLACK => Z.min a b
  end.

(** [e] is strictly better than [b] for [color]. *)
Definition strictly (color : Color) (e b : Z) : bool :=
  match color with
  | WHITE => e >? b
  | BLACK => b >? e
  end.

(** The tie list after a move of evaluation [e] met the best score
    [b]. *)
Definition tie_list (color : Color) (move : Move) (e b : Z)
           (best_moves : list Move) : list Move :=
  if strictly color e b then [move]
  else if e =? b then best_moves ++ [move]
  else best_moves.

(** The best score of a list of scores, starting from [win_score] of
    the mover. *)
Definition best_of (color : Color) (scores : list Z) : Z :=
  fold_left (better color) scores (wown color).

(** The score [evaluated_move] returns: the evaluation after the first
    mating move, or else the best evaluation. *)
Definition em_score (game : Game) (color : Color) : Z :=
  match find (mates game) (legal_moves game color) with
  | Some m => ev (make_move game m)
  | None =>
      best_of color
              (map (fun m => ev (make_move game m))
                   (legal_moves game color))
  end.

(** The score [minimax] returns at depth [n + 1]. *)
Fixpoint mm_value (n : nat) (game : Game) (color : Color) : Z :=
  if game_ended game then ev game
  else
    match n with
    | O => em_score game color
    | S n' =>
        if em_score game color =? wopp color then em_score game color
        else
          best_of color
                  (map (fun m => mm_value n' (make_move game m)
                                          (opposing_color color))
                       (legal_moves game color))
    end.

(** A bound of the window as an integer: the infinities sit just
    outside the range of the scores. *)
Definition num (bound : pyval) : Z :=
  match bound with
  | PInt z => z
  | PNegInf => - sentinel - 1
  | PPosInf => sentinel + 1
  | PNone => 0
  end.

(** A lower bound [alpha_beta] can hold: minus infinity or a score
    below the sentinel. *)
Definition lower_bound (alpha : pyval) : Prop :=
  alpha = PNegInf \/ exists a, alpha = PInt a /\ - sentinel <= a < sentinel.

(** An upper bound [alpha_beta] can hold: plus infinity or a score
    above minus the sentinel. *)
Definition upper_bound (beta : pyval) : Prop :=
  beta = PPosInf \/ exists b, beta = PInt b /\ - sentinel < b <= sentinel.

Definition window (alpha beta : pyval) : Prop :=
  lower_bound alpha /\ upper_bound beta /\ num alpha <= num beta.

(** How the result [r] of a search in the window [(a, b)] relates to the
    minimax value [v] of the position: exact inside the window, on the
    same side outside. *)
Definition bracket (a b v r : Z) : Prop :=
  (v <= a -> r <= a) /\ (a < v < b -> r = v) /\ (b <= v -> b <= r).

(** The loop invariant of [evaluated_move] after the moves [done]:
    the best score is that of [done], the tie list holds moves of [done]
    that reach it, and is empty only before the first move. *)
Definition em_inv (game : Game) (color : Color) (done : list Move)
           (b : Z) (bm : list Move) : Prop :=
  - sentinel <= b <= sentinel
  /\ b = best_of color (map (fun m => ev (make_move game m)) done)
  /\ (forall m, In m bm -> In m done /\ ev (make_move game m) = b)
  /\ (forall m, In m done -> at_least color b (ev (make_move game m)))
  /\ (done <> [] -> bm <> []).

(** A call of [alpha_beta] on a position, taken as a function of the
    window, answers for the value [v] when on every window and every
    tape it returns an integer score that brackets [v]. *)
Definition answers (call : pyval -> pyval -> M (option Move * pyval))
           (v : Z) : Prop :=
  - sentinel <= v <= sentinel
  /\ forall alpha beta,
      window alpha beta ->
      forall rng, exists mv r rng',
          call alpha beta rng = Ok ((mv, PInt r), rng')
          /\ - sentinel <= r <= sentinel
          /\ bracket (num alpha) (num beta) v r.

(** The score a loop of [alpha_beta] ends on: the returned score, or
    the bound it carried. *)
Definition loop_score (out : option Move * pyval + pyval * list Move)
  : pyval :=
  match out with
  | inl (_, s) => s
  | inr (bound, _) => bound
  end.

(** What the rest of the program may assume of the rules module
    (spec, sections 3, 6 and 7): boards have their 64 squares, a finished
    game is finished for one of the four reasons the terminal evaluator
    knows, a checkmate finishes the game, a move passes the turn, and no
    static evaluation exceeds the forced-win magnitude. *)
Record Contract : Prop := {
  c_king : 0 <= PIECE_VALUES KING;
  c_board : forall g,
    (64 <= List.length (board g))%nat
    /\ (64 <= List.length (flip_board_v (board g)))%nat;
  c_reason : forall g,
    game_ended g = true ->
    is_checkmate g (to_move g) || is_stalemate g
    || has_insufficient_material g || is_under_75_move_rule g = true;
  c_mate_ends : forall g,
    is_checkmate g (to_move g) = true -> game_ended g = true;
  c_flip : forall g m,
    to_move (make_move g m) = opposing_color (to_move g);
  c_bound : forall g z,
    game_ended g = false ->
    evaluate_game g = Ok (PInt z) -> - sentinel <= z <= sentinel
}.

(** The positions a search visits, [node g c] reading "the search is
    asked to move for [c] in [g]": closed under the moves of the searching
    colour, never without a move unless the game has ended, and a move
    never leaves its own side checkmated. *)
Record SearchTree (node : Game -> Color -> Prop) : Prop := {
  st_step : forall g c m,
    node g c -> In m (legal_moves g c) ->
    node (make_move g m) (opposing_color c);
  st_moves : forall g c,
    node g c -> game_ended g = false -> legal_moves g c <> [];
  st_self : forall g c m,
    node g c -> In m (legal_moves g c) ->
    is_checkmate (make_move g m) c = false
}.

End Statements.

(* ================================================================= *)
(** ** Further definitions: variants of the rules, the book's test     *)
(* ================================================================= *)

(** The same rules with another board accessor and other answers to
    [game_ended] and [is_stalemate]. *)
Definition with_overrides {Game : Type} (R : Rules Game)
           (board' : Game -> Board) (ended stalemate : Game -> bool)
  : Rules Game :=
  {| board := board';
     to_move := to_move;
     position_history := position_history;
     get_move_list := get_move_list;
     legal_moves := legal_moves;
     count_legal_moves := count_legal_moves;
     make_move := make_move;
     game_ended := ended;
     is_checkmate := is_checkmate;
     is_stalemate := stalemate;
     has_insufficient_material := has_insufficient_material;
     is_under_75_move_rule := is_under_75_move_rule;
     material_sum := material_sum;
     flip_board_v := flip_board_v;
     is_open_file := is_open_file;
     is_semi_open_file := is_semi_open_file;
     is_endgame := is_endgame;
     str2bb := str2bb;
     color_code := color_code;
     EMPTY := EMPTY;
     COLOR_MASK := COLOR_MASK;
     PIECE_MASK := PIECE_MASK;
     PAWN := PAWN;
     KNIGHT := KNIGHT;
     BISHOP := BISHOP;
     ROOK := ROOK;
     KING := KING;
     PIECE_VALUES := PIECE_VALUES;
     PAWN_BONUS := PAWN_BONUS;
     KNIGHT_BONUS := KNIGHT_BONUS;
     BISHOP_BONUS := BISHOP_BONUS;
     KING_BONUS := KING_BONUS;
     KING_ENDGAME_BONUS := KING_ENDGAME_BONUS;
     ROOK_OPEN_FILE_BONUS := ROOK_OPEN_FILE_BONUS;
     ROOK_SEMI_OPEN_FILE_BONUS := ROOK_SEMI_OPEN_FILE_BONUS;
     ROOK_ON_SEVENTH_BONUS := ROOK_ON_SEVENTH_BONUS;
     RANK_7 := RANK_7;
     INITIAL_FEN := INITIAL_FEN;
     book_txt := book_txt;
     verbose := verbose |}.

(** The same rules with another setting of [verbose]. *)
Definition with_verbose {Game : Type} (R : Rules Game) (v : bool)
  : Rules Game :=
  {| board := board;
     to_move := to_move;
     position_history := position_history;
     get_move_list := get_move_list;
     legal_moves := legal_moves;
     count_legal_moves := count_legal_moves;
     make_move := make_move;
     game_ended := game_ended;
     is_checkmate := is_checkmate;
     is_stalemate := is_stalemate;
     has_insufficient_material := has_insufficient_material;
     is_under_75_move_rule := is_under_75_move_rule;
     material_sum := material_sum;
     flip_board_v := flip_board_v;
     is_open_file := is_open_file;
     is_semi_open_file := is_semi_open_file;
     is_endgame := is_endgame;
     str2bb := str2bb;
     color_code := color_code;
     EMPTY := EMPTY;
     COLOR_MASK := COLOR_MASK;
     PIECE_MASK := PIECE_MASK;
     PAWN := PAWN;
     KNIGHT := KNIGHT;
     BISHOP := BISHOP;
     ROOK := ROOK;
     KING := KING;
     PIECE_VALUES := PIECE_VALUES;
     PAWN_BONUS := PAWN_BONUS;
     KNIGHT_BONUS := KNIGHT_BONUS;
     BISHOP_BONUS := BISHOP_BONUS;
     KING_BONUS := KING_BONUS;
     KING_ENDGAME_BONUS := KING_ENDGAME_BONUS;
     ROOK_OPEN_FILE_BONUS := ROOK_OPEN_FILE_BONUS;
     ROOK_SEMI_OPEN_FILE_BONUS := ROOK_SEMI_OPEN_FILE_BONUS;
     ROOK_ON_SEVENTH_BONUS := ROOK_ON_SEVENTH_BONUS;
     RANK_7 := RANK_7;
     INITIAL_FEN := INITIAL_FEN;
     book_txt := book_txt;
     verbose := v |}.

(** Rules modules that break the contract, each in one way. *)
Module Broken.

(** The subtraction game on boards cut down to ten squares. *)
Definition short_board : Rules Toy.Game :=
  with_overrides Toy.rules
                 (fun g => firstn 10 (@board _ Toy.rules g))
                 (@game_ended _ Toy.rules) (@is_stalemate _ Toy.rules).

(** The subtraction game in which a pile of five ends the game for no
    reason the terminal evaluator knows. *)
Definition unexplained_end : Rules Toy.Game :=
  with_overrides Toy.rules (@board _ Toy.rules)
                 (@game_ended _ Toy.rules) (fun _ => false).

(** The subtraction game in which a pile of five has no move and yet is
    not an ended game. *)
Definition stuck : Rules Toy.Game :=
  with_overrides Toy.rules (@board _ Toy.rules)
                 (fun g => Nat.eqb (Toy.stones g) 0)
                 (@is_stalemate _ Toy.rules).

End Broken.

Section FurtherDefinitions.
Context {Game : Type} {R : Rules Game}.

(** The test of the loop of [find_in_book]. *)
Definition book_line_matches (move_list line : PyStr.str) : bool :=
  PyStr.startswith line move_list
  && PyStr.gt (PyStr.rstrip line) move_list.

(** The move [get_book_move] decodes from the opening it chose. *)
Definition book_move_of (move_list opening : PyStr.str) : Move :=
  let move_str :=
    PyStr.first_field (PyStr.lstrip (PyStr.remove opening move_list)) in
  (str2bb (PyStr.first_two move_str), str2bb (PyStr.last_two move_str)).

(** A square of the scanned board that [positional_bonus] scores: it
    holds a piece of the evaluated colour whose kind has a bonus. *)
Definition scored_square (b : Board) (color : Color) (index : nat) : bool :=
  match nth_error b index with
  | None => false
  | Some piece =>
      negb (piece =? EMPTY)
      && (Z.land piece COLOR_MASK =? color_code color)
      && ((Z.land piece PIECE_MASK =? PAWN)
          || (Z.land piece PIECE_MASK =? KNIGHT)
          || (Z.land piece PIECE_MASK =? BISHOP)
          || (Z.land piece PIECE_MASK =? ROOK)
          || (Z.land piece PIECE_MASK =? KING))
  end.

(** The moves of a list whose successor evaluates to [b]. *)
Definition ties_at (game : Game) (b : Z) (moves : list Move) : list Move :=
  filter (fun m => ev (make_move game m) =? b) moves.


(** [old in s]: some suffix of [s] starts with [old]. *)
Fixpoint occurs_in (old s : PyStr.str) : bool :=
  PyStr.prefix old s
  || match s with
     | [] => false
     | _ :: s' => occurs_in old s'
     end.

(** No character of [s] is white space. *)
Fixpoint no_blank (s : PyStr.str) : bool :=
  match s with
  | [] => true
  | c :: s' => negb (PyStr.is_space c) && no_blank s'
  end.

End FurtherDefinitions.

(* ================================================================= *)
(** ** Reasoning about the monads and the loops                       *)
(* ================================================================= *)

Lemma bind_Ok {A B} (c : M A) (k : A -> M B) rng b rng' :
  bind c k rng = Ok (b, rng') ->
  exists a rng1, c rng = Ok (a, rng1) /\ k a rng1 = Ok (b, rng').
Proof.
  unfold bind. destruct (c rng) as [[a r1]|e]; [eauto | discriminate].
Qed.

Lemma bind_run {A B} (c : M A) (k : A -> M B) rng a rng1 :
  c rng = Ok (a, rng1) -> bind c k rng = k a rng1.
Proof. unfold bind. intros ->. reflexivity. Qed.

Lemma lift_Ok {A} (c : res A) rng a rng' :
  lift c rng = Ok (a, rng') -> c = Ok a /\ rng' = rng.
Proof.
  unfold lift. destruct c; [|discriminate].
  intros H. inversion H. auto.
Qed.

Lemma lift_run {A} (c : res A) a rng : c = Ok a -> lift c rng = Ok (a, rng).
Proof. intros ->. reflexivity. Qed.

Lemma ret_Ok {A} (a b : A) rng rng' :
  ret a rng = Ok (b, rng') -> b = a /\ rng' = rng.
Proof. unfold ret. intros H. inversion H. auto. Qed.

Lemma choice_In {A} (l : list A) rng x rng' :
  choice l rng = Ok (x, rng') -> In x l.
Proof.
  unfold choice. destruct l as [|a l]; [discriminate|].
  intros H.
  assert (Hx : x = nth (Nat.modulo (rng 0%nat) (List.length (a :: l)))
                       (a :: l) a) by congruence.
  rewrite Hx. apply nth_In.
  apply Nat.mod_upper_bound. discriminate.
Qed.

Lemma choice_total {A} (l : list A) rng :
  l <> [] -> exists x rng', choice l rng = Ok (x, rng') /\ In x l.
Proof.
  intros Hl. destruct l as [|a l]; [congruence|].
  eexists _, _. split; [reflexivity|].
  apply nth_In. apply Nat.mod_upper_bound. discriminate.
Qed.

(** Every failing step of a run is inverted by [run_inv]. *)
Ltac run_inv :=
  repeat match goal with
    | H : bind _ _ _ = Ok _ |- _ =>
        let a := fresh "a" in
        let r := fresh "rng" in
        let H1 := fresh "Hrun" in
        let H2 := fresh "Hrun" in
        apply bind_Ok in H; destruct H as (a & r & H1 & H2)
    | H : lift _ _ = Ok _ |- _ =>
        let H1 := fresh "Hval" in
        apply lift_Ok in H; destruct H as [H1 ->]
    | H : ret _ _ = Ok _ |- _ =>
        let H1 := fresh "Hret" in
        apply ret_Ok in H; destruct H as [H1 ->]
    | H : raise _ _ = Ok _ |- _ => discriminate H
    end.

(** A loop invariant for [for_each]: if every iteration over an element
    satisfying [P] keeps [I] or returns a value satisfying [Q], so does the
    loop. *)
Lemma for_each_invariant {X Rt S} (body : S -> X -> M (flow Rt S))
      (P : X -> Prop) (I : S -> Prop) (Q : Rt -> Prop) :
  (forall s x rng c rng',
      P x -> I s -> body s x rng = Ok (c, rng') ->
      match c with
      | Next s' | Broke s' => I s'
      | Returned r => Q r
      end) ->
  forall xs s rng out rng',
    Forall P xs -> I s ->
    for_each body xs s rng = Ok (out, rng') ->
    match out with
    | inl r => Q r
    | inr s' => I s'
    end.
Proof.
  intros Hbody xs. induction xs as [|x xs IH]; intros s rng out rng' HP HI Hrun.
  - simpl in Hrun. apply ret_Ok in Hrun. destruct Hrun as [-> _]. exact HI.
  - simpl in Hrun. apply bind_Ok in Hrun.
    destruct Hrun as (c & rng1 & Hc & Hk).
    pose proof (Forall_inv HP) as Hx.
    pose proof (Forall_inv_tail HP) as Hxs.
    specialize (Hbody _ _ _ _ _ Hx HI Hc).
    destruct c as [s'|s'|r].
    + exact (IH _ _ _ _ Hxs Hbody Hk).
    + apply ret_Ok in Hk. destruct Hk as [-> _]. exact Hbody.
    + apply ret_Ok in Hk. destruct Hk as [-> _]. exact Hbody.
Qed.

(* ================================================================= *)
(** ** The evaluator                                                  *)
(* ================================================================= *)

Section EvaluatorFacts.
Context {Game : Type} {R : Rules Game}.

(** C4. On a finished game the evaluation is that of the terminal
    evaluator: [win_score] of the side to move when that side is
    checkmated, with [win_score WHITE = -10 * king] and
    [win_score BLACK = 10 * king], and exactly 0 when the game ended,
    without checkmate, by stalemate, insufficient material or the
    75-move rule. *)
Theorem evaluate_end_node_scores (game : Game) :
  game_ended game = true ->
  evaluate_game game = Ok (evaluate_end_node game)
  /\ win_score WHITE = PInt (-10 * PIECE_VALUES KING)
  /\ win_score BLACK = PInt (10 * PIECE_VALUES KING)
  /\ (is_checkmate game (to_move game) = true ->
      evaluate_end_node game = win_score (to_move game))
  /\ (is_checkmate game (to_move game) = false ->
      is_stalemate game = true
      \/ has_insufficient_material game = true
      \/ is_under_75_move_rule game = true ->
      evaluate_end_node game = PInt 0).
Proof.
  intros Hend. unfold evaluate_game, evaluate_end_node. rewrite Hend.
  repeat split.
  - intros ->. reflexivity.
  - intros -> [-> | [-> | ->]];
      rewrite ?orb_true_r; reflexivity.
Qed.

(** The loop body adds the square's bonus to the running total. *)
Lemma positional_bonus_body_adds (b : Board) color bonus index :
  (index < List.length b)%nat ->
  positional_bonus_body b color bonus index
  = Ok (bonus + square_bonus b color index).
Proof.
  intros Hlen. unfold square_bonus, positional_bonus_body.
  destruct (nth_error b index) as [piece|] eqn:Hnth.
  - repeat match goal with
           | |- context [if ?c then _ else _] => destruct c
           end; cbn; f_equal; lia.
  - apply nth_error_None in Hnth. exfalso. lia.
Qed.

Lemma for_range_sum (b : Board) color (xs : list nat) bonus :
  Forall (fun i => (i < List.length b)%nat) xs ->
  for_range (positional_bonus_body b color) xs bonus
  = Ok (bonus + fold_right Z.add 0 (map (square_bonus b color) xs)).
Proof.
  revert bonus. induction xs as [|x xs IH]; intros bonus Hall.
  - simpl. f_equal. lia.
  - simpl. rewrite positional_bonus_body_adds by exact (Forall_inv Hall).
    simpl. rewrite IH by exact (Forall_inv_tail Hall). f_equal. lia.
Qed.

(** On a board of 64 squares [positional_bonus] succeeds and is the sum
    of the bonuses of the squares. *)
Lemma positional_bonus_sum (game : Game) color :
  (64 <= List.length (oriented_board game color))%nat ->
  positional_bonus game color
  = Ok (fold_right Z.add 0
          (map (square_bonus (oriented_board game color) color)
               (seq 0 64))).
Proof.
  intros Hlen. unfold positional_bonus. rewrite for_range_sum.
  - f_equal.
  - apply Forall_forall. intros i Hi. apply in_seq in Hi. lia.
Qed.

(** C9. [positional_bonus] scans the game's board for White and its
    vertical mirror for Black; on that board it is the sum of the
    squares' bonuses, and a rook of the evaluated colour adds a file
    bonus, which is the open-file bonus when the file is open, else the
    semi-open-file bonus when the file is semi-open, else nothing (never
    both), plus a rank bonus, which is the seventh-rank bonus exactly
    when the rook's square meets [RANK_7] on the scanned board. *)
Theorem rook_positional_bonus (game : Game) (color : Color) :
  let b := oriented_board game color in
  b = match color with
      | WHITE => board game
      | BLACK => flip_board_v (board game)
      end
  /\ ((64 <= List.length b)%nat ->
      positional_bonus game color
      = Ok (fold_right Z.add 0 (map (square_bonus b color) (seq 0 64))))
  /\ forall index piece,
      nth_error b index = Some piece ->
      is_piece piece color ROOK ->
      ROOK <> PAWN -> ROOK <> KNIGHT -> ROOK <> BISHOP ->
      let position := Z.shiftl 1 (Z.of_nat index) in
      exists file_bonus rank_bonus,
        square_bonus b color index = file_bonus + rank_bonus
        /\ (is_open_file position b = true ->
            file_bonus = ROOK_OPEN_FILE_BONUS)
        /\ (is_open_file position b = false ->
            is_semi_open_file position b = true ->
            file_bonus = ROOK_SEMI_OPEN_FILE_BONUS)
        /\ (is_open_file position b = false ->
            is_semi_open_file position b = false ->
            file_bonus = 0)
        /\ (Z.land position RANK_7 <> 0 ->
            rank_bonus = ROOK_ON_SEVENTH_BONUS)
        /\ (Z.land position RANK_7 = 0 -> rank_bonus = 0).
Proof.
  intros b. split; [destruct color; reflexivity|].
  split; [apply positional_bonus_sum|].
  intros index piece Hnth (Hne & Hcol & Hkind) Hp Hk Hb position.
  unfold square_bonus, positional_bonus_body. rewrite Hnth.
  apply Z.eqb_neq in Hne, Hp, Hk, Hb.
  rewrite Hne, Hcol, Hkind, Z.eqb_refl, Hp, Hk, Hb, Z.eqb_refl. simpl.
  fold position.
  exists (if is_open_file position b then ROOK_OPEN_FILE_BONUS
          else if is_semi_open_file position b
               then ROOK_SEMI_OPEN_FILE_BONUS else 0),
         (if Z.land position RANK_7 =? 0
          then 0 else ROOK_ON_SEVENTH_BONUS).
  repeat split.
  - destruct (is_open_file position b), (is_semi_open_file position b),
      (Z.land position RANK_7 =? 0); simpl; lia.
  - intros ->. reflexivity.
  - intros -> ->. reflexivity.
  - intros -> ->. reflexivity.
  - intros Hr. apply Z.eqb_neq in Hr. rewrite Hr. reflexivity.
  - intros ->. reflexivity.
Qed.

End EvaluatorFacts.

(** C5. On a game that has not ended, [evaluate_game] is the material
    balance plus the positional balance, White's value minus Black's in
    each, and it does not depend on [count_legal_moves]: the mobility
    balance contributes nothing. *)
Theorem evaluate_game_material_plus_positional
        {Game : Type} (R : Rules Game) (game : Game) :
  game_ended game = false ->
  evaluate_game game
  = (p <-- positional_balance game ;;
     Ok (PInt (material_balance (board game) + p)))
  /\ (forall w b,
         positional_bonus game WHITE = Ok w ->
         positional_bonus game BLACK = Ok b ->
         evaluate_game game
         = Ok (PInt (material_sum (board game) WHITE
                     - material_sum (board game) BLACK + (w - b))))
  /\ (forall count : Game -> Color -> Z,
         @evaluate_game Game (with_count_legal_moves R count) game
         = @evaluate_game Game R game).
Proof.
  intros Hend. split; [|split].
  - unfold evaluate_game. rewrite Hend. reflexivity.
  - intros w b Hw Hb. unfold evaluate_game, positional_balance.
    rewrite Hend, Hw, Hb. reflexivity.
  - intros count. reflexivity.
Qed.

(* ================================================================= *)
(** ** Structure of the searches                                      *)
(* ================================================================= *)

Section SearchStructure.
Context {Game : Type} {R : Rules Game}.

(** [track_best] never returns or breaks, draws no random number, and
    its tie list holds only old entries and the current move. *)
Lemma track_best_Ok {X} color move evaluation best_score best_moves
      rng (c : flow X _) rng' :
  track_best color move evaluation best_score best_moves rng
  = Ok (c, rng') ->
  rng' = rng
  /\ exists bs bm,
      c = Next (bs, bm)
      /\ forall m, In m bm -> m = move \/ In m best_moves.
Proof.
  unfold track_best. intros H. run_inv.
  destruct a.
  - run_inv. subst c. split; [reflexivity|]. eexists _, _.
    split; [reflexivity|]. intros m [<-|[]]. auto.
  - destruct (py_eq evaluation best_score); run_inv; subst c;
      (split; [reflexivity|]); eexists _, _; (split; [reflexivity|]).
    + intros m Hm. apply in_app_or in Hm. destruct Hm as [|[<-|[]]]; auto.
    + auto.
Qed.

Ltac track_inv :=
  match goal with
  | H : track_best _ _ _ _ _ _ = Ok _ |- _ =>
      let bs := fresh "bs'" in
      let bm := fresh "bm'" in
      apply track_best_Ok in H;
      destruct H as (_ & bs & bm & -> & Hsub)
  end.

Lemma evaluated_move_legal game color rng m s rng' :
  evaluated_move game color rng = Ok ((m, s), rng') ->
  In m (legal_moves game color).
Proof.
  unfold evaluated_move. intros H. run_inv.
  assert (Hinv :
            match a with
            | inl r => In (fst r) (legal_moves game color)
            | inr st => legal_tie_list game color st
            end).
  { match goal with
    | H : for_each _ _ _ _ = Ok _ |- _ =>
        eapply (for_each_invariant
                  (evaluated_move_body game color)
                  (fun x => In x (legal_moves game color))
                  (legal_tie_list game color)
                  (fun r => In (fst r) (legal_moves game color)))
          in H;
        [ exact H | clear H
          | apply Forall_forall; intros x Hx; exact Hx
          | intros x Hx0; simpl in Hx0; contradiction ]
    end.
    intros [bs bm] x r1 c r2 Hx HI Hbody.
    unfold evaluated_move_body in Hbody. run_inv.
    destruct (is_checkmate _ _).
    - run_inv. subst c. exact Hx.
    - track_inv. intros m' Hm'.
      destruct (Hsub _ Hm') as [->|Hold]; auto. }
  destruct a as [[m0 s0]|[bs bm]]; run_inv.
  - match goal with H : (_, _) = (_, _) |- _ => inversion H; subst end.
    exact Hinv.
  - match goal with H : (_, _) = (_, _) |- _ => inversion H; subst end.
    apply Hinv. eapply choice_In. eassumption.
Qed.

Lemma alpha_beta_result_legal game color bound best_moves rng r rng' :
  (forall m, In m best_moves -> In m (legal_moves game color)) ->
  alpha_beta_result bound best_moves rng = Ok (r, rng') ->
  legal_or_none game color r.
Proof.
  intros Hsub H. unfold alpha_beta_result in H.
  destruct best_moves as [|m0 l].
  - run_inv. subst r. intros m Hm. discriminate.
  - run_inv. subst r. intros m Hm. simpl in Hm. inversion Hm. subst.
    apply Hsub. eapply choice_In. eassumption.
Qed.

Lemma minimax_legal fuel : forall game color depth rng r rng',
  minimax fuel game color depth rng = Ok (r, rng') ->
  legal_or_none game color r.
Proof.
  destruct fuel as [|fuel]; intros game color depth rng r rng' H;
    [discriminate|].
  simpl in H. destruct (game_ended game).
  { run_inv. subst r. intros m Hm. discriminate. }
  run_inv. destruct a as [simple_move simple_evaluation].
  destruct ((depth =? 1) || _).
  { run_inv. subst r. intros m Hm. simpl in Hm. inversion Hm. subst.
    eapply evaluated_move_legal. eassumption. }
  run_inv.
  assert (Hinv :
            match a with
            | inl r => legal_or_none game color r
            | inr st => legal_tie_list game color st
            end).
  { match goal with
    | H : for_each _ _ _ _ = Ok _ |- _ =>
        eapply (for_each_invariant
                  (minimax_body (minimax fuel) game color depth)
                  (fun x => In x (legal_moves game color))
                  (legal_tie_list game color)
                  (legal_or_none game color))
          in H;
        [ exact H | clear H
          | apply Forall_forall; intros x Hx; exact Hx
          | intros x Hx0; simpl in Hx0; contradiction ]
    end.
    intros [bs bm] x r1 c r2 Hx HI Hbody.
    unfold minimax_body in Hbody.
    destruct (is_checkmate _ _).
    - run_inv. subst c. intros m Hm. simpl in Hm. inversion Hm.
      subst. exact Hx.
    - run_inv. destruct a0 as [mv evaluation].
      destruct (py_eq evaluation _).
      + run_inv. subst c. intros m Hm. simpl in Hm. inversion Hm.
        subst. exact Hx.
      + track_inv. intros m' Hm'.
        destruct (Hsub _ Hm') as [->|Hold]; auto. }
  destruct a as [r0|[bs bm]].
  - run_inv. subst r. exact Hinv.
  - run_inv. subst r. intros m Hm. simpl in Hm. inversion Hm. subst.
    apply Hinv. eapply choice_In. eassumption.
Qed.

(** Both loop bodies of [alpha_beta] return the current move or keep in
    the tie list old entries and the current move only. *)
Lemma alpha_beta_body_legal
      (body : _ -> Game -> Color -> Z -> pyval -> pyval * list Move
              -> Move -> M (flow (option Move * pyval) _))
      rec game color depth bound :
  body = alpha_beta_white_body \/ body = alpha_beta_black_body ->
  forall s x rng c rng',
    In x (legal_moves game color) ->
    legal_tie_list game color s ->
    body rec game color depth bound s x rng = Ok (c, rng') ->
    match c with
    | Next s' | Broke s' => legal_tie_list game color s'
    | Returned r => legal_or_none game color r
    end.
Proof.
  intros Hbody [b bm] x rng c rng' Hx HI H.
  assert (Hone : legal_tie_list game color (b, [x]))
    by (intros m [<-|[]]; exact Hx).
  assert (Hone' : forall v, legal_tie_list game color (v, [x]))
    by (intros v m [<-|[]]; exact Hx).
  assert (Happ : forall v (t : bool),
             legal_tie_list game color
               (v, if t then bm ++ [x] else bm)).
  { intros v t m Hm. simpl in Hm. destruct t; [|apply HI; exact Hm].
    apply in_app_or in Hm. destruct Hm as [Hm|[<-|[]]]; auto. }
  destruct Hbody; subst body;
    unfold alpha_beta_white_body, alpha_beta_black_body in H;
    run_inv;
    match goal with p : (option Move * pyval)%type |- _ => destruct p end;
    (destruct (py_eq _ (win_score _));
     [ run_inv; subst c; intros m Hm; simpl in Hm; inversion Hm; subst;
       exact Hx | ]);
    run_inv;
    match goal with t : bool |- _ => destruct t end;
    run_inv;
    try match goal with t : bool |- _ => destruct t end;
    run_inv; subst c; auto.
Qed.

Lemma alpha_beta_legal fuel : forall game color depth alpha beta rng r rng',
  alpha_beta fuel game color depth alpha beta rng = Ok (r, rng') ->
  legal_or_none game color r.
Proof.
  destruct fuel as [|fuel]; intros game color depth alpha beta rng r rng' H;
    [discriminate|].
  simpl in H. destruct (game_ended game).
  { run_inv. subst r. intros m Hm. discriminate. }
  run_inv. destruct a as [simple_move simple_evaluation].
  destruct ((depth =? 1) || _).
  { run_inv. subst r. intros m Hm. simpl in Hm. inversion Hm. subst.
    eapply evaluated_move_legal. eassumption. }
  destruct color; run_inv;
    match goal with
    | H : for_each (?body ?rec ?g ?c ?d ?b) _ _ _ = Ok _ |- _ =>
        eapply (for_each_invariant
                  (body rec g c d b)
                  (fun x => In x (legal_moves g c))
                  (legal_tie_list g c)
                  (legal_or_none g c))
          in H;
        [ | apply alpha_beta_body_legal; auto
          | apply Forall_forall; intros x Hx; exact Hx
          | intros x Hx0; simpl in Hx0; contradiction ]
    end;
    match goal with
    | H : match ?a with inl _ => _ | inr _ => _ end |- _ =>
        destruct a as [r0|[bd bm]]
    end;
    run_inv; subst; auto;
    eapply alpha_beta_result_legal; eauto.
Qed.

(** C10. A move returned by [evaluated_move], or a move other than
    [None] returned by [minimax] or [alpha_beta], is one of the legal
    moves of the game and colour the function was called on. *)
Theorem returned_move_is_legal :
  (forall game color rng m s rng',
      evaluated_move game color rng = Ok ((m, s), rng') ->
      In m (legal_moves game color))
  /\ (forall fuel game color depth rng m s rng',
        minimax fuel game color depth rng = Ok ((Some m, s), rng') ->
        In m (legal_moves game color))
  /\ (forall fuel game color depth alpha beta rng m s rng',
        alpha_beta fuel game color depth alpha beta rng
        = Ok ((Some m, s), rng') ->
        In m (legal_moves game color)).
Proof.
  split; [|split].
  - intros. eapply evaluated_move_legal. eassumption.
  - intros fuel game color depth rng m s rng' H.
    apply minimax_legal in H. apply H. reflexivity.
  - intros fuel game color depth alpha beta rng m s rng' H.
    apply alpha_beta_legal in H. apply H. reflexivity.
Qed.

(** C8. On a game that has not ended, when the depth is 1 or the
    single-ply evaluation equals [win_score] of the opponent, [minimax]
    returns the very pair [evaluated_move] produced, leaving the random
    generator as [evaluated_move] left it; one unit of fuel is enough, so
    no recursive call is made. *)
Theorem minimax_single_ply fuel game color depth rng m s rng' :
  game_ended game = false ->
  evaluated_move game color rng = Ok ((m, s), rng') ->
  depth = 1 \/ py_eq s (win_score (opposing_color color)) = true ->
  minimax (S fuel) game color depth rng = Ok ((Some m, s), rng')
  /\ minimax 1 game color depth rng = Ok ((Some m, s), rng').
Proof.
  intros Hend Hem Hcond.
  assert (Htest : (depth =? 1)
                  || py_eq s (win_score (opposing_color color)) = true).
  { destruct Hcond as [->| ->]; [reflexivity | apply orb_true_r]. }
  split; simpl; rewrite Hend; rewrite (bind_run _ _ _ _ _ Hem);
    rewrite Htest; reflexivity.
Qed.

(** A [break] ends the loop at once, whatever moves remain. *)
Lemma for_each_break {X Rt S} (body : S -> X -> M (flow Rt S))
      x rest s rng s' rng' :
  body s x rng = Ok (Broke s', rng') ->
  for_each body (x :: rest) s rng = Ok (inr s', rng').
Proof. intros H. simpl. rewrite (bind_run _ _ _ _ _ H). reflexivity. Qed.

(** C7 (amended: the loop is entered with [alpha > beta] false).  In
    the loops of [alpha_beta] (entered on a game that has not ended, when
    neither the depth is 1 nor a mate in one was found): an iteration of
    the White loop leaves [alpha] unchanged or strictly greater, an
    iteration of the Black loop leaves [beta] unchanged or strictly
    smaller; an iteration that starts with [alpha > beta] false and does
    not break ends with [alpha > beta] false, and one that breaks ends
    with [alpha > beta] true; and a [break] ends the loop whatever moves
    remain, even for a recursive call that differs on every other
    position, so that no remaining move is explored.  The cutoff is
    tested only where a bound has just moved: a call entered with
    [alpha > beta] already true is outside the statement. *)
Theorem alpha_beta_window_monotone
        (rec : Game -> Color -> Z -> pyval -> pyval
               -> M (option Move * pyval))
        (game : Game) (color : Color) (depth : Z) :
  (* the loops below are the loops of the call *)
  (forall fuel alpha beta rng m s rng1,
      game_ended game = false ->
      evaluated_move game color rng = Ok ((m, s), rng1) ->
      (depth =? 1) || py_eq s (win_score (opposing_color color)) = false ->
      alpha_beta (S fuel) game color depth alpha beta rng
      = match color with
        | WHITE =>
            bind (for_each (alpha_beta_white_body (alpha_beta fuel)
                                                  game color depth beta)
                           (legal_moves game color) (alpha, []))
                 (fun out => match out with
                             | inl r => ret r
                             | inr (a, bm) => alpha_beta_result a bm
                             end) rng1
        | BLACK =>
            bind (for_each (alpha_beta_black_body (alpha_beta fuel)
                                                  game color depth alpha)
                           (legal_moves game color) (beta, []))
                 (fun out => match out with
                             | inl r => ret r
                             | inr (b, bm) => alpha_beta_result b bm
                             end) rng1
        end)
  (* White: alpha never decreases, and the cutoff test decides *)
  /\ (forall beta alpha bm move rng c rng',
         alpha_beta_white_body rec game color depth beta
                               (alpha, bm) move rng = Ok (c, rng') ->
         match c with
         | Next (alpha', _) =>
             (alpha' = alpha \/ py_gt alpha' alpha = Ok true)
             /\ (py_gt alpha beta = Ok false ->
                 py_gt alpha' beta = Ok false)
         | Broke (alpha', _) =>
             py_gt alpha' alpha = Ok true /\ py_gt alpha' beta = Ok true
         | Returned _ => True
         end)
  (* Black: beta never increases, and the cutoff test decides *)
  /\ (forall alpha beta bm move rng c rng',
         alpha_beta_black_body rec game color depth alpha
                               (beta, bm) move rng = Ok (c, rng') ->
         match c with
         | Next (beta', _) =>
             (beta' = beta \/ py_lt beta' beta = Ok true)
             /\ (py_gt alpha beta = Ok false ->
                 py_gt alpha beta' = Ok false)
         | Broke (beta', _) =>
             py_lt beta' beta = Ok true /\ py_gt alpha beta' = Ok true
         | Returned _ => True
         end)
  (* after a break nothing more is explored *)
  /\ (forall body bound st move rest rng st' rng' rec',
         body = alpha_beta_white_body \/ body = alpha_beta_black_body ->
         body rec game color depth bound st move rng
         = Ok (Broke st', rng') ->
         (forall c d a b r,
             rec' (make_move game move) c d a b r
             = rec (make_move game move) c d a b r) ->
         for_each (body rec' game color depth bound)
                  (move :: rest) st rng
         = Ok (inr st', rng')).
Proof.
  split; [|split; [|split]].
  - intros fuel alpha beta rng m s rng1 Hend Hem Htest.
    simpl. rewrite Hend. rewrite (bind_run _ _ _ _ _ Hem).
    rewrite Htest. destruct color; reflexivity.
  - intros beta alpha bm move rng c rng' H.
    unfold alpha_beta_white_body in H. run_inv.
    match goal with p : (option Move * pyval)%type |- _ =>
                      destruct p as [mv score] end.
    destruct (py_eq score (win_score _)); run_inv; [subst c; exact I|].
    match goal with
    | Hh : py_gt score alpha = Ok ?t |- _ => destruct t
    end; run_inv.
    + match goal with
      | Hc : py_gt score beta = Ok ?t |- _ => destruct t
      end; run_inv; subst c; auto.
    + subst c. auto.
  - intros alpha beta bm move rng c rng' H.
    unfold alpha_beta_black_body in H. run_inv.
    match goal with p : (option Move * pyval)%type |- _ =>
                      destruct p as [mv score] end.
    destruct (py_eq score (win_score _)); run_inv; [subst c; exact I|].
    match goal with
    | Hh : py_lt score beta = Ok ?t |- _ => destruct t
    end; run_inv.
    + match goal with
      | Hc : py_gt alpha score = Ok ?t |- _ => destruct t
      end; run_inv; subst c; auto.
    + subst c. auto.
  - intros body bound st move rest rng st' rng' rec' Hbody Hrun Hrec.
    apply for_each_break. rewrite <- Hrun.
    destruct st as [b bm].
    destruct Hbody; subst body;
      unfold alpha_beta_white_body, alpha_beta_black_body, bind;
      rewrite Hrec; reflexivity.
Qed.

End SearchStructure.

(* ================================================================= *)
(** ** The driver and the opening book                                *)
(* ================================================================= *)

Section DriverFacts.
Context {Game : Type} {R : Rules Game}.

(** C3 (as the code behaves). With [use_book] set, when [find_in_book]
    answers [False] or an empty list, [get_AI_move] assigns no move and
    raises [UnboundLocalError]; the search is not consulted. *)
Theorem get_AI_move_book_miss fuel game depth rng found :
  find_in_book game = Ok found ->
  truthy found = false ->
  get_AI_move fuel game depth true rng = Raise UnboundLocalError.
Proof.
  intros Hfind Hfalse. unfold get_AI_move.
  unfold bind at 1. unfold bind at 1.
  rewrite (lift_run _ _ rng Hfind). rewrite Hfalse. reflexivity.
Qed.

End DriverFacts.

(* ================================================================= *)
(** ** The single-ply ranker under the contract                       *)
(* ================================================================= *)

Section RankerFacts.
Context {Game : Type} {R : Rules Game}.
Hypothesis HC : Contract.

Lemma sentinel_nonneg : 0 <= sentinel.
Proof. unfold sentinel. pose proof (c_king HC). lia. Qed.

Lemma win_score_int color : win_score color = PInt (wown color).
Proof.
  destruct color; unfold win_score, wown, sentinel; f_equal; lia.
Qed.

Lemma wown_range color : - sentinel <= wown color <= sentinel.
Proof. pose proof sentinel_nonneg. destruct color; simpl; lia. Qed.

Lemma wopp_range color : - sentinel <= wopp color <= sentinel.
Proof. apply wown_range. Qed.

(** Every evaluation succeeds with an integer within the sentinels. *)
Lemma evaluate_game_int g :
  evaluate_game g = Ok (PInt (ev g)) /\ - sentinel <= ev g <= sentinel.
Proof.
  assert (H : exists z, evaluate_game g = Ok (PInt z)
                        /\ - sentinel <= z <= sentinel).
  { destruct (game_ended g) eqn:Hend.
    - pose proof (c_reason HC g Hend) as Hwhy.
      unfold evaluate_game, evaluate_end_node. rewrite Hend.
      destruct (is_checkmate g (to_move g)).
      + rewrite win_score_int. eexists. split; [reflexivity|].
        apply wown_range.
      + simpl in Hwhy. rewrite Hwhy. exists 0. split; [reflexivity|].
        pose proof sentinel_nonneg. lia.
    - destruct (c_board HC g) as [Hw Hb].
      pose proof (positional_bonus_sum g WHITE Hw) as Ew.
      pose proof (positional_bonus_sum g BLACK Hb) as Eb.
      assert (E : exists z, evaluate_game g = Ok (PInt z)).
      { unfold evaluate_game, positional_balance.
        rewrite Hend, Ew, Eb. simpl. eexists. reflexivity. }
      destruct E as [z E]. exists z. split; [exact E|].
      exact (c_bound HC g z Hend E). }
  destruct H as (z & E & Hz). unfold ev. rewrite E. auto.
Qed.

Lemma ev_range g : - sentinel <= ev g <= sentinel.
Proof. apply evaluate_game_int. Qed.

Lemma better_range color a b :
  - sentinel <= a <= sentinel -> - sentinel <= b <= sentinel ->
  - sentinel <= better color a b <= sentinel.
Proof. destruct color; simpl; lia. Qed.

Lemma track_best_int {X} color move e b bm rng :
  @track_best X color move (PInt e) (PInt b) bm rng
  = Ok (Next (PInt (better color b e), tie_list color move e b bm), rng).
Proof.
  unfold track_best, improves, tie_list, strictly, better, py_lt, bind,
    lift.
  destruct color; simpl.
  - destruct (Z.gtb_spec e b); simpl.
    + unfold ret. repeat f_equal. lia.
    + destruct (Z.eqb_spec e b); unfold ret; repeat f_equal; lia.
  - destruct (Z.gtb_spec b e); simpl.
    + unfold ret. repeat f_equal. lia.
    + destruct (Z.eqb_spec e b); unfold ret; repeat f_equal; lia.
Qed.

(** One iteration of the loop of [evaluated_move]. *)
Lemma evaluated_move_body_run game color b bm x rng :
  evaluated_move_body game color (PInt b, bm) x rng
  = Ok (if mates game x
        then Returned (x, PInt (ev (make_move game x)))
        else Next (PInt (better color b (ev (make_move game x))),
                   tie_list color x (ev (make_move game x)) b bm),
        rng).
Proof.
  unfold evaluated_move_body.
  destruct (evaluate_game_int (make_move game x)) as [E _].
  rewrite (bind_run _ _ _ _ _ (lift_run _ _ rng E)).
  fold (mates game x). destruct (mates game x).
  - reflexivity.
  - apply track_best_int.
Qed.

Lemma em_inv_step game color done b bm x :
  em_inv game color done b bm ->
  em_inv game color (done ++ [x])
         (better color b (ev (make_move game x)))
         (tie_list color x (ev (make_move game x)) b bm).
Proof.
  intros (Hb & Hbest & Hties & Hall & Hne).
  pose proof (ev_range (make_move game x)) as He.
  set (e := ev (make_move game x)) in *.
  assert (Hinit : done = [] -> b = wown color).
  { intros ->. exact Hbest. }
  repeat split.
  - apply better_range; lia.
  - apply better_range; lia.
  - unfold best_of in *. rewrite map_app, fold_left_app. simpl.
    rewrite <- Hbest. reflexivity.
  - apply in_or_app. unfold tie_list in H.
    destruct (strictly color e b).
    + destruct H as [<-|[]]. right. left. reflexivity.
    + destruct (e =? b).
      * apply in_app_or in H. destruct H as [H|[<-|[]]].
        -- left. apply Hties. exact H.
        -- right. left. reflexivity.
      * left. apply Hties. exact H.
  - unfold tie_list, strictly, better in *.
    destruct color.
    + destruct (Z.gtb_spec e b).
      * destruct H as [<-|[]]. fold e. lia.
      * destruct (Z.eqb_spec e b).
        -- apply in_app_or in H. destruct H as [H|[<-|[]]].
           ++ destruct (Hties _ H) as [_ ->]. lia.
           ++ fold e. lia.
        -- destruct (Hties _ H) as [_ ->]. lia.
    + destruct (Z.gtb_spec b e).
      * destruct H as [<-|[]]. fold e. lia.
      * destruct (Z.eqb_spec e b).
        -- apply in_app_or in H. destruct H as [H|[<-|[]]].
           ++ destruct (Hties _ H) as [_ ->]. lia.
           ++ fold e. lia.
        -- destruct (Hties _ H) as [_ ->]. lia.
  - intros m Hm. apply in_app_or in Hm. destruct Hm as [Hm|[<-|[]]].
    + specialize (Hall _ Hm). unfold at_least, better in *.
      destruct color; lia.
    + fold e. unfold at_least, better. destruct color; lia.
  - intros _. unfold tie_list, strictly.
    destruct done as [|d0 done'].
    + specialize (Hinit eq_refl). clear Hbest. subst b.
      destruct color; unfold wown in *.
      * destruct (Z.gtb_spec e (- sentinel)); [discriminate|].
        destruct (Z.eqb_spec e (- sentinel)); [|lia].
        destruct bm; discriminate.
      * destruct (Z.gtb_spec sentinel e); [discriminate|].
        destruct (Z.eqb_spec e sentinel); [|lia].
        destruct bm; discriminate.
    + assert (Hbm : bm <> []) by (apply Hne; discriminate).
      destruct (match color with WHITE => e >? b | BLACK => b >? e end);
        [discriminate|].
      destruct (e =? b); [|exact Hbm].
      destruct bm; [congruence|discriminate].
Qed.

(** The loop of [evaluated_move]: it returns at the first mating move,
    and otherwise ends on the best score with a tie list of moves that
    reach it; it draws no random number. *)
Lemma evaluated_move_loop game color : forall ms done b bm,
  em_inv game color done b bm ->
  match find (mates game) ms with
  | Some m =>
      forall rng,
        for_each (evaluated_move_body game color) ms (PInt b, bm) rng
        = Ok (inl (m, PInt (ev (make_move game m))), rng)
  | None =>
      exists b' bm',
        (forall rng,
            for_each (evaluated_move_body game color) ms (PInt b, bm) rng
            = Ok (inr (PInt b', bm'), rng))
        /\ em_inv game color (done ++ ms) b' bm'
  end.
Proof.
  induction ms as [|x ms IH]; intros done b bm Hinv.
  - simpl. exists b, bm. rewrite app_nil_r. split; [reflexivity|exact Hinv].
  - simpl find.
    destruct (mates game x) eqn:Hx.
    + intros rng. simpl.
      rewrite (bind_run _ _ _ _ _
                 (evaluated_move_body_run game color b bm x rng)).
      rewrite Hx. reflexivity.
    + specialize (IH _ _ _ (em_inv_step game color done b bm x Hinv)).
      destruct (find (mates game) ms) as [m|].
      * intros rng. simpl.
        rewrite (bind_run _ _ _ _ _
                   (evaluated_move_body_run game color b bm x rng)).
        rewrite Hx. apply IH.
      * destruct IH as (b' & bm' & Hrun & Hinv').
        exists b', bm'. split.
        -- intros rng. simpl.
           rewrite (bind_run _ _ _ _ _
                      (evaluated_move_body_run game color b bm x rng)).
           rewrite Hx. apply Hrun.
        -- rewrite <- app_assoc in Hinv'. exact Hinv'.
Qed.

Lemma em_inv_init game color :
  em_inv game color [] (wown color) [].
Proof.
  pose proof (wown_range color) as Hw.
  split; [exact Hw|]. split; [reflexivity|].
  split; [intros m []|]. split; [intros m []|]. congruence.
Qed.

Lemma evaluated_move_mate game color m :
  find (mates game) (legal_moves game color) = Some m ->
  forall rng,
    evaluated_move game color rng
    = Ok ((m, PInt (ev (make_move game m))), rng).
Proof.
  intros Hfind rng. unfold evaluated_move.
  pose proof (evaluated_move_loop game color (legal_moves game color)
                [] _ _ (em_inv_init game color)) as Hloop.
  rewrite Hfind in Hloop. rewrite win_score_int.
  rewrite (bind_run _ _ _ _ _ (Hloop rng)). reflexivity.
Qed.

(** Without a mating move the result is a random choice among a
    non-empty list of legal moves that all reach the best score. *)
Lemma evaluated_move_ties game color :
  find (mates game) (legal_moves game color) = None ->
  legal_moves game color <> [] ->
  exists bm,
    bm <> []
    /\ (forall m, In m bm ->
                  In m (legal_moves game color)
                  /\ ev (make_move game m) = em_score game color)
    /\ (forall m, In m (legal_moves game color) ->
                  at_least color (em_score game color)
                           (ev (make_move game m)))
    /\ forall rng,
        evaluated_move game color rng
        = bind (choice bm)
               (fun m => ret (m, PInt (em_score game color))) rng.
Proof.
  intros Hfind Hne. unfold evaluated_move, em_score. rewrite Hfind.
  pose proof (evaluated_move_loop game color (legal_moves game color)
                [] _ _ (em_inv_init game color)) as Hloop.
  rewrite Hfind in Hloop. destruct Hloop as (b' & bm' & Hrun & Hinv).
  simpl in Hinv. destruct Hinv as (_ & Hbest & Hties & Hall & Hbm).
  exists bm'. subst b'. repeat split; auto.
  - apply Hties. assumption.
  - apply Hties. assumption.
  - intros rng. rewrite win_score_int.
    rewrite (bind_run _ _ _ _ _ (Hrun rng)). reflexivity.
Qed.

Lemma em_score_range game color :
  - sentinel <= em_score game color <= sentinel.
Proof.
  unfold em_score.
  destruct (find (mates game) (legal_moves game color)).
  - apply ev_range.
  - unfold best_of.
      assert (Hgen : forall l a,
                 - sentinel <= a <= sentinel ->
                 - sentinel
                 <= fold_left (better color)
                              (map (fun m => ev (make_move game m)) l) a
                 <= sentinel).
      { induction l as [|y l IHl]; intros a Ha; simpl; [exact Ha|].
        apply IHl. apply better_range; [exact Ha|apply ev_range]. }
      apply Hgen. apply wown_range.
Qed.

(** With at least one legal move [evaluated_move] returns, whatever
    the random tape, a legal move with the score [em_score], which is
    the evaluation of the game after that move. *)
Lemma evaluated_move_score game color :
  legal_moves game color <> [] ->
  forall rng,
  exists m rng',
    evaluated_move game color rng
    = Ok ((m, PInt (em_score game color)), rng')
    /\ In m (legal_moves game color)
    /\ ev (make_move game m) = em_score game color.
Proof.
  intros Hne rng.
  destruct (find (mates game) (legal_moves game color)) as [m|] eqn:Hfind.
  - exists m, rng. unfold em_score. rewrite Hfind.
    split; [apply evaluated_move_mate; exact Hfind|].
    split; [|reflexivity]. apply find_some in Hfind. apply Hfind.
  - destruct (evaluated_move_ties game color Hfind Hne)
      as (bm & Hbm & Hties & _ & Hrun).
    destruct (choice_total bm rng Hbm) as (m & rng' & Hch & Hin).
    exists m, rng'. rewrite Hrun, (bind_run _ _ _ _ _ Hch).
    split; [reflexivity|]. apply Hties. exact Hin.
Qed.

(** C6. With at least one legal move, [evaluated_move] returns a legal
    move and a score that is the evaluation of the game after that
    move; when no legal move mates, that score is the greatest
    successor evaluation for White and the least for Black. *)
Theorem evaluated_move_best game color rng :
  legal_moves game color <> [] ->
  exists move score rng',
    evaluated_move game color rng = Ok ((move, PInt score), rng')
    /\ In move (legal_moves game color)
    /\ evaluate_game (make_move game move) = Ok (PInt score)
    /\ ((forall m, In m (legal_moves game color) ->
                   is_checkmate (make_move game m)
                                (opposing_color (to_move game)) = false) ->
        forall m, In m (legal_moves game color) ->
                  exists z,
                    evaluate_game (make_move game m) = Ok (PInt z)
                    /\ match color with
                       | WHITE => z <= score
                       | BLACK => score <= z
                       end).
Proof.
  intros Hne.
  destruct (evaluated_move_score game color Hne rng)
    as (m & rng' & Hrun & Hin & Hev).
  exists m, (em_score game color), rng'.
  split; [exact Hrun|]. split; [exact Hin|].
  split.
  - rewrite <- Hev. apply evaluate_game_int.
  - intros Hnomate m' Hm'.
    exists (ev (make_move game m')).
    split; [apply evaluate_game_int|].
    assert (Hfind : find (mates game) (legal_moves game color) = None).
    { destruct (find (mates game) (legal_moves game color)) as [m0|]
        eqn:Hf; [|reflexivity].
      apply find_some in Hf. destruct Hf as [Hin0 Hm0].
      unfold mates in Hm0. rewrite (Hnomate _ Hin0) in Hm0.
      discriminate. }
    destruct (evaluated_move_ties game color Hfind Hne)
      as (_ & _ & _ & Hall & _).
    specialize (Hall _ Hm'). destruct color; exact Hall.
Qed.

(** After a mating move of the side to move the evaluation is
    [win_score] of the side mated. *)
Lemma mate_evaluation game m :
  mates game m = true ->
  evaluate_game (make_move game m)
  = Ok (win_score (opposing_color (to_move game))).
Proof.
  unfold mates. intros Hm.
  pose proof (c_flip HC game m) as Hflip.
  rewrite <- Hflip in Hm |- *.
  pose proof (c_mate_ends HC _ Hm) as Hend.
  unfold evaluate_game, evaluate_end_node. rewrite Hend, Hm. reflexivity.
Qed.

Lemma py_eq_refl_int z : py_eq (PInt z) (PInt z) = true.
Proof. simpl. apply Z.eqb_refl. Qed.

(** C2. When some legal move of the side to move delivers checkmate,
    [evaluated_move], [minimax] and [alpha_beta] (whatever the depth
    and the window) all return one and the same mating move, the first
    in the enumeration, with the score [win_score] of the opponent,
    and leave the random generator untouched: no tie-break takes
    place. *)
Theorem mate_in_one_is_returned game :
  let color := to_move game in
  game_ended game = false ->
  (exists m0, In m0 (legal_moves game color)
              /\ is_checkmate (make_move game m0)
                              (opposing_color color) = true) ->
  exists m,
    In m (legal_moves game color)
    /\ is_checkmate (make_move game m) (opposing_color color) = true
    /\ find (fun x => is_checkmate (make_move game x)
                                   (opposing_color color))
            (legal_moves game color) = Some m
    /\ forall rng,
        evaluated_move game color rng
        = Ok ((m, win_score (opposing_color color)), rng)
        /\ (forall fuel depth,
               1 <= depth ->
               minimax (S fuel) game color depth rng
               = Ok ((Some m, win_score (opposing_color color)), rng))
        /\ (forall fuel depth alpha beta,
               1 <= depth ->
               alpha_beta (S fuel) game color depth alpha beta rng
               = Ok ((Some m, win_score (opposing_color color)), rng)).
Proof.
  intros color Hend (m0 & Hin0 & Hmate0).
  destruct (find (mates game) (legal_moves game color)) as [m|] eqn:Hfind.
  2:{ pose proof (find_none _ _ Hfind _ Hin0) as Hno.
      unfold mates in Hno. fold color in Hno. congruence. }
  pose proof (find_some _ _ Hfind) as [Hin Hmate].
  exists m. split; [exact Hin|]. split; [exact Hmate|].
  split; [exact Hfind|]. intros rng.
  assert (Hem : evaluated_move game color rng
                = Ok ((m, win_score (opposing_color color)), rng)).
  { rewrite (evaluated_move_mate game color m Hfind rng).
    destruct (evaluate_game_int (make_move game m)) as [E _].
    rewrite (mate_evaluation game m Hmate) in E.
    fold color in E.
    assert (E' : win_score (opposing_color color)
                 = PInt (ev (make_move game m))) by congruence.
    rewrite E'. reflexivity. }
  split; [exact Hem|].
  assert (Htest : forall depth,
             (depth =? 1)
             || py_eq (win_score (opposing_color color))
                      (win_score (opposing_color color)) = true).
  { intros depth. rewrite win_score_int, py_eq_refl_int.
    apply orb_true_r. }
  split.
  - intros fuel depth _. simpl. rewrite Hend.
    rewrite (bind_run _ _ _ _ _ Hem). rewrite Htest. reflexivity.
  - intros fuel depth alpha beta _. simpl. rewrite Hend.
    rewrite (bind_run _ _ _ _ _ Hem). rewrite Htest. reflexivity.
Qed.

End RankerFacts.

(* ================================================================= *)
(** ** The value of minimax                                           *)
(* ================================================================= *)

Section MinimaxValue.
Context {Game : Type} {R : Rules Game}.
Hypothesis HC : Contract.
Variable node : Game -> Color -> Prop.
Hypothesis HT : SearchTree node.

Lemma fold_better_range color : forall l a,
  (forall x, In x l -> - sentinel <= x <= sentinel) ->
  - sentinel <= a <= sentinel ->
  - sentinel <= fold_left (better color) l a <= sentinel.
Proof.
  induction l as [|y l IH]; intros a Hl Ha; simpl; [exact Ha|].
  apply IH.
  - intros x Hx. apply Hl. right. exact Hx.
  - apply better_range; [exact Ha|]. apply Hl. left. reflexivity.
Qed.

(** A list that holds the best possible score for [color] folds to
    it. *)
Lemma fold_better_top color : forall l a,
  (forall x, In x l -> - sentinel <= x <= sentinel) ->
  - sentinel <= a <= sentinel ->
  a = wopp color \/ In (wopp color) l ->
  fold_left (better color) l a = wopp color.
Proof.
  induction l as [|y l IH]; intros a Hl Ha Htop; simpl.
  - destruct Htop as [Htop|[]]. exact Htop.
  - assert (Hy : - sentinel <= y <= sentinel) by (apply Hl; left; reflexivity).
    apply IH.
    + intros x Hx. apply Hl. right. exact Hx.
    + apply better_range; assumption.
    + destruct Htop as [->|[->|Hin]].
      * left. unfold wopp, better.
        destruct color; simpl in *; lia.
      * left. unfold wopp, better in *.
        destruct color; simpl in *; lia.
      * right. exact Hin.
Qed.

Lemma mm_value_range : forall n game color,
  - sentinel <= mm_value n game color <= sentinel.
Proof.
  induction n as [|n IH]; intros game color; simpl;
    destruct (game_ended game); try apply (ev_range HC);
    try apply (em_score_range HC).
  destruct (em_score game color =? wopp color);
    [apply (em_score_range HC)|].
  unfold best_of. apply fold_better_range; [|apply (wown_range HC)].
  intros x Hx. apply in_map_iff in Hx. destruct Hx as (m & <- & _).
  apply IH.
Qed.

Lemma mm_value_ended n game color :
  game_ended game = true -> mm_value n game color = ev game.
Proof. intros H. destruct n; simpl; rewrite H; reflexivity. Qed.

(** A move of [color] that leaves the side to move checkmated has
    checkmated the opponent of [color]: its value is the best there
    is. *)
Lemma child_mate n game color m :
  node game color -> In m (legal_moves game color) ->
  is_checkmate (make_move game m) (to_move (make_move game m)) = true ->
  win_score (to_move (make_move game m)) = PInt (wopp color)
  /\ mm_value n (make_move game m) (opposing_color color) = wopp color.
Proof.
  intros Hnode Hin Hmate.
  pose proof (st_self node HT _ _ _ Hnode Hin) as Hself.
  assert (Hturn : to_move (make_move game m) = opposing_color color).
  { destruct (to_move (make_move game m)), color; simpl;
      try reflexivity; congruence. }
  split.
  - rewrite Hturn. apply win_score_int.
  - rewrite mm_value_ended by (apply (c_mate_ends HC); exact Hmate).
    destruct (evaluate_game_int HC (make_move game m)) as [E _].
    unfold evaluate_game, evaluate_end_node in E.
    rewrite (c_mate_ends HC _ Hmate), Hmate, Hturn in E.
    rewrite win_score_int in E. unfold wopp. congruence.
Qed.

Lemma tie_list_nonempty color x v b bm :
  (bm = [] -> at_least color v b) ->
  tie_list color x v b bm <> [].
Proof.
  intros H. unfold tie_list, strictly.
  destruct bm as [|m0 bm].
  - specialize (H eq_refl). unfold at_least in H.
    destruct color.
    + destruct (Z.gtb_spec v b); [discriminate|].
      destruct (Z.eqb_spec v b); [discriminate|lia].
    + destruct (Z.gtb_spec b v); [discriminate|].
      destruct (Z.eqb_spec v b); [discriminate|lia].
  - destruct (match color with WHITE => v >? b | BLACK => b >? v end);
      [discriminate|].
    destruct (v =? b); discriminate.
Qed.

(** One iteration of the loop of [minimax]. *)
Lemma minimax_body_mate rec game color depth st x rng :
  is_checkmate (make_move game x) (to_move (make_move game x)) = true ->
  minimax_body rec game color depth st x rng
  = Ok (Returned (Some x, win_score (to_move (make_move game x))), rng).
Proof.
  intros Hmate. unfold minimax_body. destruct st as [b bm].
  rewrite Hmate. reflexivity.
Qed.

Lemma minimax_body_run rec game color depth b bm x rng mv v rng1 :
  is_checkmate (make_move game x) (to_move (make_move game x)) = false ->
  rec (make_move game x) (opposing_color color) (depth - 1) rng
  = Ok ((mv, PInt v), rng1) ->
  minimax_body rec game color depth (PInt b, bm) x rng
  = Ok (if v =? wopp color
        then Returned (Some x, PInt v)
        else Next (PInt (better color b v), tie_list color x v b bm),
        rng1).
Proof.
  intros Hmate Hcall. unfold minimax_body. rewrite Hmate.
  rewrite (bind_run _ _ _ _ _ Hcall).
  rewrite win_score_int. fold (wopp color).
  change (py_eq (PInt v) (PInt (wopp color))) with (v =? wopp color).
  destruct (v =? wopp color); [reflexivity|apply track_best_int].
Qed.

(** The loop of [minimax], given what the recursive call returns on
    each successor: whether it returns early or runs to its end, the
    score is the best of the successors' values. *)
Lemma minimax_loop rec game color depth (cv : Move -> Z) :
  node game color ->
  (forall x, In x (legal_moves game color) ->
             - sentinel <= cv x <= sentinel
             /\ (is_checkmate (make_move game x)
                              (to_move (make_move game x)) = true ->
                 cv x = wopp color)
             /\ forall rng, exists mv rng',
                 rec (make_move game x) (opposing_color color)
                     (depth - 1) rng
                 = Ok ((mv, PInt (cv x)), rng')) ->
  forall ms b bm,
    (forall x, In x ms -> In x (legal_moves game color)) ->
    - sentinel <= b <= sentinel ->
    (bm = [] -> b = wown color) ->
    forall rng, exists out rng',
      for_each (minimax_body rec game color depth) ms (PInt b, bm) rng
      = Ok (out, rng')
      /\ match out with
         | inl (_, s) => s = PInt (fold_left (better color) (map cv ms) b)
         | inr (s, bm') =>
             s = PInt (fold_left (better color) (map cv ms) b)
             /\ (bm' = [] -> ms = [])
         end.
Proof.
  intros Hnode Hrec.
  induction ms as [|x ms IH]; intros b bm Hms Hb Hbm rng.
  - eexists _, _. split; [reflexivity|]. simpl. auto.
  - assert (Hx : In x (legal_moves game color)) by (apply Hms; left; reflexivity).
    destruct (Hrec x Hx) as (Hcv & Hcvmate & Hcall).
    assert (Hcvs : forall y, In y (map cv ms) -> - sentinel <= y <= sentinel).
    { intros y Hy. apply in_map_iff in Hy. destruct Hy as (m & <- & Hm).
      apply Hrec. apply Hms. right. exact Hm. }
    assert (Htop : cv x = wopp color ->
                   fold_left (better color) (map cv (x :: ms)) b
                   = wopp color).
    { intros Hv. simpl. apply fold_better_top.
      - exact Hcvs.
      - apply better_range; assumption.
      - left. rewrite Hv. unfold wopp, better.
        pose proof (sentinel_nonneg HC).
        destruct color; simpl in *; lia. }
    destruct (is_checkmate (make_move game x)
                           (to_move (make_move game x))) eqn:Hmate.
    + destruct (child_mate 0 game color x Hnode Hx Hmate) as [Hw _].
      eexists _, _. split.
      * simpl for_each.
        rewrite (bind_run _ _ _ _ _
                   (minimax_body_mate rec game color depth
                                      (PInt b, bm) x rng Hmate)).
        reflexivity.
      * change (win_score (to_move (make_move game x))
                = PInt (fold_left (better color) (map cv (x :: ms)) b)).
        rewrite Hw, (Htop (Hcvmate eq_refl)). reflexivity.
    + destruct (Hcall rng) as (mv & rng1 & Hcall1).
      pose proof (minimax_body_run rec game color depth b bm x rng
                    mv (cv x) rng1 Hmate Hcall1) as Hbody.
      destruct (Z.eqb_spec (cv x) (wopp color)) as [Hv|Hv].
      * eexists _, _. split.
        -- simpl for_each. rewrite (bind_run _ _ _ _ _ Hbody).
           reflexivity.
        -- change (PInt (cv x)
                   = PInt (fold_left (better color) (map cv (x :: ms)) b)).
           rewrite (Htop Hv), Hv. reflexivity.
      * assert (Ht : tie_list color x (cv x) b bm <> []).
        { apply tie_list_nonempty. intros Hnil.
          rewrite (Hbm Hnil). unfold at_least, wown.
          destruct color; lia. }
        destruct (IH (better color b (cv x))
                     (tie_list color x (cv x) b bm)) with (rng := rng1)
          as (out & rng' & Hrun & Hpost).
        -- intros y Hy. apply Hms. right. exact Hy.
        -- apply better_range; assumption.
        -- intros Hnil. contradiction.
        -- exists out, rng'. split.
           ++ simpl for_each. rewrite (bind_run _ _ _ _ _ Hbody).
              exact Hrun.
           ++ destruct out as [[mv' s]|[s bm']]; simpl; [exact Hpost|].
              destruct Hpost as [Hs Hnil]. split; [exact Hs|].
              intros Hbm'. specialize (Hnil Hbm').
              subst ms. simpl in Hrun. unfold ret in Hrun.
              inversion Hrun. congruence.
Qed.

(** [minimax] at depth [n + 1] returns, on every tape and with any
    fuel of at least [n + 1], the score [mm_value n]. *)
Lemma minimax_value : forall n fuel game color,
  node game color ->
  (S n <= fuel)%nat ->
  forall rng, exists mv rng',
    minimax fuel game color (Z.of_nat (S n)) rng
    = Ok ((mv, PInt (mm_value n game color)), rng').
Proof.
  induction n as [|n IH]; intros fuel game color Hnode Hfuel rng;
    (destruct fuel as [|fuel]; [lia|]);
    cbn [minimax mm_value];
    destruct (game_ended game) eqn:Hend.
  - destruct (evaluate_game_int HC game) as [E _].
    eexists _, _. unfold bind. rewrite (lift_run _ _ rng E). reflexivity.
  - destruct (evaluated_move_score HC game color
                (st_moves node HT _ _ Hnode Hend) rng)
      as (m & rng1 & Hem & _).
    eexists _, _. rewrite (bind_run _ _ _ _ _ Hem). reflexivity.
  - destruct (evaluate_game_int HC game) as [E _].
    eexists _, _. unfold bind. rewrite (lift_run _ _ rng E). reflexivity.
  - destruct (evaluated_move_score HC game color
                (st_moves node HT _ _ Hnode Hend) rng)
      as (m & rng1 & Hem & _).
    rewrite (bind_run _ _ _ _ _ Hem).
    replace (Z.of_nat (S (S n)) =? 1) with false
      by (symmetry; apply Z.eqb_neq; lia).
    rewrite win_score_int. fold (wopp color).
    change (py_eq (PInt (em_score game color)) (PInt (wopp color)))
      with (em_score game color =? wopp color).
    destruct (em_score game color =? wopp color).
    { eexists _, _. reflexivity. }
    set (cv := fun x => mm_value n (make_move game x)
                                 (opposing_color color)).
    destruct (minimax_loop (minimax fuel) game color
                           (Z.of_nat (S (S n))) cv Hnode)
      with (ms := legal_moves game color) (b := wown color)
           (bm := @nil Move) (rng := rng1)
      as (out & rng2 & Hrun & Hpost).
    + intros x Hx. split; [apply mm_value_range|]. split.
      * intros Hmate.
        apply (child_mate n game color x Hnode Hx Hmate).
      * intros rng0.
        replace (Z.of_nat (S (S n)) - 1) with (Z.of_nat (S n)) by lia.
        apply IH; [|lia].
        apply (st_step node HT); assumption.
    + auto.
    + apply (wown_range HC).
    + reflexivity.
    + rewrite win_score_int. cbn [orb]. cbv zeta.
      rewrite (bind_run _ _ _ _ _ Hrun).
      destruct out as [[mv s]|[s bm']].
      * subst s. eexists _, _. reflexivity.
      * destruct Hpost as [-> Hnil].
        assert (Hbm' : bm' <> []).
        { intros Hb. apply (st_moves node HT _ _ Hnode Hend).
          apply Hnil. exact Hb. }
        destruct (choice_total bm' rng2 Hbm') as (m' & rng3 & Hch & _).
        eexists _, _. rewrite (bind_run _ _ _ _ _ Hch). reflexivity.
Qed.

End MinimaxValue.

(* ================================================================= *)
(** ** Alpha-beta against minimax                                     *)
(* ================================================================= *)

Section AlphaBetaValue.
Context {Game : Type} {R : Rules Game}.
Hypothesis HC : Contract.
Variable node : Game -> Color -> Prop.
Hypothesis HT : SearchTree node.

(** Python's comparisons of a score with a bound agree with the
    integers [num] assigns. *)
Lemma compare_lower alpha s :
  lower_bound alpha -> - sentinel <= s ->
  py_eq (PInt s) alpha = (s =? num alpha)
  /\ py_gt (PInt s) alpha = Ok (s >? num alpha)
  /\ py_gt alpha (PInt s) = Ok (num alpha >? s).
Proof.
  intros [->|(a & -> & Ha)] Hs; simpl.
  - repeat split.
    + symmetry. apply Z.eqb_neq. lia.
    + f_equal. symmetry. apply Z.gtb_lt. lia.
    + f_equal. symmetry. destruct (Z.gtb_spec (- sentinel - 1) s); [lia|reflexivity].
  - auto.
Qed.

Lemma compare_upper beta s :
  upper_bound beta -> s <= sentinel ->
  py_eq (PInt s) beta = (s =? num beta)
  /\ py_gt (PInt s) beta = Ok (s >? num beta)
  /\ py_gt beta (PInt s) = Ok (num beta >? s).
Proof.
  intros [->|(b & -> & Hb)] Hs; simpl.
  - repeat split.
    + symmetry. apply Z.eqb_neq. lia.
    + f_equal. symmetry. destruct (Z.gtb_spec s (sentinel + 1)); [lia|reflexivity].
    + f_equal. symmetry. apply Z.gtb_lt. lia.
  - auto.
Qed.

Lemma fold_max_bounds : forall l a hi,
  (forall x, In x l -> x <= hi) -> a <= hi ->
  a <= fold_left Z.max l a <= hi.
Proof.
  induction l as [|y l IH]; intros a hi Hl Ha; simpl; [lia|].
  assert (Hy : y <= hi) by (apply Hl; left; reflexivity).
  destruct (IH (Z.max a y) hi) as [H1 H2];
    [intros x Hx; apply Hl; right; exact Hx | lia | lia].
Qed.

Lemma fold_min_bounds : forall l a lo,
  (forall x, In x l -> lo <= x) -> lo <= a ->
  lo <= fold_left Z.min l a <= a.
Proof.
  induction l as [|y l IH]; intros a lo Hl Ha; simpl; [lia|].
  assert (Hy : lo <= y) by (apply Hl; left; reflexivity).
  destruct (IH (Z.min a y) lo) as [H1 H2];
    [intros x Hx; apply Hl; right; exact Hx | lia | lia].
Qed.

Lemma fold_max_shift : forall l a b,
  fold_left Z.max l (Z.max a b) = Z.max a (fold_left Z.max l b).
Proof.
  induction l as [|y l IH]; intros a b; simpl; [reflexivity|].
  rewrite <- IH. f_equal. lia.
Qed.

Lemma fold_min_shift : forall l a b,
  fold_left Z.min l (Z.min a b) = Z.min a (fold_left Z.min l b).
Proof.
  induction l as [|y l IH]; intros a b; simpl; [reflexivity|].
  rewrite <- IH. f_equal. lia.
Qed.

(** From a non-empty list of scores, starting at the window's bound or
    at the mover's own sentinel differs by one [max] (or [min]). *)
Lemma fold_max_from l a lo :
  l <> [] -> (forall x, In x l -> lo <= x) ->
  fold_left Z.max l a = Z.max a (fold_left Z.max l lo).
Proof.
  intros Hne Hl. destruct l as [|y l]; [congruence|]. simpl.
  assert (Hy : lo <= y) by (apply Hl; left; reflexivity).
  rewrite fold_max_shift. f_equal. f_equal. lia.
Qed.

Lemma fold_min_from l a hi :
  l <> [] -> (forall x, In x l -> x <= hi) ->
  fold_left Z.min l a = Z.min a (fold_left Z.min l hi).
Proof.
  intros Hne Hl. destruct l as [|y l]; [congruence|]. simpl.
  assert (Hy : y <= hi) by (apply Hl; left; reflexivity).
  rewrite fold_min_shift. f_equal. f_equal. lia.
Qed.

(** One iteration of the White loop. *)
Lemma white_body_run rec game depth beta alpha bm x rng mv r rng1 :
  lower_bound alpha -> upper_bound beta ->
  - sentinel <= r <= sentinel ->
  rec (make_move game x) BLACK (depth - 1) alpha beta rng
  = Ok ((mv, PInt r), rng1) ->
  alpha_beta_white_body rec game WHITE depth beta (alpha, bm) x rng
  = Ok (if r =? sentinel then Returned (Some x, PInt r)
        else if r >? num alpha
             then if r >? num beta
                  then Broke (PInt r, [x])
                  else Next (PInt r, [x])
             else Next (alpha,
                        if r =? num alpha then bm ++ [x] else bm),
        rng1).
Proof.
  intros Ha Hb Hr Hcall. unfold alpha_beta_white_body.
  change (opposing_color WHITE) with BLACK.
  rewrite (bind_run _ _ _ _ _ Hcall).
  rewrite win_score_int. change (wown BLACK) with sentinel.
  change (py_eq (PInt r) (PInt sentinel)) with (r =? sentinel).
  destruct (r =? sentinel); [reflexivity|].
  destruct (compare_lower alpha r Ha) as (Heq & Hgt & _); [lia|].
  destruct (compare_upper beta r Hb) as (_ & Hcut & _); [lia|].
  rewrite Heq. unfold bind, lift. rewrite Hgt.
  destruct (r >? num alpha); [|reflexivity].
  rewrite Hcut. destruct (r >? num beta); reflexivity.
Qed.

(** One iteration of the Black loop. *)
Lemma black_body_run rec game depth alpha beta bm x rng mv r rng1 :
  lower_bound alpha -> upper_bound beta ->
  - sentinel <= r <= sentinel ->
  rec (make_move game x) WHITE (depth - 1) alpha beta rng
  = Ok ((mv, PInt r), rng1) ->
  alpha_beta_black_body rec game BLACK depth alpha (beta, bm) x rng
  = Ok (if r =? - sentinel then Returned (Some x, PInt r)
        else if num beta >? r
             then if num alpha >? r
                  then Broke (PInt r, [x])
                  else Next (PInt r, [x])
             else Next (beta,
                        if r =? num beta then bm ++ [x] else bm),
        rng1).
Proof.
  intros Ha Hb Hr Hcall. unfold alpha_beta_black_body.
  change (opposing_color BLACK) with WHITE.
  rewrite (bind_run _ _ _ _ _ Hcall).
  rewrite win_score_int. change (wown WHITE) with (- sentinel).
  change (py_eq (PInt r) (PInt (- sentinel))) with (r =? - sentinel).
  destruct (r =? - sentinel); [reflexivity|].
  destruct (compare_upper beta r Hb) as (Heq & _ & Hlt); [lia|].
  destruct (compare_lower alpha r Ha) as (_ & _ & Hcut); [lia|].
  rewrite Heq. unfold bind, lift, py_lt. rewrite Hlt.
  destruct (num beta >? r); [|reflexivity].
  rewrite Hcut. destruct (num alpha >? r); reflexivity.
Qed.

(** The White loop: from the bound [alpha] it ends, by return, break
    or exhaustion, on a score that brackets, in the window
    [(alpha, beta)], the greatest of [alpha] and the successors'
    values. *)
Lemma white_loop rec game depth beta (cv : Move -> Z) :
  upper_bound beta ->
  forall ms,
    (forall x, In x ms ->
               answers (rec (make_move game x) BLACK (depth - 1)) (cv x)) ->
    forall alpha bm,
      lower_bound alpha -> num alpha <= num beta ->
      forall rng, exists out rng',
        for_each (alpha_beta_white_body rec game WHITE depth beta)
                 ms (alpha, bm) rng = Ok (out, rng')
        /\ num alpha <= num (loop_score out) <= sentinel
        /\ bracket (num alpha) (num beta)
                   (fold_left Z.max (map cv ms) (num alpha))
                   (num (loop_score out))
        /\ ((ms = [] /\ loop_score out = alpha)
            \/ exists r, loop_score out = PInt r
                         /\ - sentinel <= r <= sentinel).
Proof.
  intros Hbeta. pose proof (sentinel_nonneg HC) as HB.
  induction ms as [|x ms IH]; intros Hms alpha bm Halpha Hab rng.
  - exists (inr (alpha, bm)), rng. simpl.
    split; [reflexivity|].
    assert (Ha : num alpha < sentinel).
    { destruct Halpha as [->|(a & -> & Ha)]; simpl; lia. }
    unfold bracket. repeat split; try lia. left. auto.
  - assert (Ha : - sentinel - 1 <= num alpha < sentinel).
    { destruct Halpha as [->|(a & -> & Ha)]; simpl; lia. }
    assert (Hb : - sentinel < num beta <= sentinel + 1).
    { destruct Hbeta as [->|(b & -> & Hb)]; simpl; lia. }
    destruct (Hms x (or_introl eq_refl)) as (Hv & Hcall).
    destruct (Hcall alpha beta (conj Halpha (conj Hbeta Hab)) rng)
      as (mv & r & rng1 & Hrun & Hr & Hbr).
    pose proof (white_body_run rec game depth beta alpha bm x rng
                  mv r rng1 Halpha Hbeta Hr Hrun) as Hbody.
    assert (Hcvs : forall y, In y (map cv ms) -> y <= sentinel).
    { intros y Hy. apply in_map_iff in Hy. destruct Hy as (m & <- & Hm).
      apply (Hms m). right. exact Hm. }
    assert (Hfold : forall i, i <= sentinel ->
               i <= fold_left Z.max (map cv ms) i <= sentinel).
    { intros i Hi. apply fold_max_bounds; assumption. }
    simpl map. simpl fold_left.
    assert (Hm := Hfold (Z.max (num alpha) (cv x))).
    specialize (Hm ltac:(lia)).
    set (mstar := fold_left Z.max (map cv ms) (Z.max (num alpha) (cv x)))
      in *.
    unfold bracket in Hbr. destruct Hbr as (Hbr1 & Hbr2 & Hbr3).
    destruct (Z.eqb_spec r sentinel) as [Hrs|Hrs].
    { (* the move wins: return *)
      eexists _, _. split.
      - simpl for_each. rewrite (bind_run _ _ _ _ _ Hbody). reflexivity.
      - simpl. unfold bracket. repeat split; try lia.
        right. exists r. split; [reflexivity|lia]. }
    destruct (Z.gtb_spec r (num alpha)) as [Hgt|Hle].
    + destruct (Z.gtb_spec r (num beta)) as [Hcut|Hnocut].
      { (* cutoff: break *)
        eexists _, _. split.
        - simpl for_each. rewrite (bind_run _ _ _ _ _ Hbody). reflexivity.
        - simpl. unfold bracket. repeat split; try lia.
        right. exists r. split; [reflexivity|lia]. }
      (* alpha raised to r *)
      destruct (IH (fun y Hy => Hms y (or_intror Hy)) (PInt r) [x])
        with (rng := rng1) as (out & rng' & Hloop & Hrange & Hbrk & Hint).
      { right. exists r. split; [reflexivity|lia]. }
      { simpl. lia. }
      exists out, rng'. split.
      { simpl for_each. rewrite (bind_run _ _ _ _ _ Hbody). exact Hloop. }
      simpl num in Hrange, Hbrk.
      assert (Hm2 := Hfold r). specialize (Hm2 ltac:(lia)).
      unfold bracket in Hbrk |- *.
      split; [lia|]. split.
      * destruct (Z.eq_dec r (Z.max (num alpha) (cv x))) as [E|E].
        -- unfold mstar. rewrite <- E. lia.
        -- lia.
      * right. destruct Hint as [[_ ->]|Hint]; [|exact Hint].
        exists r. split; [reflexivity|lia].
    + (* alpha unchanged *)
      destruct (IH (fun y Hy => Hms y (or_intror Hy)) alpha
                   (if r =? num alpha then bm ++ [x] else bm))
        with (rng := rng1) as (out & rng' & Hloop & Hrange & Hbrk & Hint);
        [assumption|assumption|].
      exists out, rng'. split.
      { simpl for_each. rewrite (bind_run _ _ _ _ _ Hbody). exact Hloop. }
      assert (Hm2 := Hfold (num alpha)). specialize (Hm2 ltac:(lia)).
      unfold bracket in Hbrk |- *.
      split; [lia|]. split.
      * destruct (Z.eq_dec (num alpha) (Z.max (num alpha) (cv x)))
          as [E|E].
        -- unfold mstar. rewrite <- E. lia.
        -- lia.
      * right. destruct Hint as [[_ ->]|Hint]; [|exact Hint].
        destruct Halpha as [->|(a & -> & Hra)]; [simpl in Hle; lia|].
        exists a. split; [reflexivity|lia].
Qed.

(** The Black loop, symmetrically. *)
Lemma black_loop rec game depth alpha (cv : Move -> Z) :
  lower_bound alpha ->
  forall ms,
    (forall x, In x ms ->
               answers (rec (make_move game x) WHITE (depth - 1)) (cv x)) ->
    forall beta bm,
      upper_bound beta -> num alpha <= num beta ->
      forall rng, exists out rng',
        for_each (alpha_beta_black_body rec game BLACK depth alpha)
                 ms (beta, bm) rng = Ok (out, rng')
        /\ - sentinel <= num (loop_score out) <= num beta
        /\ bracket (num alpha) (num beta)
                   (fold_left Z.min (map cv ms) (num beta))
                   (num (loop_score out))
        /\ ((ms = [] /\ loop_score out = beta)
            \/ exists r, loop_score out = PInt r
                         /\ - sentinel <= r <= sentinel).
Proof.
  intros Halpha. pose proof (sentinel_nonneg HC) as HB.
  induction ms as [|x ms IH]; intros Hms beta bm Hbeta Hab rng.
  - exists (inr (beta, bm)), rng. simpl.
    split; [reflexivity|].
    assert (Hb : - sentinel < num beta).
    { destruct Hbeta as [->|(b & -> & Hb)]; simpl; lia. }
    unfold bracket. repeat split; try lia. left. auto.
  - assert (Ha : - sentinel - 1 <= num alpha < sentinel).
    { destruct Halpha as [->|(a & -> & Ha)]; simpl; lia. }
    assert (Hb : - sentinel < num beta <= sentinel + 1).
    { destruct Hbeta as [->|(b & -> & Hb)]; simpl; lia. }
    destruct (Hms x (or_introl eq_refl)) as (Hv & Hcall).
    destruct (Hcall alpha beta (conj Halpha (conj Hbeta Hab)) rng)
      as (mv & r & rng1 & Hrun & Hr & Hbr).
    pose proof (black_body_run rec game depth alpha beta bm x rng
                  mv r rng1 Halpha Hbeta Hr Hrun) as Hbody.
    assert (Hcvs : forall y, In y (map cv ms) -> - sentinel <= y).
    { intros y Hy. apply in_map_iff in Hy. destruct Hy as (m & <- & Hm).
      apply (Hms m). right. exact Hm. }
    assert (Hfold : forall i, - sentinel <= i ->
               - sentinel <= fold_left Z.min (map cv ms) i <= i).
    { intros i Hi. apply fold_min_bounds; assumption. }
    simpl map. simpl fold_left.
    assert (Hm := Hfold (Z.min (num beta) (cv x))).
    specialize (Hm ltac:(lia)).
    set (mstar := fold_left Z.min (map cv ms) (Z.min (num beta) (cv x)))
      in *.
    unfold bracket in Hbr. destruct Hbr as (Hbr1 & Hbr2 & Hbr3).
    destruct (Z.eqb_spec r (- sentinel)) as [Hrs|Hrs].
    { eexists _, _. split.
      - simpl for_each. rewrite (bind_run _ _ _ _ _ Hbody). reflexivity.
      - simpl. unfold bracket. repeat split; try lia.
        right. exists r. split; [reflexivity|lia]. }
    destruct (Z.gtb_spec (num beta) r) as [Hlt|Hge].
    + destruct (Z.gtb_spec (num alpha) r) as [Hcut|Hnocut].
      { eexists _, _. split.
        - simpl for_each. rewrite (bind_run _ _ _ _ _ Hbody). reflexivity.
        - simpl. unfold bracket. repeat split; try lia.
        right. exists r. split; [reflexivity|lia]. }
      destruct (IH (fun y Hy => Hms y (or_intror Hy)) (PInt r) [x])
        with (rng := rng1) as (out & rng' & Hloop & Hrange & Hbrk & Hint).
      { right. exists r. split; [reflexivity|lia]. }
      { simpl. lia. }
      exists out, rng'. split.
      { simpl for_each. rewrite (bind_run _ _ _ _ _ Hbody). exact Hloop. }
      simpl num in Hrange, Hbrk.
      assert (Hm2 := Hfold r). specialize (Hm2 ltac:(lia)).
      unfold bracket in Hbrk |- *.
      split; [lia|]. split.
      * destruct (Z.eq_dec r (Z.min (num beta) (cv x))) as [E|E].
        -- unfold mstar. rewrite <- E. lia.
        -- lia.
      * right. destruct Hint as [[_ ->]|Hint]; [|exact Hint].
        exists r. split; [reflexivity|lia].
    + destruct (IH (fun y Hy => Hms y (or_intror Hy)) beta
                   (if r =? num beta then bm ++ [x] else bm))
        with (rng := rng1) as (out & rng' & Hloop & Hrange & Hbrk & Hint);
        [assumption|assumption|].
      exists out, rng'. split.
      { simpl for_each. rewrite (bind_run _ _ _ _ _ Hbody). exact Hloop. }
      assert (Hm2 := Hfold (num beta)). specialize (Hm2 ltac:(lia)).
      unfold bracket in Hbrk |- *.
      split; [lia|]. split.
      * destruct (Z.eq_dec (num beta) (Z.min (num beta) (cv x)))
          as [E|E].
        -- unfold mstar. rewrite <- E. lia.
        -- lia.
      * right. destruct Hint as [[_ ->]|Hint]; [|exact Hint].
        destruct Hbeta as [->|(b & -> & Hrb)]; [simpl in Hge; lia|].
        exists b. split; [reflexivity|lia].
Qed.

Lemma alpha_beta_result_score bound bm rng :
  exists mv rng', alpha_beta_result bound bm rng = Ok ((mv, bound), rng').
Proof.
  destruct bm as [|m0 bm]; simpl.
  - eexists _, _. reflexivity.
  - destruct (choice_total (m0 :: bm) rng) as (m & rng' & Hch & _);
      [discriminate|].
    eexists _, _. rewrite (bind_run _ _ _ _ _ Hch). reflexivity.
Qed.

Lemma bracket_exact a b v : bracket a b v v.
Proof. unfold bracket. lia. Qed.

(** [alpha_beta] at depth [n + 1], with any fuel of at least [n + 1],
    answers for the value of [minimax] at that depth. *)
Lemma alpha_beta_answers : forall n fuel game color,
  node game color ->
  (S n <= fuel)%nat ->
  answers (alpha_beta fuel game color (Z.of_nat (S n)))
          (mm_value n game color).
Proof.
  pose proof (sentinel_nonneg HC) as HB.
  induction n as [|n IH]; intros fuel game color Hnode Hfuel;
    (destruct fuel as [|fuel]; [lia|]);
    (split; [apply (mm_value_range HC)|]);
    intros alpha beta Hwin rng;
    cbn [alpha_beta mm_value];
    destruct (game_ended game) eqn:Hend.
  - destruct (evaluate_game_int HC game) as [E Hr].
    eexists _, _, _. unfold bind. rewrite (lift_run _ _ rng E).
    split; [reflexivity|]. split; [exact Hr|apply bracket_exact].
  - destruct (evaluated_move_score HC game color
                (st_moves node HT _ _ Hnode Hend) rng)
      as (m & rng1 & Hem & _).
    eexists _, _, _. rewrite (bind_run _ _ _ _ _ Hem).
    split; [reflexivity|].
    split; [apply (em_score_range HC)|apply bracket_exact].
  - destruct (evaluate_game_int HC game) as [E Hr].
    eexists _, _, _. unfold bind. rewrite (lift_run _ _ rng E).
    split; [reflexivity|]. split; [exact Hr|apply bracket_exact].
  - pose proof (st_moves node HT _ _ Hnode Hend) as Hmoves.
    destruct (evaluated_move_score HC game color Hmoves rng)
      as (m & rng1 & Hem & _).
    rewrite (bind_run _ _ _ _ _ Hem).
    replace (Z.of_nat (S (S n)) =? 1) with false
      by (symmetry; apply Z.eqb_neq; lia).
    rewrite win_score_int. fold (wopp color).
    change (py_eq (PInt (em_score game color)) (PInt (wopp color)))
      with (em_score game color =? wopp color).
    destruct (em_score game color =? wopp color).
    { eexists _, _, _. split; [reflexivity|].
      split; [apply (em_score_range HC)|apply bracket_exact]. }
    cbn [orb]. cbv zeta.
    set (cv := fun x => mm_value n (make_move game x)
                                 (opposing_color color)).
    assert (Hkids : forall x,
               In x (legal_moves game color) ->
               answers (alpha_beta fuel (make_move game x)
                                   (opposing_color color)
                                   (Z.of_nat (S (S n)) - 1))
                       (cv x)).
    { intros x Hx.
      replace (Z.of_nat (S (S n)) - 1) with (Z.of_nat (S n)) by lia.
      apply IH; [|lia]. apply (st_step node HT); assumption. }
    assert (Hcv : forall y,
               In y (map cv (legal_moves game color)) ->
               - sentinel <= y <= sentinel).
    { intros y Hy. apply in_map_iff in Hy. destruct Hy as (x & <- & _).
      apply (mm_value_range HC). }
    assert (Hne : map cv (legal_moves game color) <> []).
    { intros Hnil. apply map_eq_nil in Hnil. contradiction. }
    destruct Hwin as (Halpha & Hbeta & Hab).
    assert (Ha : - sentinel - 1 <= num alpha).
    { destruct Halpha as [->|(a & -> & Ha)]; simpl; lia. }
    assert (Hb : num beta <= sentinel + 1).
    { destruct Hbeta as [->|(b & -> & Hb)]; simpl; lia. }
    unfold best_of. destruct color; simpl better.
    + destruct (white_loop (alpha_beta fuel) game (Z.of_nat (S (S n)))
                           beta cv Hbeta (legal_moves game WHITE) Hkids
                           alpha [] Halpha Hab rng1)
        as (out & rng2 & Hloop & Hrange & Hbrk & Hint).
      rewrite (bind_run _ _ _ _ _ Hloop).
      destruct Hint as [[Hnil _]|(r & Hr & Hrr)]; [contradiction|].
      rewrite (fold_max_from _ (num alpha) (- sentinel) Hne) in Hbrk
        by (intros y Hy; apply Hcv; exact Hy).
      change (wown WHITE) with (- sentinel).
      change (better WHITE) with Z.max.
      set (v := fold_left Z.max (map cv (legal_moves game WHITE))
                          (- sentinel)) in *.
      assert (Hres : exists mv rng',
                 match out with
                 | inl r0 => ret r0
                 | inr (a0, bm0) => alpha_beta_result a0 bm0
                 end rng2 = Ok ((mv, PInt r), rng')).
      { destruct out as [[mv0 s0]|[a0 bm0]]; simpl in Hr; subst.
        - eexists _, _. reflexivity.
        - apply alpha_beta_result_score. }
      destruct Hres as (mv & rng' & Hres).
      exists mv, r, rng'. split; [exact Hres|].
      rewrite Hr in Hrange, Hbrk. simpl num in Hrange, Hbrk.
      unfold bracket in *. split; lia.
    + destruct (black_loop (alpha_beta fuel) game (Z.of_nat (S (S n)))
                           alpha cv Halpha (legal_moves game BLACK) Hkids
                           beta [] Hbeta Hab rng1)
        as (out & rng2 & Hloop & Hrange & Hbrk & Hint).
      rewrite (bind_run _ _ _ _ _ Hloop).
      destruct Hint as [[Hnil _]|(r & Hr & Hrr)]; [contradiction|].
      rewrite (fold_min_from _ (num beta) sentinel Hne) in Hbrk
        by (intros y Hy; apply Hcv; exact Hy).
      change (wown BLACK) with sentinel.
      change (better BLACK) with Z.min.
      set (v := fold_left Z.min (map cv (legal_moves game BLACK))
                          sentinel) in *.
      assert (Hres : exists mv rng',
                 match out with
                 | inl r0 => ret r0
                 | inr (b0, bm0) => alpha_beta_result b0 bm0
                 end rng2 = Ok ((mv, PInt r), rng')).
      { destruct out as [[mv0 s0]|[b0 bm0]]; simpl in Hr; subst.
        - eexists _, _. reflexivity.
        - apply alpha_beta_result_score. }
      destruct Hres as (mv & rng' & Hres).
      exists mv, r, rng'. split; [exact Hres|].
      rewrite Hr in Hrange, Hbrk. simpl num in Hrange, Hbrk.
      unfold bracket in *. split; lia.
Qed.

(** C1. For every position of a search tree on which the rules module
    keeps its contract and every depth of at least 1, there is one
    score that [minimax] returns and that [alpha_beta], called with the
    window from minus to plus infinity, returns as well, whatever the
    random tapes and for every fuel that covers the depth.  The rules
    module, and with it the order in which [legal_moves] enumerates the
    moves, is arbitrary. *)
Theorem alpha_beta_score_is_minimax_score game color depth :
  node game color ->
  1 <= depth ->
  exists score,
    (forall fuel rng,
        (Z.to_nat depth <= fuel)%nat ->
        exists mv rng',
          minimax fuel game color depth rng
          = Ok ((mv, PInt score), rng'))
    /\ (forall fuel rng,
           (Z.to_nat depth <= fuel)%nat ->
           exists mv rng',
             alpha_beta fuel game color depth PNegInf PPosInf rng
             = Ok ((mv, PInt score), rng')).
Proof.
  intros Hnode Hdepth.
  pose proof (sentinel_nonneg HC) as HB.
  set (n := Nat.pred (Z.to_nat depth)).
  assert (Hd : depth = Z.of_nat (S n)) by (unfold n; lia).
  assert (Hn : Z.to_nat depth = S n) by (unfold n; lia).
  exists (mm_value n game color). split.
  - intros fuel rng Hfuel. rewrite Hd.
    apply (minimax_value HC node HT); [exact Hnode|lia].
  - intros fuel rng Hfuel. rewrite Hd.
    destruct (alpha_beta_answers n fuel game color Hnode ltac:(lia))
      as (Hv & Hans).
    destruct (Hans PNegInf PPosInf) with (rng := rng)
      as (mv & r & rng' & Hrun & Hr & Hbr).
    { split; [left; reflexivity|]. split; [left; reflexivity|].
      simpl. lia. }
    exists mv, rng'. rewrite Hrun. unfold bracket in Hbr. simpl in Hbr.
    repeat f_equal. lia.
Qed.

End AlphaBetaValue.

(* ================================================================= *)
(** ** The subtraction game keeps the contract                        *)
(* ================================================================= *)

Module ToyFacts.
Import Toy.

Lemma static_evaluation (g : Game) :
  positional_balance g = Ok (if Nat.even (stones g) then 0 else 15)
  /\ material_balance (board g)
     = (if Nat.even (stones g) then 0 else -100).
Proof.
  destruct g as [t n].
  unfold positional_balance, positional_bonus, oriented_board,
    material_balance.
  cbn [board rules stones flip_board_v].
  destruct (Nat.even n); vm_compute; split; reflexivity.
Qed.

Lemma contract : Contract.
Proof.
  constructor.
  - vm_compute. discriminate.
  - intros [t n]. cbn [board rules stones flip_board_v].
    destruct (Nat.even n); vm_compute; split; repeat constructor.
  - intros [t n] H. cbn in H |- *.
    destruct (Nat.eqb n 0); simpl in *.
    + destruct t; reflexivity.
    + rewrite H. destruct (color_eqb t t); reflexivity.
  - intros [t n] H. cbn in H |- *.
    destruct (Nat.eqb n 0); [reflexivity|discriminate].
  - reflexivity.
  - intros g z Hend Hev. unfold evaluate_game in Hev. rewrite Hend in Hev.
    destruct (static_evaluation g) as [Hp Hm]. rewrite Hp, Hm in Hev.
    simpl in Hev. unfold sentinel. cbn [PIECE_VALUES KING rules].
    destruct (Nat.even (stones g)); inversion Hev; subst;
      vm_compute; split; discriminate.
Qed.

Lemma search_tree : SearchTree on_turn.
Proof.
  constructor; unfold on_turn.
  - intros g c m -> _. reflexivity.
  - intros [t n] c _ Hend. cbn in Hend |- *. unfold moves. simpl.
    do 6 (destruct n as [|n]; [try discriminate|]); discriminate.
  - intros [t n] c m -> _. cbn.
    destruct (Nat.eqb _ 0); [|reflexivity].
    destruct t; reflexivity.
Qed.

End ToyFacts.

(* ================================================================= *)
(** ** The theorems at work on the subtraction game                   *)
(* ================================================================= *)

#[local] Existing Instance Toy.rules.

(** Black to move on an empty pile is checkmated; a pile of five is a
    stalemate. *)
Lemma evaluate_end_node_scores_witness :
  evaluate_end_node (Toy.mkGame BLACK 0) = PInt 420000
  /\ evaluate_end_node (Toy.mkGame WHITE 5) = PInt 0.
Proof.
  split.
  - destruct (evaluate_end_node_scores (Toy.mkGame BLACK 0))
      as (_ & _ & _ & Hmate & _); [reflexivity|].
    rewrite Hmate; reflexivity.
  - destruct (evaluate_end_node_scores (Toy.mkGame WHITE 5))
      as (_ & _ & _ & _ & Hdraw); [reflexivity|].
    apply Hdraw; [reflexivity | left; reflexivity].
Defined.

(** The black rook on h2 stands, on the mirrored board, on square 55: its
    file is open and the square is on the seventh rank. *)
Lemma rook_positional_bonus_witness :
  square_bonus (Toy.flip Toy.board_even) BLACK 55 = 10 + 20.
Proof.
  destruct (rook_positional_bonus (Toy.mkGame WHITE 4) BLACK)
    as (_ & _ & Hrook).
  destruct (Hrook 55%nat 12) as (f & r & Hsum & Hopen & _ & _ & Hrank & _).
  - reflexivity.
  - repeat split. discriminate.
  - discriminate.
  - discriminate.
  - discriminate.
  - change (oriented_board (Toy.mkGame WHITE 4) BLACK)
      with (Toy.flip Toy.board_even) in *.
    rewrite Hsum, Hopen, Hrank;
      [reflexivity | vm_compute; discriminate | reflexivity].
Defined.

(** A pile of three shows the odd board: material -100, position
    -20 for White and -35 for Black. *)
Lemma evaluate_game_material_plus_positional_witness :
  evaluate_game (Toy.mkGame WHITE 3) = Ok (PInt (-100 + (-20 - -35))).
Proof.
  destruct (evaluate_game_material_plus_positional
              Toy.rules (Toy.mkGame WHITE 3)) as (_ & H & _);
    [reflexivity|].
  apply (H (-20) (-35)); reflexivity.
Defined.

Lemma returned_move_is_legal_witness :
  In (1, 0) (legal_moves (Toy.mkGame WHITE 7) WHITE).
Proof.
  destruct (@returned_move_is_legal Toy.Game Toy.rules) as (_ & _ & Hab).
  apply (Hab 4%nat (Toy.mkGame WHITE 7) WHITE 3 PNegInf PPosInf Toy.tape0
             (1, 0) (PInt 0) Toy.tape0).
  vm_compute. reflexivity.
Defined.

(** From a pile of three, at depth 1, the ranker's pair is the
    answer. *)
Lemma minimax_single_ply_witness :
  minimax 1 (Toy.mkGame WHITE 3) WHITE 1 Toy.tape0
  = Ok ((Some (1, 0), PInt 0), fun n => Toy.tape0 (S n)).
Proof.
  apply (minimax_single_ply 0 (Toy.mkGame WHITE 3) WHITE 1 Toy.tape0
                            (1, 0) (PInt 0) (fun n => Toy.tape0 (S n)));
    [reflexivity | reflexivity | left; reflexivity].
Defined.

(** From a pile of four, below -100, the first move scores -85: the
    White loop breaks and the second move is never tried. *)
Lemma alpha_beta_window_monotone_witness :
  for_each (alpha_beta_white_body (alpha_beta 2) (Toy.mkGame WHITE 4)
                                  WHITE 2 (PInt (-100)))
           [(1, 0); (2, 0)] (PNegInf, []) Toy.tape0
  = Ok (inr (PInt (-85), [(1, 0)]), fun n => Toy.tape0 (S n)).
Proof.
  destruct (alpha_beta_window_monotone (alpha_beta 2) (Toy.mkGame WHITE 4)
                                       WHITE 2) as (_ & _ & _ & Hbreak).
  apply (Hbreak alpha_beta_white_body (PInt (-100)) (PNegInf, []) (1, 0)
                [(2, 0)] Toy.tape0 _ _ (alpha_beta 2)).
  - left. reflexivity.
  - reflexivity.
  - reflexivity.
Defined.

(** C7 as stated, without a condition on the window at entry, fails.
    From a pile of eight White searches at depth 2 with [alpha = 5] and
    [beta = 3]: [alpha > beta] holds before the first move, the game has
    not ended, and still neither iteration breaks, the call goes through
    both moves and answers [None] with the score 5, and the result of the
    loop depends on what the recursive call answers on the second
    move. *)
Lemma alpha_beta_window_monotone_counterexample :
  game_ended (Toy.mkGame WHITE 8) = false
  /\ legal_moves (Toy.mkGame WHITE 8) WHITE = [(1, 0); (2, 0)]
  /\ py_gt (PInt 5) (PInt 3) = Ok true
  /\ alpha_beta 2 (Toy.mkGame WHITE 8) WHITE 2 (PInt 5) (PInt 3) Toy.tape0
     = Ok ((None, PInt 5), Toy.tape0)
  /\ alpha_beta_white_body (alpha_beta 1) (Toy.mkGame WHITE 8) WHITE 2
                           (PInt 3) (PInt 5, []) (1, 0) Toy.tape0
     = Ok (Next (PInt 5, []), Toy.tape0)
  /\ alpha_beta_white_body (alpha_beta 1) (Toy.mkGame WHITE 8) WHITE 2
                           (PInt 3) (PInt 5, []) (2, 0) Toy.tape0
     = Ok (Next (PInt 5, []), Toy.tape0)
  /\ ~ (forall rec' : Toy.Game -> Color -> Z -> pyval -> pyval
                      -> M (option Move * pyval),
          (forall c d a b r,
              rec' (make_move (Toy.mkGame WHITE 8) (1, 0)) c d a b r
              = alpha_beta 1 (make_move (Toy.mkGame WHITE 8) (1, 0))
                           c d a b r) ->
          for_each (alpha_beta_white_body rec' (Toy.mkGame WHITE 8)
                                          WHITE 2 (PInt 3))
                   (legal_moves (Toy.mkGame WHITE 8) WHITE)
                   (PInt 5, []) Toy.tape0
          = for_each (alpha_beta_white_body (alpha_beta 1)
                                            (Toy.mkGame WHITE 8)
                                            WHITE 2 (PInt 3))
                     (legal_moves (Toy.mkGame WHITE 8) WHITE)
                     (PInt 5, []) Toy.tape0).
Proof.
  split; [reflexivity|]. split; [reflexivity|]. split; [reflexivity|].
  split; [vm_compute; reflexivity|].
  split; [vm_compute; reflexivity|].
  split; [vm_compute; reflexivity|].
  intros H.
  specialize (H (fun g c d a b =>
                   if Nat.eqb (Toy.stones g) 6 then ret (None, PInt 7)
                   else alpha_beta 1 g c d a b)).
  assert (Hsame : forall c d a b r,
             (if Nat.eqb (Toy.stones
                            (make_move (Toy.mkGame WHITE 8) (1, 0))) 6
              then ret (None, PInt 7)
              else alpha_beta 1 (make_move (Toy.mkGame WHITE 8) (1, 0))
                              c d a b) r
             = alpha_beta 1 (make_move (Toy.mkGame WHITE 8) (1, 0))
                          c d a b r)
    by reflexivity.
  specialize (H Hsame). vm_compute in H. discriminate H.
Qed.

(** With the book in use, a game that did not start from the initial
    position, and one whose moves leave every line of the book, both end
    in [UnboundLocalError]. *)
Lemma get_AI_move_book_miss_witness :
  get_AI_move 5 (Toy.mkGame WHITE 3) 2 true Toy.tape0
  = Raise UnboundLocalError
  /\ get_AI_move 5 (Toy.mkGame WHITE 4) 2 true Toy.tape0
     = Raise UnboundLocalError.
Proof.
  split.
  - apply (get_AI_move_book_miss 5 (Toy.mkGame WHITE 3) 2 Toy.tape0
                                 BookFalse); reflexivity.
  - apply (get_AI_move_book_miss 5 (Toy.mkGame WHITE 4) 2 Toy.tape0
                                 (BookOpenings [])); reflexivity.
Defined.

Lemma evaluated_move_best_witness :
  exists move score rng',
    evaluated_move (Toy.mkGame WHITE 3) WHITE Toy.tape0
    = Ok ((move, PInt score), rng')
    /\ In move (legal_moves (Toy.mkGame WHITE 3) WHITE)
    /\ evaluate_game (make_move (Toy.mkGame WHITE 3) move)
       = Ok (PInt score)
    /\ ((forall m, In m (legal_moves (Toy.mkGame WHITE 3) WHITE) ->
                   is_checkmate (make_move (Toy.mkGame WHITE 3) m)
                                (opposing_color
                                   (to_move (Toy.mkGame WHITE 3))) = false) ->
        forall m, In m (legal_moves (Toy.mkGame WHITE 3) WHITE) ->
                  exists z,
                    evaluate_game (make_move (Toy.mkGame WHITE 3) m)
                    = Ok (PInt z)
                    /\ z <= score).
Proof.
  apply (evaluated_move_best ToyFacts.contract (Toy.mkGame WHITE 3) WHITE
                             Toy.tape0).
  cbn. discriminate.
Defined.

(** From a pile of two White mates by taking both stones. *)
Lemma mate_in_one_is_returned_witness :
  evaluated_move (Toy.mkGame WHITE 2) WHITE Toy.tape0
  = Ok (((2, 0), PInt 420000), Toy.tape0)
  /\ minimax 1 (Toy.mkGame WHITE 2) WHITE 3 Toy.tape0
     = Ok ((Some (2, 0), PInt 420000), Toy.tape0)
  /\ alpha_beta 1 (Toy.mkGame WHITE 2) WHITE 3 PNegInf PPosInf Toy.tape0
     = Ok ((Some (2, 0), PInt 420000), Toy.tape0).
Proof.
  destruct (mate_in_one_is_returned ToyFacts.contract (Toy.mkGame WHITE 2))
    as (m & _ & _ & Hfind & Hall).
  - reflexivity.
  - exists (2, 0). split; [right; left; reflexivity | reflexivity].
  - cbv in Hfind. inversion Hfind. subst m.
    destruct (Hall Toy.tape0) as (Hem & Hmm & Hab).
    split; [exact Hem|]. split.
    + apply Hmm. lia.
    + apply Hab. lia.
Defined.

(** From a pile of seven, at depth 3, both searches agree on one
    score. *)
Lemma alpha_beta_score_is_minimax_score_witness :
  exists score,
    (forall fuel rng,
        (Z.to_nat 3 <= fuel)%nat ->
        exists mv rng',
          minimax fuel (Toy.mkGame WHITE 7) WHITE 3 rng
          = Ok ((mv, PInt score), rng'))
    /\ (forall fuel rng,
           (Z.to_nat 3 <= fuel)%nat ->
           exists mv rng',
             alpha_beta fuel (Toy.mkGame WHITE 7) WHITE 3 PNegInf PPosInf rng
             = Ok ((mv, PInt score), rng')).
Proof.
  apply (alpha_beta_score_is_minimax_score
           ToyFacts.contract Toy.on_turn ToyFacts.search_tree).
  - reflexivity.
  - lia.
Defined.

(* ================================================================= *)
(** ** Further properties: the evaluator                              *)
(* ================================================================= *)

Section EvaluatorEdges.
Context {Game : Type} {R : Rules Game}.

Lemma for_range_app {S} (body : S -> nat -> res S) xs ys s :
  for_range body (xs ++ ys) s
  = (s' <-- for_range body xs s ;; for_range body ys s').
Proof.
  revert s. induction xs as [|x xs IH]; intros s; simpl; [reflexivity|].
  destruct (body s x); simpl; [apply IH|reflexivity].
Qed.

(** The scan stops with [IndexError] at the first index past the end of
    the board. *)
Lemma scan_past_the_end (game : Game) (color : Color) :
  (List.length (oriented_board game color) < 64)%nat ->
  positional_bonus game color = Raise IndexError.
Proof.
  intros Hlen. unfold positional_bonus.
  set (b := oriented_board game color) in *.
  set (n := List.length b) in *.
  replace 64%nat with (n + (64 - n))%nat by lia.
  rewrite seq_app, for_range_app. rewrite for_range_sum.
  - cbn [res_bind]. destruct (64 - n)%nat as [|k] eqn:Hk; [lia|].
    cbn [seq for_range]. unfold positional_bonus_body at 1.
    assert (Hnone : nth_error b (0 + n) = None)
      by (apply nth_error_None; lia).
    rewrite Hnone. reflexivity.
  - apply Forall_forall. intros i Hi. apply in_seq in Hi. lia.
Qed.

(** X1. On a board of fewer than 64 squares (the game's own for White,
    the mirrored one for Black) [positional_bonus] raises [IndexError],
    whatever the squares hold: the scan always runs over the 64 indices.
    So does [positional_balance] when either board is that short. *)
Theorem positional_bonus_short_board (game : Game) (color : Color) :
  (List.length (oriented_board game color) < 64)%nat ->
  positional_bonus game color = Raise IndexError
  /\ positional_balance game = Raise IndexError.
Proof.
  intros Hlen. split; [apply scan_past_the_end; exact Hlen|].
  unfold positional_balance.
  destruct color.
  - rewrite (scan_past_the_end game WHITE Hlen). reflexivity.
  - destruct (Nat.lt_ge_cases (List.length (oriented_board game WHITE)) 64)
      as [Hlt|Hge].
    + rewrite (scan_past_the_end game WHITE Hlt). reflexivity.
    + rewrite (positional_bonus_sum game WHITE Hge). simpl.
      rewrite (scan_past_the_end game BLACK Hlen). reflexivity.
Qed.

(** The table lookups of [positional_bonus]: a pawn, knight or bishop
    of the evaluated colour adds the entry of its table at its square on
    the scanned board; a king adds the entry of the endgame table when
    [is_endgame] holds of the scanned board and of the middle-game table
    otherwise. *)
Lemma piece_square_lookup (b : Board) (color : Color) (index : nat)
        (piece : Z) :
  nth_error b index = Some piece ->
  KNIGHT <> PAWN -> BISHOP <> PAWN -> BISHOP <> KNIGHT ->
  KING <> PAWN -> KING <> KNIGHT -> KING <> BISHOP -> KING <> ROOK ->
  (is_piece piece color PAWN ->
   square_bonus b color index = PAWN_BONUS index)
  /\ (is_piece piece color KNIGHT ->
      square_bonus b color index = KNIGHT_BONUS index)
  /\ (is_piece piece color BISHOP ->
      square_bonus b color index = BISHOP_BONUS index)
  /\ (is_piece piece color KING ->
      (is_endgame b = true ->
       square_bonus b color index = KING_ENDGAME_BONUS index)
      /\ (is_endgame b = false ->
          square_bonus b color index = KING_BONUS index)).
Proof.
  intros Hnth Hkp Hbp Hbk Hgp Hgk Hgb Hgr.
  apply Z.eqb_neq in Hkp, Hbp, Hbk, Hgp, Hgk, Hgb, Hgr.
  unfold square_bonus, positional_bonus_body. rewrite Hnth.
  split; [|split; [|split]];
    intros (Hne & Hcol & Hkind); apply Z.eqb_neq in Hne;
    rewrite Hne, Hcol, Hkind, !Z.eqb_refl; simpl.
  - reflexivity.
  - rewrite Hkp. reflexivity.
  - rewrite Hbp, Hbk. reflexivity.
  - rewrite Hgp, Hgk, Hgb, Hgr. split; intros ->; reflexivity.
Qed.

Lemma square_bonus_unscored (b : Board) color index :
  scored_square b color index = false -> square_bonus b color index = 0.
Proof.
  unfold scored_square, square_bonus, positional_bonus_body.
  destruct (nth_error b index) as [piece|]; [|reflexivity].
  destruct (negb (piece =? EMPTY)
            && (Z.land piece COLOR_MASK =? color_code color));
    [|reflexivity].
  simpl. intros H.
  repeat match type of H with
         | _ || _ = false =>
             apply orb_false_iff in H;
             let H1 := fresh "Hk" in destruct H as [H H1]
         end.
  repeat match goal with
         | Hk : (_ =? _) = false |- _ => rewrite Hk; clear Hk
         end.
  reflexivity.
Qed.

Lemma sum_filter_scored (b : Board) color (xs : list nat) :
  fold_right Z.add 0 (map (square_bonus b color) xs)
  = fold_right Z.add 0
      (map (square_bonus b color) (filter (scored_square b color) xs)).
Proof.
  induction xs as [|x xs IH]; simpl; [reflexivity|].
  destruct (scored_square b color x) eqn:Hx; simpl.
  - rewrite IH. reflexivity.
  - rewrite (square_bonus_unscored _ _ _ Hx), IH. lia.
Qed.

(** X2. On a board of 64 squares [positional_bonus] is the sum of the
    bonuses of the squares that hold a pawn, knight, bishop, rook or king
    of the evaluated colour: empty squares, the other colour's pieces and
    every other kind of piece (the queen) add nothing. *)
Theorem positional_bonus_scores_own_pieces (game : Game) (color : Color) :
  let b := oriented_board game color in
  (64 <= List.length b)%nat ->
  positional_bonus game color
  = Ok (fold_right Z.add 0
          (map (square_bonus b color)
               (filter (scored_square b color) (seq 0 64))))
  /\ ((forall index, (index < 64)%nat ->
                     scored_square b color index = false) ->
      positional_bonus game color = Ok 0).
Proof.
  intros b Hlen. rewrite (positional_bonus_sum game color Hlen). fold b.
  rewrite sum_filter_scored. split; [reflexivity|].
  intros Hnone. f_equal.
  assert (Hnil : filter (scored_square b color) (seq 0 64) = []).
  { destruct (filter (scored_square b color) (seq 0 64)) as [|i l] eqn:Hf;
      [reflexivity|].
    assert (Hin : In i (filter (scored_square b color) (seq 0 64)))
      by (rewrite Hf; left; reflexivity).
    apply filter_In in Hin. destruct Hin as [Hi Hs].
    apply in_seq in Hi. rewrite Hnone in Hs by lia. discriminate. }
  rewrite Hnil. reflexivity.
Qed.


End EvaluatorEdges.

Lemma positional_bonus_short_board_witness :
  @positional_bonus _ Broken.short_board (Toy.mkGame WHITE 4) WHITE
  = Raise IndexError
  /\ @positional_balance _ Broken.short_board (Toy.mkGame WHITE 4)
     = Raise IndexError.
Proof.
  apply (@positional_bonus_short_board _ Broken.short_board).
  vm_compute. lia.
Defined.

(** On the odd board the white knight stands on c3 and the white king
    on g1, in an endgame. *)
Lemma piece_square_lookup_witness :
  square_bonus Toy.board_odd WHITE 18 = 10
  /\ square_bonus Toy.board_odd WHITE 6 = -30.
Proof.
  split.
  - destruct (piece_square_lookup Toy.board_odd WHITE 18 2)
      as (_ & Hknight & _); [reflexivity | discriminate .. |].
    rewrite Hknight; [reflexivity|].
    repeat split. discriminate.
  - destruct (piece_square_lookup Toy.board_odd WHITE 6 6)
      as (_ & _ & _ & Hking); [reflexivity | discriminate .. |].
    destruct Hking as [Hend _]; [repeat split; discriminate|].
    rewrite Hend; reflexivity.
Defined.

(** A pile of three shows the odd board, on which White has a knight and
    a king only. *)
Lemma positional_bonus_scores_own_pieces_witness :
  positional_bonus (Toy.mkGame WHITE 3) WHITE = Ok (10 + (-30 + 0)).
Proof.
  destruct (positional_bonus_scores_own_pieces (Toy.mkGame WHITE 3) WHITE)
    as [Hsum _].
  - vm_compute. lia.
  - rewrite Hsum. reflexivity.
Defined.


(* ================================================================= *)
(** ** Further properties: the ranker's edges and the random move     *)
(* ================================================================= *)

Section RankerEdges.
Context {Game : Type} {R : Rules Game}.

Lemma bind_raise {A B} (c : M A) (k : A -> M B) rng e :
  c rng = Raise e -> bind c k rng = Raise e.
Proof. unfold bind. intros ->. reflexivity. Qed.

(** Some tape makes [choice] draw any given element. *)
Lemma choice_any {A} (l : list A) (x : A) :
  In x l -> exists rng rng', choice l rng = Ok (x, rng').
Proof.
  intros Hin. destruct l as [|a l]; [contradiction|].
  destruct (In_nth _ _ a Hin) as (n & Hn & Hnth).
  exists (fun _ => n). eexists. unfold choice.
  rewrite Nat.mod_small by exact Hn. rewrite Hnth. reflexivity.
Qed.

(** X4. Without a legal move [evaluated_move] and [random_move] raise
    [IndexError] (the choice from an empty list), and so do [minimax] and
    [alpha_beta] on a game that has not ended, at any depth and
    window. *)
Theorem no_legal_move_raises (game : Game) (color : Color) (rng : Rng) :
  legal_moves game color = [] ->
  evaluated_move game color rng = Raise IndexError
  /\ random_move game color rng = Raise IndexError
  /\ (game_ended game = false ->
      forall fuel depth,
        minimax (S fuel) game color depth rng = Raise IndexError
        /\ forall alpha beta,
            alpha_beta (S fuel) game color depth alpha beta rng
            = Raise IndexError).
Proof.
  intros Hnone.
  assert (Hem : evaluated_move game color rng = Raise IndexError).
  { unfold evaluated_move. rewrite Hnone. reflexivity. }
  split; [exact Hem|]. split.
  - unfold random_move. rewrite Hnone. reflexivity.
  - intros Hend fuel depth. split; [|intros alpha beta];
      simpl; rewrite Hend; apply bind_raise; exact Hem.
Qed.

(** The loop of [evaluated_move] over moves that do not mate and
    evaluate to integers keeps an integer best score. *)
Lemma evaluated_move_prefix game color : forall pre rest b bm rng,
  (forall x, In x pre ->
             mates game x = false
             /\ exists z, evaluate_game (make_move game x) = Ok (PInt z)) ->
  exists b' bm',
    for_each (evaluated_move_body game color) (pre ++ rest) (PInt b, bm) rng
    = for_each (evaluated_move_body game color) rest (PInt b', bm') rng.
Proof.
  induction pre as [|x pre IH]; intros rest b bm rng Hpre.
  - exists b, bm. reflexivity.
  - destruct (Hpre x (or_introl eq_refl)) as (Hx & z & Hz).
    assert (Hbody : evaluated_move_body game color (PInt b, bm) x rng
                    = Ok (Next (PInt (better color b z),
                                tie_list color x z b bm), rng)).
    { unfold evaluated_move_body.
      rewrite (bind_run _ _ _ _ _ (lift_run _ _ rng Hz)).
      fold (mates game x). rewrite Hx. apply track_best_int. }
    destruct (IH rest (better color b z) (tie_list color x z b bm) rng)
      as (b' & bm' & Hrun).
    { intros y Hy. apply Hpre. right. exact Hy. }
    exists b', bm'. simpl. rewrite (bind_run _ _ _ _ _ Hbody). exact Hrun.
Qed.

(** X5. When the moves before [m] neither mate nor evaluate to anything
    but integers, and [m] itself does not mate but leads to a game whose
    evaluation is [None], [evaluated_move] raises [TypeError]: the score
    [None] is compared with the best score. *)
Theorem none_evaluation_raises (game : Game) (color : Color)
        (pre post : list Move) (m : Move) (rng : Rng) :
  legal_moves game color = pre ++ m :: post ->
  (forall x, In x pre ->
             mates game x = false
             /\ exists z, evaluate_game (make_move game x) = Ok (PInt z)) ->
  mates game m = false ->
  evaluate_game (make_move game m) = Ok PNone ->
  evaluated_move game color rng = Raise TypeError.
Proof.
  intros Hlegal Hpre Hm Hnone. unfold evaluated_move. rewrite Hlegal.
  assert (Hw : exists w, win_score color = PInt w)
    by (destruct color; simpl; eauto).
  destruct Hw as [w Hw]. rewrite Hw.
  destruct (evaluated_move_prefix game color pre (m :: post) w [] rng Hpre)
    as (b' & bm' & Hrun).
  apply bind_raise. rewrite Hrun. simpl. apply bind_raise.
  unfold evaluated_move_body.
  rewrite (bind_run _ _ _ _ _ (lift_run _ _ rng Hnone)).
  fold (mates game m). rewrite Hm.
  unfold track_best. apply bind_raise.
  destruct color; reflexivity.
Qed.

(** X6. [random_move] returns only legal moves, returns one whenever
    there is one, and can return each of them. *)
Theorem random_move_draws_legal_moves (game : Game) (color : Color) :
  (forall rng m rng',
      random_move game color rng = Ok (m, rng') ->
      In m (legal_moves game color))
  /\ (legal_moves game color <> [] ->
      forall rng, exists m rng', random_move game color rng = Ok (m, rng'))
  /\ (forall m,
         In m (legal_moves game color) ->
         exists rng rng', random_move game color rng = Ok (m, rng')).
Proof.
  unfold random_move. split; [|split].
  - intros rng m rng' H. eapply choice_In. exact H.
  - intros Hne rng.
    destruct (choice_total _ rng Hne) as (m & rng' & H & _). eauto.
  - intros m Hin. apply choice_any. exact Hin.
Qed.

End RankerEdges.

(** The pile of five that is not an ended game and has no move. *)
Lemma no_legal_move_raises_witness :
  @alpha_beta _ Broken.stuck 3 (Toy.mkGame WHITE 5) WHITE 2
              PNegInf PPosInf Toy.tape0
  = Raise IndexError.
Proof.
  destruct (@no_legal_move_raises _ Broken.stuck (Toy.mkGame WHITE 5)
                                  WHITE Toy.tape0) as (_ & _ & H).
  - reflexivity.
  - apply H. reflexivity.
Defined.

(** From a pile of six the first move reaches the pile of five that
    ended for no reason. *)
Lemma none_evaluation_raises_witness :
  @evaluated_move _ Broken.unexplained_end (Toy.mkGame WHITE 6) WHITE
                  Toy.tape0
  = Raise TypeError.
Proof.
  apply (@none_evaluation_raises _ Broken.unexplained_end
           (Toy.mkGame WHITE 6) WHITE [] [(2, 0)] (1, 0) Toy.tape0).
  - reflexivity.
  - intros x [].
  - reflexivity.
  - reflexivity.
Defined.

Lemma random_move_draws_legal_moves_witness :
  exists rng rng',
    random_move (Toy.mkGame WHITE 3) WHITE rng = Ok ((2, 0), rng').
Proof.
  destruct (random_move_draws_legal_moves (Toy.mkGame WHITE 3) WHITE)
    as (_ & _ & Hany).
  apply Hany. right. left. reflexivity.
Defined.

(* ================================================================= *)
(** ** Further properties: the tie-break of the ranker                *)
(* ================================================================= *)

Section RankerTies.
Context {Game : Type} {R : Rules Game}.
Hypothesis HC : Contract.

Lemma filter_none {A} (f : A -> bool) (l : list A) :
  (forall x, In x l -> f x = false) -> filter f l = [].
Proof.
  induction l as [|y l IH]; intros H; simpl; [reflexivity|].
  rewrite (H y (or_introl eq_refl)). apply IH.
  intros x Hx. apply H. right. exact Hx.
Qed.

(** The tie list of the code is the list of the moves met so far that
    reach the best score. *)
Lemma tie_list_is_filter game color done b x :
  (forall m, In m done -> at_least color b (ev (make_move game m))) ->
  tie_list color x (ev (make_move game x)) b (ties_at game b done)
  = ties_at game (better color b (ev (make_move game x))) (done ++ [x]).
Proof.
  intros Hall. set (e := ev (make_move game x)).
  unfold ties_at. rewrite filter_app. simpl filter. fold e.
  unfold tie_list, strictly, better.
  destruct color; unfold at_least in Hall.
  - destruct (Z.gtb_spec e b) as [Hgt|Hle].
    + replace (Z.max b e) with e by lia. rewrite Z.eqb_refl.
      rewrite filter_none; [reflexivity|].
      intros m Hm. apply Z.eqb_neq. specialize (Hall m Hm). lia.
    + replace (Z.max b e) with b by lia.
      destruct (Z.eqb_spec e b); [reflexivity|].
      rewrite app_nil_r. reflexivity.
  - destruct (Z.gtb_spec b e) as [Hgt|Hle].
    + replace (Z.min b e) with e by lia. rewrite Z.eqb_refl.
      rewrite filter_none; [reflexivity|].
      intros m Hm. apply Z.eqb_neq. specialize (Hall m Hm). lia.
    + replace (Z.min b e) with b by lia.
      destruct (Z.eqb_spec e b); [reflexivity|].
      rewrite app_nil_r. reflexivity.
Qed.

Lemma evaluated_move_loop_ties game color : forall ms done b,
  em_inv game color done b (ties_at game b done) ->
  find (mates game) ms = None ->
  exists b',
    em_inv game color (done ++ ms) b' (ties_at game b' (done ++ ms))
    /\ forall rng,
        for_each (evaluated_move_body game color) ms
                 (PInt b, ties_at game b done) rng
        = Ok (inr (PInt b', ties_at game b' (done ++ ms)), rng).
Proof.
  induction ms as [|x ms IH]; intros done b Hinv Hfind.
  - exists b. rewrite app_nil_r. split; [exact Hinv|reflexivity].
  - simpl in Hfind. destruct (mates game x) eqn:Hx; [discriminate|].
    pose proof (em_inv_step HC game color done b (ties_at game b done)
                            x Hinv) as Hstep.
    assert (Hall : forall m, In m done ->
                             at_least color b (ev (make_move game m)))
      by apply Hinv.
    rewrite (tie_list_is_filter game color done b x Hall) in Hstep.
    destruct (IH _ _ Hstep Hfind) as (b' & Hinv' & Hrun).
    rewrite <- app_assoc in Hinv', Hrun. simpl in Hinv', Hrun.
    exists b'. split; [exact Hinv'|].
    intros rng. cbn [for_each].
    rewrite (bind_run _ _ _ _ _
               (evaluated_move_body_run HC game color b
                                        (ties_at game b done) x rng)).
    rewrite Hx. rewrite (tie_list_is_filter game color done b x Hall).
    apply Hrun.
Qed.

(** X7. When no legal move mates, every legal move whose successor
    evaluates at least as well as every other's can be returned by
    [evaluated_move]: some random tape selects it, with its evaluation as
    the score. *)
Theorem every_best_move_can_be_returned (game : Game) (color : Color)
        (m : Move) (z : Z) :
  (forall x, In x (legal_moves game color) ->
             is_checkmate (make_move game x)
                          (opposing_color (to_move game)) = false) ->
  In m (legal_moves game color) ->
  evaluate_game (make_move game m) = Ok (PInt z) ->
  (forall x, In x (legal_moves game color) ->
             exists zx,
               evaluate_game (make_move game x) = Ok (PInt zx)
               /\ match color with
                  | WHITE => zx <= z
                  | BLACK => z <= zx
                  end) ->
  exists rng rng',
    evaluated_move game color rng = Ok ((m, PInt z), rng').
Proof.
  intros Hnomate Hin Hz Hbest.
  assert (Hfind : find (mates game) (legal_moves game color) = None).
  { destruct (find (mates game) (legal_moves game color)) as [m0|] eqn:Hf;
      [|reflexivity].
    apply find_some in Hf. destruct Hf as [Hin0 Hm0].
    unfold mates in Hm0. rewrite (Hnomate _ Hin0) in Hm0. discriminate. }
  assert (Hev : forall x zx,
             evaluate_game (make_move game x) = Ok (PInt zx) ->
             ev (make_move game x) = zx).
  { intros x zx E. unfold ev. rewrite E. reflexivity. }
  destruct (evaluated_move_loop_ties game color (legal_moves game color)
              [] (wown color)) as (b' & Hinv & Hrun).
  { apply (em_inv_init HC). }
  { exact Hfind. }
  simpl app in Hinv, Hrun.
  destruct Hinv as (_ & _ & Hties & Hall & Hne).
  assert (Hzb : z = b').
  { assert (Hnonempty : ties_at game b' (legal_moves game color) <> []).
    { apply Hne. intros Hnil. rewrite Hnil in Hin. contradiction. }
    destruct (ties_at game b' (legal_moves game color)) as [|m0 l] eqn:Ht;
      [congruence|].
    destruct (Hties m0 (or_introl eq_refl)) as [Hin0 Hev0].
    destruct (Hbest m0 Hin0) as (z0 & Ez0 & Hle).
    rewrite (Hev _ _ Ez0) in Hev0. subst z0.
    specialize (Hall m Hin). rewrite (Hev _ _ Hz) in Hall.
    unfold at_least in Hall. destruct color; lia. }
  subst b'.
  assert (Hm : In m (ties_at game z (legal_moves game color))).
  { unfold ties_at. apply filter_In. split; [exact Hin|].
    rewrite (Hev _ _ Hz). apply Z.eqb_refl. }
  destruct (choice_any _ m Hm) as (rng & rng' & Hch).
  exists rng, rng'. unfold evaluated_move. rewrite win_score_int.
  change (@nil Move) with (ties_at game (wown color) []) at 1.
  rewrite (bind_run _ _ _ _ _ (Hrun rng)).
  rewrite (bind_run _ _ _ _ _ Hch). reflexivity.
Qed.

End RankerTies.

(** From a pile of six one move reaches the stalemate and the other the
    even board, both worth 0: the second can be returned as well as the
    first. *)
Lemma every_best_move_can_be_returned_witness :
  exists rng rng',
    evaluated_move (Toy.mkGame WHITE 6) WHITE rng
    = Ok (((2, 0), PInt 0), rng').
Proof.
  apply (every_best_move_can_be_returned ToyFacts.contract
           (Toy.mkGame WHITE 6) WHITE (2, 0) 0).
  - intros x [<-|[<-|[]]]; reflexivity.
  - right. left. reflexivity.
  - reflexivity.
  - intros x [<-|[<-|[]]]; exists 0; (split; [reflexivity|lia]).
Defined.

(* ================================================================= *)
(** ** Further properties: when a search returns no move              *)
(* ================================================================= *)

Section SearchMoves.
Context {Game : Type} {R : Rules Game}.

(** X8. [minimax] returns [None] for the move exactly on a game that has
    ended: on any other game every result carries a move. *)
Theorem minimax_no_move_iff_ended fuel game color depth rng mv s rng' :
  minimax fuel game color depth rng = Ok ((mv, s), rng') ->
  (mv = None <-> game_ended game = true).
Proof.
  destruct fuel as [|fuel]; [discriminate|]. simpl.
  destruct (game_ended game) eqn:Hend; intros H.
  - run_inv. match goal with E : (_, _) = (_, _) |- _ => inversion E end.
    split; auto.
  - split; [|discriminate]. intros Hmv. exfalso. subst mv. run_inv.
    match goal with p : (Move * pyval)%type |- _ => destruct p end.
    destruct ((depth =? 1) || _); run_inv;
      [match goal with E : (_, _) = (_, _) |- _ => discriminate E end|].
    match goal with
    | Hloop : for_each _ _ _ _ = Ok _ |- _ =>
        eapply (for_each_invariant
                  (minimax_body (minimax fuel) game color depth)
                  (fun _ => True) (fun _ => True)
                  (fun r => fst r <> None)) in Hloop;
        [ rename Hloop into Hinv
        | | apply Forall_forall; intros; exact I | exact I ]
    end.
    + match goal with
      | a : (_ + _)%type |- _ => destruct a as [r0|[bs bm]]
      end; run_inv.
      * subst r0. apply Hinv. reflexivity.
      * match goal with E : (_, _) = (_, _) |- _ => discriminate E end.
    + intros [bs bm] x r1 c r2 _ _ Hbody. unfold minimax_body in Hbody.
      destruct (is_checkmate _ _).
      * run_inv. subst c. discriminate.
      * run_inv.
        match goal with p : (option Move * pyval)%type |- _ =>
                          destruct p end.
        destruct (py_eq _ _).
        -- run_inv. subst c. discriminate.
        -- match goal with
           | Ht : track_best _ _ _ _ _ _ = Ok _ |- _ =>
               apply track_best_Ok in Ht;
               destruct Ht as (_ & bs' & bm' & -> & _)
           end. exact I.
Qed.



End SearchMoves.

Lemma minimax_no_move_iff_ended_witness :
  game_ended (Toy.mkGame WHITE 5) = true.
Proof.
  apply (minimax_no_move_iff_ended 2 (Toy.mkGame WHITE 5) WHITE 2 Toy.tape0
                                   None (PInt 0) Toy.tape0).
  - reflexivity.
  - reflexivity.
Defined.


(* ================================================================= *)
(** ** Further properties: the recursion of minimax, narrow windows   *)
(* ================================================================= *)

Section SearchEquations.
Context {Game : Type} {R : Rules Game}.
Hypothesis HC : Contract.
Variable node : Game -> Color -> Prop.
Hypothesis HT : SearchTree node.

Lemma fold_better_attained color : forall l a,
  (fold_left (better color) l a = a \/ In (fold_left (better color) l a) l)
  /\ at_least color (fold_left (better color) l a) a
  /\ forall y, In y l -> at_least color (fold_left (better color) l a) y.
Proof.
  induction l as [|x l IH]; intros a; simpl.
  - split; [left; reflexivity|]. split; [|intros y []].
    unfold at_least. destruct color; lia.
  - destruct (IH (better color a x)) as (Hin & Ha & Hall).
    assert (Hb : better color a x = a \/ better color a x = x)
      by (unfold better; destruct color; lia).
    split; [|split].
    + destruct Hin as [Hin|Hin]; [|right; right; exact Hin].
      rewrite Hin. destruct Hb as [Hb|Hb]; rewrite Hb; auto.
    + unfold at_least, better in *. destruct color; lia.
    + intros y [<-|Hy]; [|apply Hall; exact Hy].
      unfold at_least, better in *. destruct color; lia.
Qed.

(** The best of a non-empty list of scores within the sentinels is one
    of them and at least as good as each. *)
Lemma best_of_attained color l :
  l <> [] ->
  (forall y, In y l -> - sentinel <= y <= sentinel) ->
  In (best_of color l) l
  /\ forall y, In y l -> at_least color (best_of color l) y.
Proof.
  intros Hne Hrange. unfold best_of.
  destruct (fold_better_attained color l (wown color))
    as (Hin & _ & Hall).
  split; [|exact Hall].
  destruct Hin as [Hw|Hin]; [|exact Hin].
  destruct l as [|y l]; [congruence|].
  pose proof (Hall y (or_introl eq_refl)) as Hy.
  pose proof (Hrange y (or_introl eq_refl)) as Hr.
  rewrite Hw in *. left.
  unfold at_least, wown in *. destruct color; lia.
Qed.

(** X10. The recursion of [minimax].  On a position that has not ended
    and whose single-ply score is not the opponent's [win_score], the
    score at depth [n + 2] is the best, greatest for White and least for
    Black, of the scores [minimax] returns at depth [n + 1] on the
    positions after the legal moves. *)
Theorem minimax_is_best_of_successors (game : Game) (color : Color)
        (n : nat) :
  node game color ->
  game_ended game = false ->
  (forall rng m s rng',
      evaluated_move game color rng = Ok ((m, s), rng') ->
      s <> win_score (opposing_color color)) ->
  exists (successor_score : Move -> Z) (score : Z),
    (forall x, In x (legal_moves game color) ->
               forall fuel rng, (S n <= fuel)%nat ->
                 exists mv rng',
                   minimax fuel (make_move game x) (opposing_color color)
                           (Z.of_nat (S n)) rng
                   = Ok ((mv, PInt (successor_score x)), rng'))
    /\ (forall fuel rng, (S (S n) <= fuel)%nat ->
          exists mv rng',
            minimax fuel game color (Z.of_nat (S (S n))) rng
            = Ok ((mv, PInt score), rng'))
    /\ (exists x, In x (legal_moves game color)
                  /\ successor_score x = score)
    /\ (forall x, In x (legal_moves game color) ->
                  match color with
                  | WHITE => successor_score x <= score
                  | BLACK => score <= successor_score x
                  end).
Proof.
  intros Hnode Hend Hply.
  pose proof (st_moves node HT _ _ Hnode Hend) as Hmoves.
  set (cv := fun x => mm_value n (make_move game x) (opposing_color color)).
  exists cv, (mm_value (S n) game color).
  assert (Hval : mm_value (S n) game color
                 = best_of color (map cv (legal_moves game color))).
  { cbn [mm_value]. rewrite Hend.
    destruct (Z.eqb_spec (em_score game color) (wopp color)) as [E|E];
      [|reflexivity].
    exfalso.
    destruct (evaluated_move_score HC game color Hmoves (fun _ => 0%nat))
      as (m & rng' & Hem & _).
    apply (Hply _ _ _ _ Hem). rewrite win_score_int. fold (wopp color).
    rewrite E. reflexivity. }
  destruct (best_of_attained color (map cv (legal_moves game color)))
    as [Hin Hall].
  { intros Hnil. apply map_eq_nil in Hnil. contradiction. }
  { intros y Hy. apply in_map_iff in Hy. destruct Hy as (x & <- & _).
    apply (mm_value_range HC). }
  split; [|split; [|split]].
  - intros x Hx fuel rng Hfuel.
    apply (minimax_value HC node HT); [|exact Hfuel].
    apply (st_step node HT); assumption.
  - intros fuel rng Hfuel.
    apply (minimax_value HC node HT); assumption.
  - rewrite Hval. apply in_map_iff in Hin.
    destruct Hin as (x & Hx & Hin). exists x. auto.
  - intros x Hx. rewrite Hval.
    specialize (Hall (cv x) (in_map cv _ _ Hx)).
    unfold at_least in Hall. destruct color; exact Hall.
Qed.

(** X11. [alpha_beta] on the windows of [window].  With [s] the
    sentinel, ten times the value of the king: for [alpha] minus infinity
    or an integer with [- s <= alpha < s], [beta] plus infinity or an
    integer with [- s < beta <= s], and [alpha <= beta], [alpha_beta]
    returns an integer score within the sentinels that is the score of
    [minimax] when that score lies strictly inside the window, and lies
    on the same side of the window as the score of [minimax] otherwise.
    Other windows ([alpha] plus infinity, [beta] minus infinity, a bound
    at or beyond the far sentinel, [alpha > beta]) are left out. *)
Theorem alpha_beta_brackets_minimax (game : Game) (color : Color)
        (depth : Z) :
  node game color ->
  1 <= depth ->
  exists v,
    - sentinel <= v <= sentinel
    /\ (forall fuel rng,
           (Z.to_nat depth <= fuel)%nat ->
           exists mv rng',
             minimax fuel game color depth rng = Ok ((mv, PInt v), rng'))
    /\ forall alpha beta,
        window alpha beta ->
        forall fuel rng,
          (Z.to_nat depth <= fuel)%nat ->
          exists mv r rng',
            alpha_beta fuel game color depth alpha beta rng
            = Ok ((mv, PInt r), rng')
            /\ - sentinel <= r <= sentinel
            /\ (num alpha < v < num beta -> r = v)
            /\ (v <= num alpha -> r <= num alpha)
            /\ (num beta <= v -> num beta <= r).
Proof.
  intros Hnode Hdepth.
  set (n := Nat.pred (Z.to_nat depth)).
  assert (Hd : depth = Z.of_nat (S n)) by (unfold n; lia).
  assert (Hn : Z.to_nat depth = S n) by (unfold n; lia).
  exists (mm_value n game color).
  split; [apply (mm_value_range HC)|]. split.
  - intros fuel rng Hfuel. rewrite Hd.
    apply (minimax_value HC node HT); [exact Hnode|lia].
  - intros alpha beta Hwin fuel rng Hfuel. rewrite Hd.
    destruct (alpha_beta_answers HC node HT n fuel game color Hnode
                                 ltac:(lia)) as (_ & Hans).
    destruct (Hans alpha beta Hwin rng)
      as (mv & r & rng' & Hrun & Hr & Hb1 & Hb2 & Hb3).
    exists mv, r, rng'. auto.
Qed.

End SearchEquations.

(** From a pile of seven White's score at depth 3 is the greater of the
    scores Black gets at depth 2 from the piles of six and five. *)
Lemma minimax_is_best_of_successors_witness :
  exists (successor_score : Move -> Z) (score : Z),
    (forall x, In x (legal_moves (Toy.mkGame WHITE 7) WHITE) ->
               forall fuel rng, (2 <= fuel)%nat ->
                 exists mv rng',
                   minimax fuel (make_move (Toy.mkGame WHITE 7) x) BLACK
                           (Z.of_nat 2) rng
                   = Ok ((mv, PInt (successor_score x)), rng'))
    /\ (forall fuel rng, (3 <= fuel)%nat ->
          exists mv rng',
            minimax fuel (Toy.mkGame WHITE 7) WHITE (Z.of_nat 3) rng
            = Ok ((mv, PInt score), rng'))
    /\ (exists x, In x (legal_moves (Toy.mkGame WHITE 7) WHITE)
                  /\ successor_score x = score)
    /\ (forall x, In x (legal_moves (Toy.mkGame WHITE 7) WHITE) ->
                  successor_score x <= score).
Proof.
  apply (minimax_is_best_of_successors
           ToyFacts.contract Toy.on_turn ToyFacts.search_tree
           (Toy.mkGame WHITE 7) WHITE 1).
  - reflexivity.
  - reflexivity.
  - intros rng m s rng' H.
    unfold evaluated_move in H. apply bind_Ok in H.
    destruct H as (out & rng1 & Hloop & Hk).
    vm_compute in Hloop. inversion Hloop. subst out rng1.
    apply bind_Ok in Hk. destruct Hk as (mv & rng2 & _ & Hret).
    apply ret_Ok in Hret. destruct Hret as [Hret _].
    inversion Hret. vm_compute. discriminate.
Defined.

Lemma alpha_beta_brackets_minimax_witness :
  exists v,
    - sentinel <= v <= sentinel
    /\ (forall fuel rng,
           (Z.to_nat 3 <= fuel)%nat ->
           exists mv rng',
             minimax fuel (Toy.mkGame WHITE 7) WHITE 3 rng
             = Ok ((mv, PInt v), rng'))
    /\ forall alpha beta,
        window alpha beta ->
        forall fuel rng,
          (Z.to_nat 3 <= fuel)%nat ->
          exists mv r rng',
            alpha_beta fuel (Toy.mkGame WHITE 7) WHITE 3 alpha beta rng
            = Ok ((mv, PInt r), rng')
            /\ - sentinel <= r <= sentinel
            /\ (num alpha < v < num beta -> r = v)
            /\ (v <= num alpha -> r <= num alpha)
            /\ (num beta <= v -> num beta <= r).
Proof.
  apply (alpha_beta_brackets_minimax
           ToyFacts.contract Toy.on_turn ToyFacts.search_tree).
  - reflexivity.
  - lia.
Defined.

(* ================================================================= *)
(** ** Further properties: the driver without the book                *)
(* ================================================================= *)

Section DriverSearch.
Context {Game : Type} {R : Rules Game}.

(** X12. On a game that has ended [get_AI_move], without the book,
    has no move to give, whatever the depth: with [verbose] off it
    returns [None] and draws no random number, and with [verbose] on it
    raises [TypeError], the last [print] subscripting [None]. *)
Theorem get_AI_move_on_ended_game fuel (game : Game) depth rng :
  game_ended game = true ->
  get_AI_move (S fuel) game depth false rng
  = if verbose then Raise TypeError else Ok (None, rng).
Proof.
  intros Hend. unfold get_AI_move. cbn [alpha_beta]. rewrite Hend.
  unfold evaluate_game. rewrite Hend. unfold bind, lift, ret, trace.
  destruct verbose; reflexivity.
Qed.

Hypothesis HC : Contract.
Variable node : Game -> Color -> Prop.
Hypothesis HT : SearchTree node.

(** Once the tie list of the White loop is not empty it stays so, and
    from minus infinity the first move fills it. *)
Lemma white_loop_keeps_move rec game depth beta (cv : Move -> Z) :
  upper_bound beta ->
  forall ms,
    (forall x, In x ms ->
               answers (rec (make_move game x) BLACK (depth - 1)) (cv x)) ->
    forall alpha bm rng out rng',
      lower_bound alpha -> num alpha <= num beta ->
      bm <> [] \/ (alpha = PNegInf /\ ms <> []) ->
      for_each (alpha_beta_white_body rec game WHITE depth beta)
               ms (alpha, bm) rng = Ok (out, rng') ->
      match out with
      | inl (mv, _) => mv <> None
      | inr (_, bm') => bm' <> []
      end.
Proof.
  intros Hbeta. pose proof (sentinel_nonneg HC) as HB.
  induction ms as [|x ms IH];
    intros Hms alpha bm rng out rng' Halpha Hab Hbm Hrun.
  - simpl in Hrun. apply ret_Ok in Hrun. destruct Hrun as [-> _].
    destruct Hbm as [Hbm|[_ Hne]]; [exact Hbm|congruence].
  - destruct (Hms x (or_introl eq_refl)) as (Hv & Hcall).
    destruct (Hcall alpha beta (conj Halpha (conj Hbeta Hab)) rng)
      as (mv & r & rng1 & Hchild & Hr & _).
    pose proof (white_body_run rec game depth beta alpha bm x rng
                  mv r rng1 Halpha Hbeta Hr Hchild) as Hbody.
    cbn [for_each] in Hrun. rewrite (bind_run _ _ _ _ _ Hbody) in Hrun.
    destruct (Z.eqb_spec r sentinel) as [Hrs|Hrs].
    { apply ret_Ok in Hrun. destruct Hrun as [-> _]. discriminate. }
    destruct (Z.gtb_spec r (num alpha)) as [Hgt|Hle].
    + destruct (Z.gtb_spec r (num beta)) as [Hcut|Hnocut].
      { apply ret_Ok in Hrun. destruct Hrun as [-> _]. discriminate. }
      apply (IH (fun y Hy => Hms y (or_intror Hy)) (PInt r) [x] rng1
                out rng');
        [ right; exists r; split; [reflexivity|lia]
        | simpl; lia | left; discriminate | exact Hrun ].
    + apply (IH (fun y Hy => Hms y (or_intror Hy)) alpha
                (if r =? num alpha then bm ++ [x] else bm) rng1 out rng');
        [ exact Halpha | exact Hab | | exact Hrun ].
      left. destruct Hbm as [Hbm|[-> _]]; [|simpl in Hle; lia].
      destruct (r =? num alpha); [|exact Hbm].
      destruct bm; [congruence|discriminate].
Qed.

(** The same for the Black loop, from plus infinity. *)
Lemma black_loop_keeps_move rec game depth alpha (cv : Move -> Z) :
  lower_bound alpha ->
  forall ms,
    (forall x, In x ms ->
               answers (rec (make_move game x) WHITE (depth - 1)) (cv x)) ->
    forall beta bm rng out rng',
      upper_bound beta -> num alpha <= num beta ->
      bm <> [] \/ (beta = PPosInf /\ ms <> []) ->
      for_each (alpha_beta_black_body rec game BLACK depth alpha)
               ms (beta, bm) rng = Ok (out, rng') ->
      match out with
      | inl (mv, _) => mv <> None
      | inr (_, bm') => bm' <> []
      end.
Proof.
  intros Halpha. pose proof (sentinel_nonneg HC) as HB.
  induction ms as [|x ms IH];
    intros Hms beta bm rng out rng' Hbeta Hab Hbm Hrun.
  - simpl in Hrun. apply ret_Ok in Hrun. destruct Hrun as [-> _].
    destruct Hbm as [Hbm|[_ Hne]]; [exact Hbm|congruence].
  - destruct (Hms x (or_introl eq_refl)) as (Hv & Hcall).
    destruct (Hcall alpha beta (conj Halpha (conj Hbeta Hab)) rng)
      as (mv & r & rng1 & Hchild & Hr & _).
    pose proof (black_body_run rec game depth alpha beta bm x rng
                  mv r rng1 Halpha Hbeta Hr Hchild) as Hbody.
    cbn [for_each] in Hrun. rewrite (bind_run _ _ _ _ _ Hbody) in Hrun.
    destruct (Z.eqb_spec r (- sentinel)) as [Hrs|Hrs].
    { apply ret_Ok in Hrun. destruct Hrun as [-> _]. discriminate. }
    destruct (Z.gtb_spec (num beta) r) as [Hlt|Hge].
    + destruct (Z.gtb_spec (num alpha) r) as [Hcut|Hnocut].
      { apply ret_Ok in Hrun. destruct Hrun as [-> _]. discriminate. }
      apply (IH (fun y Hy => Hms y (or_intror Hy)) (PInt r) [x] rng1
                out rng');
        [ right; exists r; split; [reflexivity|lia]
        | simpl; lia | left; discriminate | exact Hrun ].
    + apply (IH (fun y Hy => Hms y (or_intror Hy)) beta
                (if r =? num beta then bm ++ [x] else bm) rng1 out rng');
        [ exact Hbeta | exact Hab | | exact Hrun ].
      left. destruct Hbm as [Hbm|[-> _]]; [|simpl in Hge; lia].
      destruct (r =? num beta); [|exact Hbm].
      destruct bm; [congruence|discriminate].
Qed.

(** From the window of the two infinities [alpha_beta] returns a move
    on every position that has not ended. *)
Lemma alpha_beta_root_move n fuel game color rng mv s rng' :
  node game color ->
  game_ended game = false ->
  (S n <= fuel)%nat ->
  alpha_beta fuel game color (Z.of_nat (S n)) PNegInf PPosInf rng
  = Ok ((mv, s), rng') ->
  mv <> None.
Proof.
  intros Hnode Hend Hfuel Hrun.
  pose proof (sentinel_nonneg HC) as HB.
  destruct fuel as [|fuel]; [lia|].
  cbn [alpha_beta] in Hrun. rewrite Hend in Hrun.
  apply bind_Ok in Hrun. destruct Hrun as ([m0 s0] & rng1 & Hem & Hrun).
  destruct ((Z.of_nat (S n) =? 1) || _) eqn:Htest.
  { apply ret_Ok in Hrun. destruct Hrun as [E _]. inversion E. discriminate. }
  destruct n as [|n]; [simpl in Htest; discriminate|].
  pose proof (st_moves node HT _ _ Hnode Hend) as Hmoves.
  assert (Hkids : forall x,
             In x (legal_moves game color) ->
             answers (alpha_beta fuel (make_move game x)
                                 (opposing_color color)
                                 (Z.of_nat (S (S n)) - 1))
                     (mm_value n (make_move game x)
                               (opposing_color color))).
  { intros x Hx.
    replace (Z.of_nat (S (S n)) - 1) with (Z.of_nat (S n)) by lia.
    apply (alpha_beta_answers HC node HT); [|lia].
    apply (st_step node HT); assumption. }
  cbv zeta in Hrun. destruct color.
  - apply bind_Ok in Hrun. destruct Hrun as (out & rng2 & Hloop & Hrun).
    pose proof (white_loop_keeps_move
                  (alpha_beta fuel) game (Z.of_nat (S (S n))) PPosInf _
                  (or_introl eq_refl) _ Hkids PNegInf [] rng1 out rng2
                  (or_introl eq_refl)) as Hkeep.
    specialize (Hkeep ltac:(simpl; lia) (or_intror (conj eq_refl Hmoves))
                      Hloop).
    destruct out as [[mv0 s1]|[a bm]].
    + apply ret_Ok in Hrun. destruct Hrun as [E _]. inversion E.
      subst. exact Hkeep.
    + destruct bm as [|m1 bm]; [congruence|].
      simpl in Hrun. apply bind_Ok in Hrun.
      destruct Hrun as (m2 & rng3 & _ & Hret).
      apply ret_Ok in Hret. destruct Hret as [E _]. inversion E.
      discriminate.
  - apply bind_Ok in Hrun. destruct Hrun as (out & rng2 & Hloop & Hrun).
    pose proof (black_loop_keeps_move
                  (alpha_beta fuel) game (Z.of_nat (S (S n))) PNegInf _
                  (or_introl eq_refl) _ Hkids PPosInf [] rng1 out rng2
                  (or_introl eq_refl)) as Hkeep.
    specialize (Hkeep ltac:(simpl; lia) (or_intror (conj eq_refl Hmoves))
                      Hloop).
    destruct out as [[mv0 s1]|[a bm]].
    + apply ret_Ok in Hrun. destruct Hrun as [E _]. inversion E.
      subst. exact Hkeep.
    + destruct bm as [|m1 bm]; [congruence|].
      simpl in Hrun. apply bind_Ok in Hrun.
      destruct Hrun as (m2 & rng3 & _ & Hret).
      apply ret_Ok in Hret. destruct Hret as [E _]. inversion E.
      discriminate.
Qed.

(** X13. On every position that has not ended, for the side to move and
    every depth of at least 1, [get_AI_move] without the book returns a
    move, never [None] and never an exception, and the move is a legal
    move of the side to move. *)
Theorem get_AI_move_returns_legal_move fuel (game : Game) depth rng :
  node game (to_move game) ->
  game_ended game = false ->
  1 <= depth ->
  (Z.to_nat depth <= fuel)%nat ->
  exists m rng',
    get_AI_move fuel game depth false rng = Ok (Some m, rng')
    /\ In m (legal_moves game (to_move game)).
Proof.
  intros Hnode Hend Hdepth Hfuel.
  set (n := Nat.pred (Z.to_nat depth)).
  assert (Hd : depth = Z.of_nat (S n)) by (unfold n; lia).
  destruct (alpha_beta_answers HC node HT n fuel game (to_move game) Hnode
                               ltac:(lia)) as (_ & Hans).
  destruct (Hans PNegInf PPosInf) with (rng := rng)
    as (mv & r & rng' & Hrun & _).
  { pose proof (sentinel_nonneg HC).
    split; [left; reflexivity|]. split; [left; reflexivity|]. simpl. lia. }
  pose proof (alpha_beta_root_move n fuel game (to_move game) rng mv _ rng'
                Hnode Hend ltac:(lia) Hrun) as Hmv.
  destruct mv as [m|]; [|congruence].
  assert (Htrace : trace game (Some m) = Ok tt).
  { unfold trace, found_move_trace. destruct verbose; [|reflexivity].
    destruct (evaluate_game_int HC game) as [E _].
    destruct (evaluate_game_int HC (make_move game m)) as [E' _].
    rewrite E, E'. reflexivity. }
  exists m, rng'. split.
  - unfold get_AI_move. rewrite Hd.
    rewrite (bind_run _ _ _ _ _
               (bind_run _ (fun '(m0, _) => ret (Some m0)) _ _ _ Hrun)).
    cbv iota beta. unfold bind, lift. rewrite Htrace. reflexivity.
  - apply alpha_beta_legal in Hrun. apply Hrun. reflexivity.
Qed.

End DriverSearch.

(** The stalemate of the pile of five, with the tracing off and on. *)
Lemma get_AI_move_on_ended_game_witness :
  get_AI_move 1 (Toy.mkGame WHITE 5) 2 false Toy.tape0
  = Ok (None, Toy.tape0)
  /\ @get_AI_move _ (with_verbose Toy.rules true) 1 (Toy.mkGame WHITE 5) 2
                  false Toy.tape0
     = Raise TypeError.
Proof.
  split.
  - refine (get_AI_move_on_ended_game 0 (Toy.mkGame WHITE 5) 2 Toy.tape0
                                      _).
    reflexivity.
  - refine (@get_AI_move_on_ended_game _ (with_verbose Toy.rules true)
              0 (Toy.mkGame WHITE 5) 2 Toy.tape0 _).
    reflexivity.
Defined.

Lemma get_AI_move_returns_legal_move_witness :
  exists m rng',
    get_AI_move 2 (Toy.mkGame WHITE 7) 2 false Toy.tape0
    = Ok (Some m, rng')
    /\ In m (legal_moves (Toy.mkGame WHITE 7)
                         (to_move (Toy.mkGame WHITE 7))).
Proof.
  apply (get_AI_move_returns_legal_move
           ToyFacts.contract Toy.on_turn ToyFacts.search_tree).
  - reflexivity.
  - reflexivity.
  - lia.
  - simpl. lia.
Defined.

(* ================================================================= *)
(** ** Further properties: which move alpha-beta returns              *)
(* ================================================================= *)

Section ReturnedMove.
Context {Game : Type} {R : Rules Game}.
Hypothesis HC : Contract.
Variable node : Game -> Color -> Prop.
Hypothesis HT : SearchTree node.

(** At depth 1 [alpha_beta] returns the score of [minimax] whatever the
    window. *)
Lemma alpha_beta_depth_one fuel game color alpha beta rng :
  node game color ->
  exists mv rng',
    alpha_beta (S fuel) game color 1 alpha beta rng
    = Ok ((mv, PInt (mm_value 0 game color)), rng').
Proof.
  intros Hnode. cbn [alpha_beta mm_value].
  destruct (game_ended game) eqn:Hend.
  - destruct (evaluate_game_int HC game) as [E _].
    eexists _, _. unfold bind. rewrite (lift_run _ _ rng E). reflexivity.
  - destruct (evaluated_move_score HC game color
                (st_moves node HT _ _ Hnode Hend) rng)
      as (m & rng1 & Hem & _).
    eexists _, _. rewrite (bind_run _ _ _ _ _ Hem). reflexivity.
Qed.

(** When the recursive call returns the same score on every window, the
    moves the White loop keeps, and the move it returns, are moves whose
    score is the loop's. *)
Lemma white_loop_exact rec game depth beta (cv : Move -> Z) :
  upper_bound beta ->
  forall ms,
    (forall x, In x ms ->
               - sentinel <= cv x <= sentinel
               /\ forall a b rng, exists mv rng1,
                   rec (make_move game x) BLACK (depth - 1) a b rng
                   = Ok ((mv, PInt (cv x)), rng1)) ->
    forall alpha bm rng out rng',
      lower_bound alpha ->
      (forall m, In m bm -> PInt (cv m) = alpha) ->
      for_each (alpha_beta_white_body rec game WHITE depth beta)
               ms (alpha, bm) rng = Ok (out, rng') ->
      match out with
      | inl (mv, s) => exists m, mv = Some m /\ s = PInt (cv m)
      | inr (a, bm') => forall m, In m bm' -> PInt (cv m) = a
      end.
Proof.
  intros Hbeta.
  induction ms as [|x ms IH];
    intros Hms alpha bm rng out rng' Halpha Hbm Hrun.
  - simpl in Hrun. apply ret_Ok in Hrun. destruct Hrun as [-> _].
    exact Hbm.
  - destruct (Hms x (or_introl eq_refl)) as (Hr & Hcall).
    destruct (Hcall alpha beta rng) as (mv & rng1 & Hchild).
    pose proof (white_body_run rec game depth beta alpha bm x rng
                  mv (cv x) rng1 Halpha Hbeta Hr Hchild) as Hbody.
    cbn [for_each] in Hrun. rewrite (bind_run _ _ _ _ _ Hbody) in Hrun.
    destruct (Z.eqb_spec (cv x) sentinel) as [Hrs|Hrs].
    { apply ret_Ok in Hrun. destruct Hrun as [-> _]. eauto. }
    destruct (Z.gtb_spec (cv x) (num alpha)) as [Hgt|Hle].
    + assert (Hone : forall m, In m [x] -> PInt (cv m) = PInt (cv x))
        by (intros m [<-|[]]; reflexivity).
      destruct (Z.gtb_spec (cv x) (num beta)) as [Hcut|Hnocut].
      { apply ret_Ok in Hrun. destruct Hrun as [-> _]. exact Hone. }
      apply (IH (fun y Hy => Hms y (or_intror Hy)) (PInt (cv x)) [x] rng1
                out rng');
        [ right; exists (cv x); split; [reflexivity|lia]
        | exact Hone | exact Hrun ].
    + apply (IH (fun y Hy => Hms y (or_intror Hy)) alpha
                (if cv x =? num alpha then bm ++ [x] else bm) rng1
                out rng'); [exact Halpha| |exact Hrun].
      intros m Hm. destruct (Z.eqb_spec (cv x) (num alpha)) as [E|E];
        [|apply Hbm; exact Hm].
      apply in_app_or in Hm. destruct Hm as [Hm|[<-|[]]];
        [apply Hbm; exact Hm|].
      destruct Halpha as [->|(a & -> & _)]; [simpl in E; lia|].
      simpl in E. rewrite E. reflexivity.
Qed.

Lemma black_loop_exact rec game depth alpha (cv : Move -> Z) :
  lower_bound alpha ->
  forall ms,
    (forall x, In x ms ->
               - sentinel <= cv x <= sentinel
               /\ forall a b rng, exists mv rng1,
                   rec (make_move game x) WHITE (depth - 1) a b rng
                   = Ok ((mv, PInt (cv x)), rng1)) ->
    forall beta bm rng out rng',
      upper_bound beta ->
      (forall m, In m bm -> PInt (cv m) = beta) ->
      for_each (alpha_beta_black_body rec game BLACK depth alpha)
               ms (beta, bm) rng = Ok (out, rng') ->
      match out with
      | inl (mv, s) => exists m, mv = Some m /\ s = PInt (cv m)
      | inr (b, bm') => forall m, In m bm' -> PInt (cv m) = b
      end.
Proof.
  intros Halpha.
  induction ms as [|x ms IH];
    intros Hms beta bm rng out rng' Hbeta Hbm Hrun.
  - simpl in Hrun. apply ret_Ok in Hrun. destruct Hrun as [-> _].
    exact Hbm.
  - destruct (Hms x (or_introl eq_refl)) as (Hr & Hcall).
    destruct (Hcall alpha beta rng) as (mv & rng1 & Hchild).
    pose proof (black_body_run rec game depth alpha beta bm x rng
                  mv (cv x) rng1 Halpha Hbeta Hr Hchild) as Hbody.
    cbn [for_each] in Hrun. rewrite (bind_run _ _ _ _ _ Hbody) in Hrun.
    destruct (Z.eqb_spec (cv x) (- sentinel)) as [Hrs|Hrs].
    { apply ret_Ok in Hrun. destruct Hrun as [-> _]. eauto. }
    destruct (Z.gtb_spec (num beta) (cv x)) as [Hlt|Hge].
    + assert (Hone : forall m, In m [x] -> PInt (cv m) = PInt (cv x))
        by (intros m [<-|[]]; reflexivity).
      destruct (Z.gtb_spec (num alpha) (cv x)) as [Hcut|Hnocut].
      { apply ret_Ok in Hrun. destruct Hrun as [-> _]. exact Hone. }
      apply (IH (fun y Hy => Hms y (or_intror Hy)) (PInt (cv x)) [x] rng1
                out rng');
        [ right; exists (cv x); split; [reflexivity|lia]
        | exact Hone | exact Hrun ].
    + apply (IH (fun y Hy => Hms y (or_intror Hy)) beta
                (if cv x =? num beta then bm ++ [x] else bm) rng1
                out rng'); [exact Hbeta| |exact Hrun].
      intros m Hm. destruct (Z.eqb_spec (cv x) (num beta)) as [E|E];
        [|apply Hbm; exact Hm].
      apply in_app_or in Hm. destruct Hm as [Hm|[<-|[]]];
        [apply Hbm; exact Hm|].
      destruct Hbeta as [->|(b & -> & _)]; [simpl in E; lia|].
      simpl in E. rewrite E. reflexivity.
Qed.

(** X14. At depth 2, the depth [get_AI_move] searches by default, the
    move [alpha_beta] returns from the window of the two infinities is a
    best move: the score [minimax] gives at depth 1 to the position after
    it is the score returned, which is the score [minimax] gives at depth
    2 to the position itself.  The static evaluations of games that have
    not ended are taken strictly inside the sentinels. *)
Theorem default_depth_move_is_best (game : Game) (color : Color)
        fuel rng m s rng' :
  node game color ->
  game_ended game = false ->
  (forall g z, game_ended g = false -> evaluate_game g = Ok (PInt z) ->
               - sentinel < z < sentinel) ->
  (2 <= fuel)%nat ->
  alpha_beta fuel game color 2 PNegInf PPosInf rng = Ok ((Some m, s), rng') ->
  In m (legal_moves game color)
  /\ exists z,
      s = PInt z
      /\ (forall fuel2 rng2, (1 <= fuel2)%nat ->
            exists mv rng2',
              minimax fuel2 (make_move game m) (opposing_color color) 1 rng2
              = Ok ((mv, PInt z), rng2'))
      /\ (forall fuel2 rng2, (2 <= fuel2)%nat ->
            exists mv rng2',
              minimax fuel2 game color 2 rng2 = Ok ((mv, PInt z), rng2')).
Proof.
  intros Hnode Hend Hstrict Hfuel Hrun.
  pose proof (sentinel_nonneg HC) as HB.
  assert (Hin : In m (legal_moves game color)).
  { apply alpha_beta_legal in Hrun. apply Hrun. reflexivity. }
  split; [exact Hin|].
  assert (Hsucc : node (make_move game m) (opposing_color color))
    by (apply (st_step node HT); assumption).
  (* the score is that of minimax *)
  assert (Hs : s = PInt (mm_value 1 game color)).
  { destruct (alpha_beta_answers HC node HT 1 fuel game color Hnode Hfuel)
      as (Hv & Hans).
    destruct (Hans PNegInf PPosInf) with (rng := rng)
      as (mv & r & rng1 & Hrun' & Hr & Hbr).
    { split; [left; reflexivity|]. split; [left; reflexivity|].
      simpl. lia. }
    change (Z.of_nat 2) with 2 in Hrun'. rewrite Hrun in Hrun'.
    inversion Hrun'. unfold bracket in Hbr. cbn [num] in Hbr.
    f_equal. lia. }
  exists (mm_value 1 game color). split; [exact Hs|].
  split.
  2:{ intros fuel2 rng2 Hf2.
      apply (minimax_value HC node HT 1 fuel2 game color Hnode Hf2). }
  (* the successor's score is the same *)
  assert (Hm : mm_value 0 (make_move game m) (opposing_color color)
               = mm_value 1 game color).
  { subst s. destruct fuel as [|fuel]; [lia|].
    cbn [alpha_beta] in Hrun. rewrite Hend in Hrun.
    pose proof (st_moves node HT _ _ Hnode Hend) as Hmoves.
    destruct (evaluated_move_score HC game color Hmoves rng)
      as (m0 & rng1 & Hem & _ & Hev0).
    rewrite (bind_run _ _ _ _ _ Hem) in Hrun.
    rewrite win_score_int in Hrun. fold (wopp color) in Hrun.
    change (py_eq (PInt (em_score game color)) (PInt (wopp color)))
      with (em_score game color =? wopp color) in Hrun.
    change (2 =? 1) with false in Hrun. cbn [orb] in Hrun.
    destruct (Z.eqb_spec (em_score game color) (wopp color)) as [Ew|Ew].
    - (* a winning single-ply score: the ranker's move *)
      apply ret_Ok in Hrun. destruct Hrun as [E _].
      assert (Em : m0 = m) by congruence.
      assert (Es : em_score game color = mm_value 1 game color)
        by congruence.
      subst m0. rewrite <- Es.
      destruct (game_ended (make_move game m)) eqn:Hend'.
      + rewrite mm_value_ended by exact Hend'. exact Hev0.
      + exfalso.
        destruct (evaluate_game_int HC (make_move game m)) as [Eg _].
        pose proof (Hstrict _ _ Hend' Eg) as Hlt.
        rewrite Hev0, Ew in Hlt. unfold wopp, wown in Hlt.
        destruct color; simpl in Hlt; lia.
    - (* the loops, over successors searched at depth 1 *)
      destruct fuel as [|fuel]; [lia|].
      set (cv := fun x => mm_value 0 (make_move game x)
                                   (opposing_color color)).
      assert (Hkids : forall x,
                 In x (legal_moves game color) ->
                 - sentinel <= cv x <= sentinel
                 /\ forall a b rng0, exists mv rng1',
                     alpha_beta (S fuel) (make_move game x)
                                (opposing_color color) (2 - 1) a b rng0
                     = Ok ((mv, PInt (cv x)), rng1')).
      { intros x Hx. split; [apply (mm_value_range HC)|].
        intros a b rng0. change (2 - 1) with 1.
        apply alpha_beta_depth_one.
        apply (st_step node HT); assumption. }
      cbv zeta in Hrun. destruct color.
      + apply bind_Ok in Hrun.
        destruct Hrun as (out & rng2 & Hloop & Hrun).
        pose proof (white_loop_exact
                      (alpha_beta (S fuel)) game 2 PPosInf cv
                      (or_introl eq_refl) _ Hkids PNegInf [] rng1 out rng2
                      (or_introl eq_refl)) as Hexact.
        specialize (Hexact (fun m0 (H0 : In m0 []) => match H0 with end)
                           Hloop).
        destruct out as [[mv0 s1]|[a bm]].
        * apply ret_Ok in Hrun. destruct Hrun as [E _].
          destruct Hexact as (m1 & Em & Es).
          assert (E1 : m1 = m) by congruence. subst m1.
          unfold cv in Es. congruence.
        * destruct bm as [|m1 bm].
          -- simpl in Hrun. apply ret_Ok in Hrun.
             destruct Hrun as [E _]. discriminate E.
          -- apply bind_Ok in Hrun.
             destruct Hrun as (m2 & rng3 & Hch & Hret).
             apply ret_Ok in Hret. destruct Hret as [E _].
             assert (E1 : m2 = m) by congruence. subst m2.
             apply choice_In in Hch. specialize (Hexact _ Hch).
             unfold cv in Hexact. congruence.
      + apply bind_Ok in Hrun.
        destruct Hrun as (out & rng2 & Hloop & Hrun).
        pose proof (black_loop_exact
                      (alpha_beta (S fuel)) game 2 PNegInf cv
                      (or_introl eq_refl) _ Hkids PPosInf [] rng1 out rng2
                      (or_introl eq_refl)) as Hexact.
        specialize (Hexact (fun m0 (H0 : In m0 []) => match H0 with end)
                           Hloop).
        destruct out as [[mv0 s1]|[a bm]].
        * apply ret_Ok in Hrun. destruct Hrun as [E _].
          destruct Hexact as (m1 & Em & Es).
          assert (E1 : m1 = m) by congruence. subst m1.
          unfold cv in Es. congruence.
        * destruct bm as [|m1 bm].
          -- simpl in Hrun. apply ret_Ok in Hrun.
             destruct Hrun as [E _]. discriminate E.
          -- apply bind_Ok in Hrun.
             destruct Hrun as (m2 & rng3 & Hch & Hret).
             apply ret_Ok in Hret. destruct Hret as [E _].
             assert (E1 : m2 = m) by congruence. subst m2.
             apply choice_In in Hch. specialize (Hexact _ Hch).
             unfold cv in Hexact. congruence. }
  intros fuel2 rng2 Hf2. rewrite <- Hm.
  apply (minimax_value HC node HT 0 fuel2 _ _ Hsucc Hf2).
Qed.

End ReturnedMove.

(** From a pile of eight at depth 2 the first move is returned, and the
    pile of seven it leaves scores 0 for Black at depth 1. *)
Lemma default_depth_move_is_best_witness :
  In (1, 0) (legal_moves (Toy.mkGame WHITE 8) WHITE)
  /\ exists z,
      PInt 0 = PInt z
      /\ (forall fuel2 rng2, (1 <= fuel2)%nat ->
            exists mv rng2',
              minimax fuel2 (make_move (Toy.mkGame WHITE 8) (1, 0))
                      (opposing_color WHITE) 1 rng2
              = Ok ((mv, PInt z), rng2'))
      /\ (forall fuel2 rng2, (2 <= fuel2)%nat ->
            exists mv rng2',
              minimax fuel2 (Toy.mkGame WHITE 8) WHITE 2 rng2
              = Ok ((mv, PInt z), rng2')).
Proof.
  apply (default_depth_move_is_best
           ToyFacts.contract Toy.on_turn ToyFacts.search_tree
           (Toy.mkGame WHITE 8) WHITE 2 Toy.tape0 (1, 0) (PInt 0)
           Toy.tape0).
  - reflexivity.
  - reflexivity.
  - intros g z Hend Hev. unfold evaluate_game in Hev. rewrite Hend in Hev.
    destruct (ToyFacts.static_evaluation g) as [Hp Hm].
    rewrite Hp, Hm in Hev. simpl in Hev.
    destruct (Nat.even (Toy.stones g)); inversion Hev; subst;
      vm_compute; split; reflexivity.
  - lia.
  - vm_compute. reflexivity.
Defined.


(* ================================================================= *)
(** ** Further properties: the opening book                           *)
(* ================================================================= *)

Section BookFacts.
Context {Game : Type} {R : Rules Game}.

Lemma scan_book_filter move_list : forall lines openings,
  scan_book move_list lines openings
  = openings
    ++ map PyStr.rstrip (filter (book_line_matches move_list) lines).
Proof.
  induction lines as [|line lines IH]; intros openings; simpl.
  - rewrite app_nil_r. reflexivity.
  - unfold book_line_matches at 1.
    destruct (PyStr.startswith line move_list
              && PyStr.gt (PyStr.rstrip line) move_list); rewrite IH.
    + rewrite <- app_assoc. reflexivity.
    + reflexivity.
Qed.

Lemma str_eqb_eq : forall a b, PyStr.eqb a b = true <-> a = b.
Proof.
  induction a as [|x a IH]; intros [|y b]; simpl.
  - split; intros _; reflexivity.
  - split; discriminate.
  - split; discriminate.
  - rewrite andb_true_iff, N.eqb_eq, IH.
    split; [intros [-> ->]; reflexivity|intros E; inversion E; auto].
Qed.

Lemma str_eqb_refl a : PyStr.eqb a a = true.
Proof. apply str_eqb_eq. reflexivity. Qed.

Lemma str_eqb_neq a b : a <> b -> PyStr.eqb a b = false.
Proof.
  intros Hne. destruct (PyStr.eqb a b) eqn:E; [|reflexivity].
  apply str_eqb_eq in E. contradiction.
Qed.

(** X16. What [find_in_book] does.  An empty position history raises
    [IndexError]; a game that did not start from the initial position
    gets [False] without the book file being opened, so even when it is
    missing; from the initial position a missing file raises
    [FileNotFoundError], and otherwise the result is the list, in the
    order of the file, of the right-stripped lines that start with the
    move list and whose stripped text is greater than it. *)
Theorem find_in_book_outcomes (game : Game) :
  (position_history game = [] -> find_in_book game = Raise IndexError)
  /\ (forall first rest,
         position_history game = first :: rest ->
         first <> INITIAL_FEN ->
         find_in_book game = Ok BookFalse)
  /\ (forall rest,
         position_history game = INITIAL_FEN :: rest ->
         book_txt = None ->
         find_in_book game = Raise FileNotFoundError)
  /\ (forall rest lines,
         position_history game = INITIAL_FEN :: rest ->
         book_txt = Some lines ->
         find_in_book game
         = Ok (BookOpenings
                 (map PyStr.rstrip
                      (filter (book_line_matches (get_move_list game))
                              lines)))).
Proof.
  unfold find_in_book. split; [|split; [|split]].
  - intros ->. reflexivity.
  - intros first rest -> Hne. rewrite (str_eqb_neq _ _ Hne). reflexivity.
  - intros rest -> ->. rewrite str_eqb_refl. reflexivity.
  - intros rest lines -> ->. rewrite str_eqb_refl. simpl.
    rewrite scan_book_filter. reflexivity.
Qed.

Lemma rstrip_idempotent : forall s,
  PyStr.rstrip (PyStr.rstrip s) = PyStr.rstrip s.
Proof.
  induction s as [|c s IH]; simpl; [reflexivity|].
  destruct (PyStr.rstrip s) as [|c' t] eqn:Ht.
  - destruct (PyStr.is_space c) eqn:Hc; simpl; [reflexivity|].
    rewrite Hc. reflexivity.
  - change (PyStr.rstrip (c :: c' :: t) = c :: c' :: t).
    cbn [PyStr.rstrip]. cbn [PyStr.rstrip] in IH. rewrite IH.
    reflexivity.
Qed.

(** What [rstrip] leaves is empty or ends in a character that is not
    white space. *)
Lemma rstrip_ends : forall s,
  PyStr.rstrip s = []
  \/ exists body c,
      PyStr.rstrip s = body ++ [c] /\ PyStr.is_space c = false.
Proof.
  induction s as [|c s IH]; [left; reflexivity|].
  cbn [PyStr.rstrip]. destruct IH as [->|(body & c0 & -> & Hc0)].
  - destruct (PyStr.is_space c) eqn:Hc; [left; reflexivity|].
    right. exists [], c. split; [reflexivity|exact Hc].
  - right. exists (c :: body), c0. split; [|exact Hc0].
    destruct body; reflexivity.
Qed.

Lemma prefix_refl : forall s, PyStr.prefix s s = true.
Proof.
  induction s as [|c s IH]; simpl; [reflexivity|].
  rewrite N.eqb_refl. exact IH.
Qed.

Lemma rstrip_prefix : forall s, PyStr.prefix (PyStr.rstrip s) s = true.
Proof.
  induction s as [|c s IH]; [reflexivity|].
  cbn [PyStr.rstrip]. destruct (PyStr.rstrip s) as [|c' t].
  - destruct (PyStr.is_space c); [reflexivity|].
    simpl. rewrite N.eqb_refl. reflexivity.
  - cbn [PyStr.prefix]. rewrite N.eqb_refl. exact IH.
Qed.

(** Two prefixes of one string: one is a prefix of the other. *)
Lemma prefix_comparable : forall s a b,
  PyStr.prefix a s = true -> PyStr.prefix b s = true ->
  PyStr.prefix a b = true \/ PyStr.prefix b a = true.
Proof.
  induction s as [|c s IH]; intros a b Ha Hb.
  - destruct a; [left; reflexivity|discriminate].
  - destruct a as [|ca a]; [left; reflexivity|].
    destruct b as [|cb b]; [right; reflexivity|].
    simpl in Ha, Hb. apply andb_true_iff in Ha, Hb.
    destruct Ha as [Ea Ha], Hb as [Eb Hb].
    apply N.eqb_eq in Ea, Eb. subst. simpl. rewrite N.eqb_refl. simpl.
    apply IH; assumption.
Qed.

Lemma compare_antisym : forall a b,
  PyStr.compare a b = CompOpp (PyStr.compare b a).
Proof.
  induction a as [|x a IH]; intros [|y b]; simpl; try reflexivity.
  rewrite (N.compare_antisym y x).
  destruct (y ?= x)%N; simpl; [apply IH|reflexivity|reflexivity].
Qed.

Lemma compare_refl : forall a, PyStr.compare a a = Eq.
Proof.
  induction a as [|x a IH]; simpl; [reflexivity|].
  rewrite N.compare_refl. exact IH.
Qed.

(** A string is greater than its proper prefixes. *)
Lemma prefix_less : forall a b,
  PyStr.prefix a b = true -> a <> b -> PyStr.gt b a = true.
Proof.
  unfold PyStr.gt.
  induction a as [|x a IH]; intros b Hp Hne.
  - destruct b; [congruence|reflexivity].
  - destruct b as [|y b]; [discriminate|].
    simpl in Hp. apply andb_true_iff in Hp. destruct Hp as [E Hp].
    apply N.eqb_eq in E. subst y.
    simpl. rewrite N.compare_refl. apply IH; [exact Hp|congruence].
Qed.

Lemma gt_asymmetric a b : PyStr.gt a b = true -> PyStr.gt b a = false.
Proof.
  unfold PyStr.gt. rewrite (compare_antisym a b).
  destruct (PyStr.compare b a); simpl; congruence.
Qed.

(** A line of the book that passes the test of [find_in_book] yields an
    opening that strictly extends the move list. *)
Lemma matching_line_extends move_list line :
  book_line_matches move_list line = true ->
  PyStr.prefix move_list (PyStr.rstrip line) = true
  /\ PyStr.rstrip line <> move_list.
Proof.
  unfold book_line_matches, PyStr.startswith.
  intros H. apply andb_true_iff in H. destruct H as [Hstart Hgt].
  assert (Hne : PyStr.rstrip line <> move_list).
  { intros E. rewrite E in Hgt. pose proof (gt_asymmetric _ _ Hgt).
    congruence. }
  split; [|exact Hne].
  destruct (prefix_comparable line move_list (PyStr.rstrip line) Hstart
                              (rstrip_prefix line)) as [Hp|Hp];
    [exact Hp|].
  pose proof (prefix_less _ _ Hp Hne) as Hlt.
  pose proof (gt_asymmetric _ _ Hlt). congruence.
Qed.

(** X17. Every opening [find_in_book] returns is the right-stripped
    text of a line of the book, ends in a character that is not white
    space, starts with the move list of the game and differs from it: the
    book always has a continuation to offer. *)
Theorem book_openings_extend_move_list (game : Game)
        (openings : list PyStr.str) (opening : PyStr.str) :
  find_in_book game = Ok (BookOpenings openings) ->
  In opening openings ->
  (exists lines line,
      book_txt = Some lines /\ In line lines
      /\ opening = PyStr.rstrip line)
  /\ PyStr.rstrip opening = opening
  /\ (exists body c,
         opening = body ++ [c] /\ PyStr.is_space c = false)
  /\ PyStr.prefix (get_move_list game) opening = true
  /\ opening <> get_move_list game.
Proof.
  unfold find_in_book. intros Hfind Hin.
  destruct (position_history game) as [|first rest]; [discriminate|].
  destruct (negb (PyStr.eqb first INITIAL_FEN)); [discriminate|].
  destruct book_txt as [lines|]; [|discriminate].
  inversion Hfind as [Hos]. clear Hfind.
  rewrite scan_book_filter in Hos. simpl in Hos. subst openings.
  apply in_map_iff in Hin. destruct Hin as (line & <- & Hline).
  apply filter_In in Hline. destruct Hline as [Hline Hmatch].
  destruct (matching_line_extends _ _ Hmatch) as [Hp Hne].
  split; [exists lines, line; auto|].
  split; [apply rstrip_idempotent|].
  split; [|split; assumption].
  destruct (rstrip_ends line) as [E|Hends]; [|exact Hends].
  exfalso. rewrite E in Hp, Hne.
  destruct (get_move_list game); [congruence|discriminate].
Qed.

(** X18. With the book in use and a truthy answer of [find_in_book],
    [get_AI_move] runs no search and does not compare the move with the
    legal moves: for every fuel, depth and tape it decodes the move from
    one of the openings and returns it after the trace, that is straight
    away with [verbose] off, and with [verbose] on unless [evaluate_game]
    raises on the game or on the game after the move.  With [verbose]
    off each opening can be the one chosen. *)
Theorem get_AI_move_book_hit (game : Game) (openings : list PyStr.str) :
  find_in_book game = Ok (BookOpenings openings) ->
  openings <> [] ->
  (forall fuel depth rng,
      exists opening rng',
        In opening openings
        /\ get_AI_move fuel game depth true rng
           = res_bind
               (trace game
                      (Some (book_move_of (get_move_list game) opening)))
               (fun _ =>
                  Ok (Some (book_move_of (get_move_list game) opening),
                      rng'))
        /\ (verbose = false ->
            get_AI_move fuel game depth true rng
            = Ok (Some (book_move_of (get_move_list game) opening), rng')))
  /\ (verbose = false ->
      forall opening,
        In opening openings ->
        forall fuel depth,
        exists rng rng',
          get_AI_move fuel game depth true rng
          = Ok (Some (book_move_of (get_move_list game) opening), rng')).
Proof.
  intros Hfind Hne.
  assert (Htruthy : truthy (BookOpenings openings) = true)
    by (destruct openings; [congruence|reflexivity]).
  assert (Hrun : forall fuel depth rng opening rng',
             choice openings rng = Ok (opening, rng') ->
             get_AI_move fuel game depth true rng
             = res_bind
                 (trace game
                        (Some (book_move_of (get_move_list game) opening)))
                 (fun _ =>
                    Ok (Some (book_move_of (get_move_list game) opening),
                        rng'))).
  { intros fuel depth rng opening rng' Hch.
    unfold get_AI_move, get_book_move, book_move_of.
    unfold bind at 1. unfold bind at 1. unfold bind at 1.
    rewrite (lift_run _ _ rng Hfind). rewrite Htruthy.
    unfold bind at 1. unfold bind at 1.
    rewrite (lift_run _ _ rng Hfind).
    unfold bind at 1. rewrite Hch. cbv zeta. unfold ret at 1 2.
    unfold bind, lift.
    destruct (trace game _); reflexivity. }
  assert (Hquiet : forall (m : Move) (rng' : Rng),
             verbose = false ->
             res_bind (trace game (Some m))
                      (fun _ => Ok (Some m, rng'))
             = Ok (Some m, rng')).
  { intros m rng' Hv. unfold trace. rewrite Hv. reflexivity. }
  split.
  - intros fuel depth rng.
    destruct (choice_total openings rng Hne)
      as (opening & rng' & Hch & Hin).
    exists opening, rng'. split; [exact Hin|].
    split; [apply Hrun; exact Hch|].
    intros Hv. rewrite (Hrun _ _ _ _ _ Hch). apply Hquiet. exact Hv.
  - intros Hv opening Hin fuel depth.
    destruct (choice_any openings opening Hin) as (rng & rng' & Hch).
    exists rng, rng'. rewrite (Hrun _ _ _ _ _ Hch). apply Hquiet.
    exact Hv.
Qed.

Lemma prefix_append : forall a t, PyStr.prefix a (a ++ t) = true.
Proof.
  induction a as [|c a IH]; intros t; simpl; [reflexivity|].
  rewrite N.eqb_refl. apply IH.
Qed.

(** The characters of an occurrence under way are dropped. *)
Lemma remove_from_skip old : forall a rest,
  PyStr.remove_from old (a ++ rest) (List.length a)
  = PyStr.remove_from old rest 0.
Proof.
  induction a as [|c a IH]; intros rest; simpl; [reflexivity|apply IH].
Qed.

(** Without an occurrence nothing is removed. *)
Lemma remove_from_absent old : forall s,
  occurs_in old s = false -> PyStr.remove_from old s 0 = s.
Proof.
  induction s as [|c s IH]; intros H; [reflexivity|].
  cbn [occurs_in] in H. apply orb_false_iff in H. destruct H as [Hp Hs].
  cbn [PyStr.remove_from]. rewrite Hp, (IH Hs). reflexivity.
Qed.

Lemma remove_leading old rest :
  old <> [] ->
  PyStr.remove (old ++ rest) old = PyStr.remove_from old rest 0.
Proof.
  destruct old as [|c o]; [congruence|]. intros _.
  unfold PyStr.remove.
  change ((c :: o) ++ rest) with (c :: (o ++ rest)).
  cbn [PyStr.remove_from].
  change (c :: (o ++ rest)) with ((c :: o) ++ rest).
  rewrite prefix_append.
  replace (List.length (c :: o) - 1)%nat with (List.length o)
    by (simpl; lia).
  apply remove_from_skip.
Qed.

Lemma lstrip_no_blank mv tail :
  mv <> [] -> no_blank mv = true ->
  PyStr.lstrip (mv ++ tail) = mv ++ tail.
Proof.
  destruct mv as [|c mv]; [congruence|]. intros _ H. simpl in H.
  apply andb_true_iff in H. destruct H as [Hc _].
  apply negb_true_iff in Hc. simpl. rewrite Hc. reflexivity.
Qed.

Lemma first_field_no_blank tail :
  tail = [] \/ (exists t, tail = 32%N :: t) ->
  forall mv, no_blank mv = true ->
  PyStr.first_field (mv ++ tail) = mv.
Proof.
  intros Htail. induction mv as [|c mv IH]; intros H.
  - destruct Htail as [->|[t ->]]; reflexivity.
  - simpl in H. apply andb_true_iff in H. destruct H as [Hc Hmv].
    apply negb_true_iff in Hc. simpl.
    destruct (N.eqb_spec c 32) as [->|_].
    + vm_compute in Hc. discriminate Hc.
    + rewrite (IH Hmv). reflexivity.
Qed.

(** X19. The move of the book is the next move of the chosen line.  For
    a line that is the move list, a space, a word without white space and
    then nothing or a space and more, and in which the move list does not
    occur again, the move decoded is that of the first two and the last
    two characters of the word; at the start of a game, with the empty
    move list, the same holds of a line that begins with the word. *)
Theorem book_move_is_next_move (move_list mv tail : PyStr.str) :
  mv <> [] ->
  no_blank mv = true ->
  tail = [] \/ (exists t, tail = 32%N :: t) ->
  book_move_of [] (mv ++ tail)
  = (str2bb (PyStr.first_two mv), str2bb (PyStr.last_two mv))
  /\ (move_list <> [] ->
      occurs_in move_list (32%N :: mv ++ tail) = false ->
      book_move_of move_list (move_list ++ 32%N :: mv ++ tail)
      = (str2bb (PyStr.first_two mv), str2bb (PyStr.last_two mv))).
Proof.
  intros Hmv Hblank Htail. unfold book_move_of. split.
  - cbn [PyStr.remove].
    rewrite (lstrip_no_blank mv tail Hmv Hblank).
    rewrite (first_field_no_blank tail Htail mv Hblank). reflexivity.
  - intros Hml Hocc.
    rewrite (remove_leading move_list _ Hml).
    rewrite (remove_from_absent _ _ Hocc).
    cbn [PyStr.lstrip].
    change (PyStr.is_space 32) with true. cbv iota.
    rewrite (lstrip_no_blank mv tail Hmv Hblank).
    rewrite (first_field_no_blank tail Htail mv Hblank). reflexivity.
Qed.

(** X20. [get_book_move] called on its own, without the test
    [get_AI_move] makes first: on a game that did not start from the
    initial position it raises [TypeError] (a choice from [False]), and
    when no line of the book passes the test it raises [IndexError] (a
    choice from the empty list). *)
Theorem get_book_move_without_a_line (game : Game) (rng : Rng) :
  (forall first rest,
      position_history game = first :: rest ->
      first <> INITIAL_FEN ->
      get_book_move game rng = Raise TypeError)
  /\ (forall rest lines,
         position_history game = INITIAL_FEN :: rest ->
         book_txt = Some lines ->
         (forall line, In line lines ->
                       book_line_matches (get_move_list game) line = false) ->
         get_book_move game rng = Raise IndexError).
Proof.
  unfold get_book_move, find_in_book. split.
  - intros first rest -> Hne. rewrite (str_eqb_neq _ _ Hne). reflexivity.
  - intros rest lines -> -> Hnone. rewrite str_eqb_refl.
    cbn [negb]. rewrite scan_book_filter.
    assert (Hnil : filter (book_line_matches (get_move_list game)) lines
                   = []).
    { clear -Hnone. induction lines as [|l lines IH]; [reflexivity|].
      simpl. rewrite (Hnone l (or_introl eq_refl)).
      apply IH. intros line Hin. apply Hnone. right. exact Hin. }
    rewrite Hnil. reflexivity.
Qed.

End BookFacts.

(** The toy book opened on the move list "e2e4": its first line
    matches, its second does not. *)
Lemma find_in_book_outcomes_witness :
  find_in_book (Toy.mkGame WHITE 8)
  = Ok (BookOpenings [PyStr.of_string "e2e4 e7e5 g1f3"])
  /\ find_in_book (Toy.mkGame WHITE 3) = Ok BookFalse.
Proof.
  destruct (find_in_book_outcomes (Toy.mkGame WHITE 8))
    as (_ & _ & _ & Hlist).
  destruct (find_in_book_outcomes (Toy.mkGame WHITE 3))
    as (_ & Hfalse & _).
  split.
  - rewrite (Hlist [] _ eq_refl eq_refl). reflexivity.
  - apply (Hfalse _ [] eq_refl). vm_compute. discriminate.
Defined.

Lemma book_openings_extend_move_list_witness :
  (exists body c,
      PyStr.of_string "e2e4 e7e5 g1f3" = body ++ [c]
      /\ PyStr.is_space c = false)
  /\ PyStr.prefix (PyStr.of_string "e2e4")
                  (PyStr.of_string "e2e4 e7e5 g1f3") = true
  /\ PyStr.of_string "e2e4 e7e5 g1f3" <> PyStr.of_string "e2e4".
Proof.
  destruct (book_openings_extend_move_list
              (Toy.mkGame WHITE 8) [PyStr.of_string "e2e4 e7e5 g1f3"]
              (PyStr.of_string "e2e4 e7e5 g1f3"))
    as (_ & _ & Hends & Hp & Hne).
  - reflexivity.
  - left. reflexivity.
  - split; [exact Hends|]. split; [exact Hp|exact Hne].
Defined.

(** With no fuel at all the book still answers e7e5. *)
Lemma get_AI_move_book_hit_witness :
  exists rng',
    get_AI_move 0 (Toy.mkGame WHITE 8) 2 true Toy.tape0
    = Ok (Some (4503599627370496, 68719476736), rng').
Proof.
  destruct (get_AI_move_book_hit (Toy.mkGame WHITE 8)
                                 [PyStr.of_string "e2e4 e7e5 g1f3"])
    as [Hhit _].
  - reflexivity.
  - discriminate.
  - destruct (Hhit 0%nat 2 Toy.tape0)
      as (opening & rng' & [<-|[]] & _ & Hquiet).
    exists rng'. rewrite (Hquiet eq_refl). reflexivity.
Defined.

(** After e2e4 the line "e2e4 e7e5 g1f3" gives e7e5. *)
Lemma book_move_is_next_move_witness :
  book_move_of (PyStr.of_string "e2e4") (PyStr.of_string "e2e4 e7e5 g1f3")
  = (str2bb (PyStr.first_two (PyStr.of_string "e7e5")),
     str2bb (PyStr.last_two (PyStr.of_string "e7e5"))).
Proof.
  destruct (book_move_is_next_move
              (PyStr.of_string "e2e4") (PyStr.of_string "e7e5")
              (PyStr.of_string " g1f3")) as [_ Hnext].
  - vm_compute. discriminate.
  - reflexivity.
  - right. exists (PyStr.of_string "g1f3"). reflexivity.
  - refine (Hnext _ _); [vm_compute; discriminate|reflexivity].
Defined.

(** A pile of three did not start from the initial position; a pile of
    ten did, with a move list no line of the book starts with. *)
Lemma get_book_move_without_a_line_witness :
  get_book_move (Toy.mkGame WHITE 3) Toy.tape0 = Raise TypeError
  /\ get_book_move (Toy.mkGame WHITE 10) Toy.tape0 = Raise IndexError.
Proof.
  split.
  - destruct (get_book_move_without_a_line (Toy.mkGame WHITE 3) Toy.tape0)
      as [Hfalse _].
    apply (Hfalse _ [] eq_refl). vm_compute. discriminate.
  - destruct (get_book_move_without_a_line (Toy.mkGame WHITE 10) Toy.tape0)
      as [_ Hempty].
    apply (Hempty [] _ eq_refl eq_refl).
    intros line [<-|[<-|[]]]; vm_compute; reflexivity.
Defined.

(* ================================================================= *)
(** ** Further properties: depths below 1                             *)
(* ================================================================= *)

Section DepthBelowOne.
Context {Game : Type} {R : Rules Game}.






End DepthBelowOne.

